(** * srclib store: file-backed unit store, multi-repo listing and the
      tree-level def-query index

    A shallow embedding of [store/fs_store.go] and of the tree-level
    def-query index ([defQueryTreeIndex]), with the properties of the
    store's specification stated over it.

    Conventions.
    - Go strings are [string] (a sequence of bytes); [<] on Go strings is
      the byte-wise lexicographic order [str_ltb].
    - File contents are [list byte].
    - [uint64] / [int64] arithmetic is carried out on [Z] with the
      wrap-around written out ([u64], [int64]).
    - The virtual file system, the codec, [sort.Sort], the Unicode tables
      and the MAFSA library are external collaborators; they are modelled
      by their contracts (a fault plan decides which call fails). *)

From stdpp Require Import base gmap strings list sorting countable.
From Stdlib Require Import ZArith Lia.
From Stdlib.Strings Require Import Byte Ascii.

Local Open Scope Z_scope.

(* ===================================================================== *)
(** ** Machine integers *)

Definition u64 (z : Z) : Z := z mod 2 ^ 64.
Definition int64 (z : Z) : Z := (z + 2 ^ 63) mod 2 ^ 64 - 2 ^ 63.


(* ===================================================================== *)
(** ** Go strings and their order *)

Definition string_bytes (s : string) : list N :=
  N_of_ascii <$> String.list_ascii_of_string s.

(** Lexicographic order on sequences of numbers: bytes of a Go string, or
    the runes of a term. *)
Fixpoint lex_ltb (a b : list N) : bool :=
  match a, b with
  | _, [] => false
  | [], _ :: _ => true
  | x :: a', y :: b' =>
      if (x <? y)%N then true
      else if (x =? y)%N then lex_ltb a' b' else false
  end.

Definition lex_leb (a b : list N) : bool := negb (lex_ltb b a).

Definition str_ltb (a b : string) : bool :=
  lex_ltb (string_bytes a) (string_bytes b).


(* ===================================================================== *)
(** ** Errors, codec *)

Inductive error : Type :=
| EOF                       (* io.EOF *)
| ErrNotExist               (* os.IsNotExist *)
| errUnitNoInit
| ErrCorrupt
| ErrRecovered              (* the error made from a recovered panic *)
| ErrIO (code : nat).

Global Instance error_eq_dec : EqDecision error.
Proof. solve_decision. Defined.

(** A call either returns or stops with a run-time panic. *)
Inductive outcome (A : Type) : Type :=
| Returns (a : A)
| Panics (msg : string).
Arguments Returns {A} a.
Arguments Panics {A} msg.

(** What [Decode] reports on the bytes that remain in its reader. *)
Inductive decoded (T : Type) : Type :=
| DecEOF
| DecErr (e : error)
| DecOk (v : T) (n : nat).
Arguments DecEOF {T}.
Arguments DecErr {T} e.
Arguments DecOk {T} v n.

(** The package-level [Codec]: [NewEncoder(w).Encode(v)] writes
    [encode v] and reports its length; [NewDecoder(r).Decode(&v)] reads one
    record and reports how many bytes it took.  Records are
    self-delimiting. *)
Class Codec (T : Type) : Type := {
  encode : T -> list byte;
  decode : list byte -> decoded T;
  decode_encode : forall v rest,
    decode (encode v ++ rest) = DecOk v (length (encode v));
  decode_nil : decode [] = DecEOF;
  decode_consumes : forall bs v n,
    decode bs = DecOk v n -> (0 < n <= length bs)%nat
}.

(* ===================================================================== *)
(** ** The virtual file system

    The store reaches its files through [rwvfs.FileSystem].  The world
    keeps the file contents, the handles that are open, the plan of I/O
    faults still to strike (one entry per fallible call, [None] or an
    exhausted plan meaning the call succeeds) and the trace of calls made so
    far, newest first.  [EvCreate] and [EvOpen] carry the handle the call
    hands out when it succeeds. *)

Inductive event : Type :=
| EvCreate (name : string) (h : nat) (r : option error)
| EvOpen (name : string) (h : nat) (r : option error)
| EvEncode (r : option error)
| EvFlush (r : option error)
| EvDecode (r : option error)
| EvFetch (start end_ : Z) (r : option error)
| EvSeek (start : Z) (r : option error)
| EvClose (h : nat) (r : option error)
| EvListRepoPaths (after : string) (max : Z) (r : option error).

Record world : Type := World {
  files : gmap string (list byte);
  open_handles : list nat;
  next_handle : nat;
  faults : list (option nat);
  trace : list event
}.

Record file : Type := File { fd : nat; fname : string }.

Definition log (ev : event) (w : world) : world :=
  World (files w) (open_handles w) (next_handle w) (faults w) (ev :: trace w).

Definition next_fault (w : world) : option error * world :=
  match faults w with
  | [] => (None, w)
  | flt :: rest =>
      (ErrIO <$> flt,
       World (files w) (open_handles w) (next_handle w) rest (trace w))
  end.

Definition vfs_Create (name : string) (w : world) : (file + error) * world :=
  let '(flt, w) := next_fault w in
  match flt with
  | Some e => (inr e, log (EvCreate name (next_handle w) (Some e)) w)
  | None =>
      let h := next_handle w in
      (inl (File h name),
       World (<[name := []]> (files w)) (h :: open_handles w) (S h)
             (faults w) (EvCreate name h None :: trace w))
  end.

Definition vfs_Open (name : string) (w : world)
  : (file * list byte + error) * world :=
  let '(flt, w) := next_fault w in
  match flt with
  | Some e => (inr e, log (EvOpen name (next_handle w) (Some e)) w)
  | None =>
      match files w !! name with
      | None =>
          (inr ErrNotExist,
           log (EvOpen name (next_handle w) (Some ErrNotExist)) w)
      | Some bs =>
          let h := next_handle w in
          (inl (File h name, bs),
           World (files w) (h :: open_handles w) (S h)
                 (faults w) (EvOpen name h None :: trace w))
      end
  end.

(** [f.Close()]: the handle is released whether or not an error is
    reported. *)
Definition file_Close (f : file) (w : world) : option error * world :=
  let '(flt, w) := next_fault w in
  (flt,
   World (files w) (filter (λ h, h ≠ fd f) (open_handles w)) (next_handle w)
         (faults w) (EvClose (fd f) flt :: trace w)).

(** [enc.Encode(v)] on an encoder over a [bufio.Writer] whose pending
    bytes are [bw]: the number of bytes written and the new buffer. *)
Definition enc_Encode {T} `{Codec T} (v : T) (bw : list byte) (w : world)
  : (Z * list byte + error) * world :=
  let '(flt, w) := next_fault w in
  match flt with
  | Some e => (inr e, log (EvEncode (Some e)) w)
  | None =>
      (inl (Z.of_nat (length (encode v)), bw ++ encode v),
       log (EvEncode None) w)
  end.

(** [bw.Flush()]: the pending bytes reach the file. *)
Definition bufio_Flush (f : file) (bw : list byte) (w : world)
  : option error * world :=
  let '(flt, w) := next_fault w in
  match flt with
  | Some e => (Some e, log (EvFlush (Some e)) w)
  | None =>
      (None,
       World (<[fname f := default [] (files w !! fname f) ++ bw]> (files w))
             (open_handles w) (next_handle w) (faults w)
             (EvFlush None :: trace w))
  end.

(** [dec.Decode(&v)] on a decoder whose reader still holds [rest]: the
    record, the number of bytes it took and what is left; or the error,
    [EOF] at the end of the data. *)
Definition dec_Decode {T} `{Codec T} (rest : list byte) (w : world)
  : (T * nat * list byte + error) * world :=
  let '(flt, w) := next_fault w in
  match flt with
  | Some e => (inr e, log (EvDecode (Some e)) w)
  | None =>
      match decode rest with
      | DecEOF => (inr EOF, log (EvDecode (Some EOF)) w)
      | DecErr e => (inr e, log (EvDecode (Some e)) w)
      | DecOk v n => (inl (v, n, drop n rest), log (EvDecode None) w)
      end
  end.

(** What [Decode] returns when no I/O fault strikes. *)
Definition decode_result {T} `{Codec T} (rest : list byte)
  : T * nat * list byte + error :=
  match decode rest with
  | DecEOF => inr EOF
  | DecErr e => inr e
  | DecOk v n => inl (v, n, drop n rest)
  end.

(** The deferred [err2 := f.Close(); if err == nil { err = err2 }] that
    every reader and writer installs right after opening its file: it runs
    after [body] has set the results. *)
Definition deferred_Close {A} (f : file)
    (body : world -> (A * option error) * world) (w : world)
  : (A * option error) * world :=
  let '((a, err), w) := body w in
  let '(err2, w) := file_Close f w in
  ((a, match err with None => err2 | Some _ => err end), w).

(** The reading loop
    [for { n, err := dec.Decode(&v); if err == io.EOF { break } else if
    err != nil { return err }; body }] folded over a loop state [S].  The
    fuel bounds the number of iterations; one more than the number of bytes
    left always suffices ([scan_fuel]). *)
Fixpoint scan {T S} `{Codec T} (fuel : nat) (body : S -> T -> nat -> S)
    (rest : list byte) (s : S) (w : world) : (S + error) * world :=
  match fuel with
  | O => (inr ErrCorrupt, w)
  | Datatypes.S fuel' =>
      let '(r, w) := dec_Decode rest w in
      match r with
      | inr EOF => (inl s, w)
      | inr e => (inr e, w)
      | inl (v, n, rest') => scan fuel' body rest' (body s v n) w
      end
  end.

(* ===================================================================== *)
(** ** Data model *)

(** Modelled from the spec: the record types [graph.Def], [graph.Ref] and
    [graph.Output] and [unit.SourceUnit], declared in packages [graph] and
    [unit]; the fields are those the specification lists. *)
Record graph_Def : Type := mkDef {
  Def_Repo : string; Def_CommitID : string;
  Def_UnitType : string; Def_Unit : string; Def_Path : string;
  Def_Name : string; Def_Kind : string; Def_File : string;
  Def_DefStart : Z; Def_DefEnd : Z;
  Def_Exported : bool; Def_Local : bool
}.

Record graph_Ref : Type := mkRef {
  Ref_DefRepo : string; Ref_DefUnitType : string;
  Ref_DefUnit : string; Ref_DefPath : string;
  Ref_Repo : string; Ref_CommitID : string;
  Ref_UnitType : string; Ref_Unit : string;
  Ref_File : string; Ref_Start : Z; Ref_End : Z;
  Ref_Def : bool
}.

Record graph_Output : Type := mkOutput {
  Output_Defs : list graph_Def;
  Output_Refs : list graph_Ref
}.

Record SourceUnit : Type := mkSourceUnit {
  SourceUnit_Type : string; SourceUnit_Name : string;
  SourceUnit_Info : string
}.

(** [unit.ID2] *)
Record ID2 : Type := mkID2 { ID2_Type : string; ID2_Name : string }.

Global Instance ID2_eq_dec : EqDecision ID2.
Proof. solve_decision. Defined.

Global Instance ID2_countable : Countable ID2.
Proof.
  apply (inj_countable' (λ u, (ID2_Type u, ID2_Name u))
                        (λ p, mkID2 p.1 p.2)).
  intros []. reflexivity.
Defined.

Abbreviation byteOffsets := (list Z) (only parsing).
Abbreviation byteRanges := (list Z) (only parsing).

(** Filters: [defFilters(fs).SelectDef] and [refFilters(fs).SelectRef]
    select a record when every filter does. *)
Definition DefFilter : Type := graph_Def -> bool.
Definition RefFilter : Type := graph_Ref -> bool.
Definition SelectDef (fs : list DefFilter) (d : graph_Def) : bool :=
  forallb (λ f, f d) fs.
Definition SelectRef (fs : list RefFilter) (r : graph_Ref) : bool :=
  forallb (λ f, f r) fs.

(** Modelled from the spec: [refsByFileStartEnd.Less], declared outside
    the files at hand; refs are ordered by (File asc, Start asc,
    End asc). *)
Definition refsByFileStartEnd_Less (a b : graph_Ref) : bool :=
  if decide (Ref_File a = Ref_File b) then
    if decide (Ref_Start a = Ref_Start b) then Ref_End a <? Ref_End b
    else Ref_Start a <? Ref_Start b
  else str_ltb (Ref_File a) (Ref_File b).

(** [sort.Sort]: the result is a rearrangement of the input in which no
    later element is [Less] than an earlier one.  The sort is not stable,
    so only this contract is known. *)
Class Sorter {A : Type} (less : A -> A -> bool) : Type := {
  sort_Sort : list A -> list A;
  sort_Sort_perm : forall l, sort_Sort l ≡ₚ l;
  sort_Sort_sorted : forall l,
    StronglySorted (λ a b, less b a = false) (sort_Sort l)
}.

Definition unitDefsFilename : string := "def.dat".
Definition unitRefsFilename : string := "ref.dat".

(* ===================================================================== *)
(** ** fsTreeStore.openUnitFile *)

Definition SourceUnit_zero : SourceUnit := mkSourceUnit "" "" "".

Definition openUnitFile `{Codec SourceUnit} (filename : string) (w : world)
  : (option SourceUnit * option error) * world :=
  let '(r, w) := vfs_Open filename w in
  match r with
  | inr e =>
      ((None, Some (if decide (e = ErrNotExist) then errUnitNoInit else e)),
       w)
  | inl (f, bs) =>
      deferred_Close f (λ w,
        let '(r, w) := dec_Decode bs w in
        match r with
        | inr e => ((Some SourceUnit_zero, Some e), w)
        | inl (u, _, _) => ((Some u, None), w)
        end) w
  end.

(* ===================================================================== *)
(** ** fsUnitStore *)

Section fsUnitStore.
Context `{CodecDef : Codec graph_Def} `{CodecRef : Codec graph_Ref}.
Context `{SortRefs : Sorter graph_Ref refsByFileStartEnd_Less}.
(** [cleanForImport(&data, repo, unitType, unit)], defined outside the
    files at hand. *)
Variable cleanForImport :
  graph_Output -> string -> string -> string -> graph_Output.

Definition Defs_body (fs : list DefFilter)
    (defs : list graph_Def) (def : graph_Def) (_ : nat) : list graph_Def :=
  if SelectDef fs def then defs ++ [def] else defs.

Definition Defs (fs : list DefFilter) (w : world)
  : (list graph_Def * option error) * world :=
  let '(r, w) := vfs_Open unitDefsFilename w in
  match r with
  | inr e => (([], Some e), w)
  | inl (f, bs) =>
      deferred_Close f (λ w,
        let '(r, w) := scan (S (length bs)) (Defs_body fs) bs [] w in
        match r with
        | inr e => (([], Some e), w)
        | inl defs => ((defs, None), w)
        end) w
  end.

(** Loop state of [readDefs]: [n], [defs], [ofs]. *)
Definition readDefs_body (s : Z * list graph_Def * byteOffsets)
    (def : graph_Def) (o : nat) : Z * list graph_Def * byteOffsets :=
  let '(n, defs, ofs) := s in
  (u64 (n + Z.of_nat o), defs ++ [def], ofs ++ [int64 n]).

Definition readDefs (w : world)
  : (list graph_Def * byteOffsets * option error) * world :=
  let '(r, w) := vfs_Open unitDefsFilename w in
  match r with
  | inr e => (([], [], Some e), w)
  | inl (f, bs) =>
      deferred_Close f (λ w,
        let '(r, w) := scan (S (length bs)) readDefs_body bs (0, [], []) w in
        match r with
        | inr e => (([], [], Some e), w)
        | inl (_, defs, ofs) => ((defs, ofs, None), w)
        end) w
  end.

Definition Refs_body (fs : list RefFilter)
    (refs : list graph_Ref) (ref : graph_Ref) (_ : nat) : list graph_Ref :=
  if SelectRef fs ref then refs ++ [ref] else refs.

Definition Refs (fs : list RefFilter) (w : world)
  : (list graph_Ref * option error) * world :=
  let '(r, w) := vfs_Open unitRefsFilename w in
  match r with
  | inr e => (([], Some e), w)
  | inl (f, bs) =>
      deferred_Close f (λ w,
        let '(r, w) := scan (S (length bs)) (Refs_body fs) bs [] w in
        match r with
        | inr e => (([], Some e), w)
        | inl refs => ((refs, None), w)
        end) w
  end.

(** Loop state of [readRefs]. *)
Record readRefs_state : Type := mkReadRefs {
  rr_o : Z;
  rr_fbrs : gmap string byteRanges;
  rr_lastFile : string;
  rr_refs : list graph_Ref;
  rr_ofs : byteOffsets
}.

(** One iteration of the loop of [readRefs] after a successful decode.
    [brs[len(brs)-1]] reads the last value stored for the file; every
    stored sequence was produced by [append], so it is never empty and
    the default of [List.last] is never used. *)
Definition readRefs_body (s : readRefs_state) (ref : graph_Ref) (n : nat)
  : readRefs_state :=
  let o := rr_o s in
  let ofs := rr_ofs s ++ [o] in
  let lastFileRefStartOffset :=
    match rr_fbrs s !! Ref_File ref with
    | Some brs => List.last brs 0
    | None => 0
    end in
  let fbrs1 :=
    if decide (rr_lastFile s ≠ "" ∧ Ref_File ref ≠ rr_lastFile s) then
      <[rr_lastFile s :=
          default [] (rr_fbrs s !! rr_lastFile s)
            ++ [int64 (o - lastFileRefStartOffset)]]> (rr_fbrs s)
    else rr_fbrs s in
  let fbrs2 :=
    <[Ref_File ref :=
        default [] (fbrs1 !! Ref_File ref)
          ++ [int64 (o - lastFileRefStartOffset)]]> fbrs1 in
  mkReadRefs (int64 (o + int64 (Z.of_nat n))) fbrs2 (Ref_File ref)
             (rr_refs s ++ [ref]) ofs.

(** The statements after the loop. *)
Definition readRefs_finish (s : readRefs_state) : gmap string byteRanges :=
  if decide (rr_lastFile s ≠ "") then
    let lastFileRefStartOffset :=
      match rr_fbrs s !! rr_lastFile s with
      | Some brs => List.last brs 0
      | None => 0
      end in
    <[rr_lastFile s :=
        default [] (rr_fbrs s !! rr_lastFile s)
          ++ [int64 (rr_o s - lastFileRefStartOffset)]]> (rr_fbrs s)
  else rr_fbrs s.

Definition readRefs (w : world)
  : (list graph_Ref * gmap string byteRanges * byteOffsets * option error)
    * world :=
  let '(r, w) := vfs_Open unitRefsFilename w in
  match r with
  | inr e => (([], ∅, [], Some e), w)
  | inl (f, bs) =>
      deferred_Close f (λ w,
        let '(r, w) :=
          scan (S (length bs)) readRefs_body bs
               (mkReadRefs 0 ∅ "" [] []) w in
        match r with
        | inr e => (([], ∅, [], Some e), w)
        | inl s => ((rr_refs s, readRefs_finish s, rr_ofs s, None), w)
        end) w
  end.

(** The loop of [writeDefs]: [ofs[i] = int64(o)], encode, [o += n]. On
    success the offsets and the bytes pending in the [bufio.Writer]. *)
Fixpoint writeDefs_loop (defs : list graph_Def) (o : Z) (bw : list byte)
    (w : world) : (byteOffsets * list byte + error) * world :=
  match defs with
  | [] => (inl ([], bw), w)
  | def :: defs' =>
      let '(r, w) := enc_Encode def bw w in
      match r with
      | inr e => (inr e, w)
      | inl (n, bw') =>
          let '(r', w) := writeDefs_loop defs' (u64 (o + n)) bw' w in
          (match r' with
           | inl (ofs, bw'') => inl (int64 o :: ofs, bw'')
           | inr e => inr e
           end, w)
      end
  end.

Definition writeDefs (defs : list graph_Def) (w : world)
  : (byteOffsets * option error) * world :=
  let '(r, w) := vfs_Create unitDefsFilename w in
  match r with
  | inr e => (([], Some e), w)
  | inl f =>
      deferred_Close f (λ w,
        let '(r, w) := writeDefs_loop defs 0 [] w in
        match r with
        | inr e => (([], Some e), w)
        | inl (ofs, bw) =>
            let '(err, w) := bufio_Flush f bw w in
            match err with
            | Some e => (([], Some e), w)
            | None => ((ofs, None), w)
            end
        end) w
  end.

(** Loop state of [writeRefs]. *)
Record writeRefs_state : Type := mkWriteRefs {
  wr_o : Z;
  wr_fbr : gmap string byteRanges;
  wr_ofs : byteOffsets;
  wr_lastFile : string;
  wr_lastFileByteRanges : byteRanges;
  wr_bw : list byte
}.

Fixpoint writeRefs_loop (i : nat) (refs : list graph_Ref)
    (s : writeRefs_state) (w : world)
  : (writeRefs_state * option error) * world :=
  match refs with
  | [] => ((s, None), w)
  | ref :: refs' =>
      let o := wr_o s in
      let ofs := <[i := int64 o]> (wr_ofs s) in
      let '(fbr, lastFile, lfbr) :=
        if decide (wr_lastFile s ≠ Ref_File ref) then
          ((if decide (wr_lastFile s ≠ "") then
              <[wr_lastFile s := wr_lastFileByteRanges s]> (wr_fbr s)
            else wr_fbr s),
           Ref_File ref, [int64 o])
        else (wr_fbr s, wr_lastFile s, wr_lastFileByteRanges s) in
      let before := o in
      let '(r, w) := enc_Encode ref (wr_bw s) w in
      match r with
      | inr e => ((mkWriteRefs o fbr ofs lastFile lfbr (wr_bw s), Some e), w)
      | inl (n, bw') =>
          let o' := u64 (o + n) in
          writeRefs_loop (S i) refs'
            (mkWriteRefs o' fbr ofs lastFile
               (lfbr ++ [int64 (u64 (o' - before))]) bw') w
      end
  end.

Definition writeRefs (refs : list graph_Ref) (w : world)
  : (gmap string byteRanges * byteOffsets * option error) * world :=
  let '(r, w) := vfs_Create unitRefsFilename w in
  match r with
  | inr e => ((∅, [], Some e), w)
  | inl f =>
      deferred_Close f (λ w,
        let refs := sort_Sort refs in
        let '((s, err), w) :=
          writeRefs_loop 0 refs
            (mkWriteRefs 0 ∅ (replicate (length refs) 0) "" [] []) w in
        match err with
        | Some e => ((∅, wr_ofs s, Some e), w)
        | None =>
            let fbr :=
              if decide (wr_lastFile s ≠ "") then
                <[wr_lastFile s := wr_lastFileByteRanges s]> (wr_fbr s)
              else wr_fbr s in
            let '(err, w) := bufio_Flush f (wr_bw s) w in
            match err with
            | Some e => ((∅, wr_ofs s, Some e), w)
            | None => ((fbr, wr_ofs s, None), w)
            end
        end) w
  end.

(** [rangeReader(f, start, n)]: when the file is a [rwvfs.Fetcher] the
    range [start, start+n) is fetched first; then the file is positioned at
    [start].  The reader returned holds the bytes from there on. *)
Definition rangeReader (fetcher : bool) (bs : list byte) (start n : Z)
    (w : world) : (list byte + error) * world :=
  let '(err, w) :=
    if fetcher then
      let '(flt, w) := next_fault w in
      (flt, log (EvFetch start (int64 (start + n)) flt) w)
    else (None, w) in
  match err with
  | Some e => (inr e, w)
  | None =>
      let '(flt, w) := next_fault w in
      match flt with
      | Some e => (inr e, log (EvSeek start (Some e)) w)
      | None =>
          if decide (start < 0) then
            (inr ErrCorrupt, log (EvSeek start (Some ErrCorrupt)) w)
          else (inl (drop (Z.to_nat start) bs), log (EvSeek start None) w)
      end
  end.

(** The inner loop of [refsAtByteRanges]: [k] refs decoded one after the
    other; here [io.EOF] is an error like any other. *)
Fixpoint refsAtByteRanges_decode (k : nat) (fs : list RefFilter)
    (rest : list byte) (refs : list graph_Ref) (w : world)
  : (list graph_Ref + error) * world :=
  match k with
  | O => (inl refs, w)
  | S k' =>
      let '(r, w) := dec_Decode rest w in
      match r with
      | inr e => (inr e, w)
      | inl (ref, _, rest') =>
          refsAtByteRanges_decode k' fs rest'
            (if SelectRef fs ref then refs ++ [ref] else refs) w
      end
  end.

(** The outer loop: for each byte range, one positioned read of the sum of
    its lengths, then as many refs as it has lengths. *)
Fixpoint refsAtByteRanges_loop (fetcher : bool) (bs : list byte)
    (brs : list byteRanges) (fs : list RefFilter) (refs : list graph_Ref)
    (w : world) : (list graph_Ref + error) * world :=
  match brs with
  | [] => (inl refs, w)
  | br :: brs' =>
      let readLength := foldl (λ n b, int64 (n + b)) 0 (drop 1 br) in
      let '(r, w) := rangeReader fetcher bs (default 0 (head br)) readLength w in
      match r with
      | inr e => (inr e, w)
      | inl rest =>
          let '(r, w) :=
            refsAtByteRanges_decode (length (drop 1 br)) fs rest refs w in
          match r with
          | inr e => (inr e, w)
          | inl refs' => refsAtByteRanges_loop fetcher bs brs' fs refs' w
          end
      end
  end.

(** [refsAtByteRanges]; [fetcher] tells whether the VFS opens its files as
    [rwvfs.Fetcher]s.  Slicing an empty byte range ([br[1:]]) panics. *)
Definition refsAtByteRanges (fetcher : bool) (brs : list byteRanges)
    (fs : list RefFilter) (w : world)
  : outcome ((list graph_Ref * option error) * world) :=
  let '(r, w) := vfs_Open unitRefsFilename w in
  match r with
  | inr e => Returns (([], Some e), w)
  | inl (f, bs) =>
      if bool_decide (Exists (λ br, br = []) brs) then
        Panics "slice bounds out of range"
      else
        Returns
          (deferred_Close f (λ w,
             let '(r, w) := refsAtByteRanges_loop fetcher bs brs fs [] w in
             match r with
             | inr e => (([], Some e), w)
             | inl refs => ((refs, None), w)
             end) w)
  end.

Definition Import (data : graph_Output) (w : world) : option error * world :=
  let data := cleanForImport data "" "" "" in
  let '((_, err), w) := writeDefs (Output_Defs data) w in
  match err with
  | Some e => (Some e, w)
  | None =>
      let '((_, _, err), w) := writeRefs (Output_Refs data) w in
      match err with
      | Some e => (Some e, w)
      | None => (None, w)
      end
  end.

End fsUnitStore.


(* ===================================================================== *)
(** ** fsMultiRepoStore.Repos *)

(** [string([]rune{r})]: the UTF-8 encoding of the rune, U+FFFD for a
    value that is not a valid code point. *)
Definition byte_string (bs : list Z) : string :=
  String.string_of_list_ascii ((λ b, ascii_of_N (Z.to_N b)) <$> bs).

Definition utf8_encode (r : Z) : string :=
  if decide (r < 0 \/ 1114111 < r \/ (55296 <= r <= 57343)) then
    byte_string [239; 191; 189]
  else if decide (r <= 127) then byte_string [r]
  else if decide (r <= 2047) then
    byte_string [Z.lor 192 (Z.shiftr r 6); Z.lor 128 (Z.land r 63)]
  else if decide (r <= 65535) then
    byte_string [Z.lor 224 (Z.shiftr r 12);
                 Z.lor 128 (Z.land (Z.shiftr r 6) 63);
                 Z.lor 128 (Z.land r 63)]
  else
    byte_string [Z.lor 240 (Z.shiftr r 18);
                 Z.lor 128 (Z.land (Z.shiftr r 12) 63);
                 Z.lor 128 (Z.land (Z.shiftr r 6) 63);
                 Z.lor 128 (Z.land r 63)].

(** [lastComp[:len(lastComp)-1] + string([]rune{rune(lastComp[len(lastComp)-1])
    - rune(1)}) + "\xff"]; slicing an empty [lastComp] panics. *)
Definition Repos_lastComp (lastComp : string) : outcome string :=
  match rev (String.list_ascii_of_string lastComp) with
  | [] => Panics "slice bounds out of range"
  | c :: front =>
      Returns (String.string_of_list_ascii (rev front)
               +:+ utf8_encode (Z.of_N (N_of_ascii c) - 1)
               +:+ byte_string [255])
  end.

(** [s.fs.Join(elem...)]: the elements separated by slashes; empty
    elements are ignored.  (The elements are taken to be clean: [Join]
    would also resolve "." and ".." elements.) *)
Definition vfs_Join (elems : list string) : string :=
  String.concat "/" (filter (λ e, e ≠ "") elems).

(** [RepoPaths]: where the multi-repo store keeps each repository. *)
Record RepoPaths : Type := mkRepoPaths {
  RepoToPath : string -> list string;
  PathToRepo : list string -> string;
  ListRepoPaths :
    string -> Z -> world -> (list (list string) * option error) * world
}.

(** A repo filter: its predicate and, for [ByRepos], the repos it scopes
    to. *)
Record RepoFilter : Type := mkRepoFilter {
  SelectRepo : string -> bool;
  ByRepos : option (list string)
}.

Definition repoFilters_SelectRepo (f : list RepoFilter) (repo : string)
  : bool :=
  forallb (λ x, SelectRepo x repo) f.

Section fsMultiRepoStore.
(** The configuration of the store. *)
Variable conf : RepoPaths.
(** [scopeRepos(storeFilters(f))], defined outside the files at hand. *)
Variable scopeRepos : list RepoFilter -> list string * option error.

(** The computation of [after] and [max] for a single scoped repo. *)
Definition Repos_after (repo : string) : outcome string :=
  let afterComps := RepoToPath conf repo in
  match rev afterComps with
  | [] => Returns (vfs_Join afterComps)
  | lastComp :: front =>
      match Repos_lastComp lastComp with
      | Panics msg => Panics msg
      | Returns lastComp' => Returns (vfs_Join (rev front ++ [lastComp']))
      end
  end.

Definition Repos_list (f : list RepoFilter) (after : string) (max : Z)
    (w : world) : (list string * option error) * world :=
  let '((paths, err), w) := ListRepoPaths conf after max w in
  match err with
  | Some e => (([], Some e), w)
  | None =>
      ((filter (λ repo, repoFilters_SelectRepo f repo = true)
               (PathToRepo conf <$> paths), None), w)
  end.

Definition Repos (f : list RepoFilter) (w : world)
  : outcome ((list string * option error) * world) :=
  let '(scope, err) := scopeRepos f in
  match err with
  | Some e => Returns (([], Some e), w)
  | None =>
      match scope with
      | _ :: _ :: _ => Returns (([], None), w)
      | [repo] =>
          match Repos_after repo with
          | Panics msg => Panics msg
          | Returns after => Returns (Repos_list f after 1 w)
          end
      | [] => Returns (Repos_list f "" 0 w)
      end
  end.

End fsMultiRepoStore.

(** Modelled from the spec: [scopeRepos], defined outside the files at
    hand.  Filters compose by AND: the scope is the set of repos that every
    [ByRepos] filter names; without such a filter there is no scope. *)
Definition scopeRepos_spec (f : list RepoFilter)
  : list string * option error :=
  match omap ByRepos f with
  | [] => ([], None)
  | rs :: rest =>
      (foldl (λ acc rs', filter (λ r, r ∈ rs') acc) (remove_dups rs) rest,
       None)
  end.

Definition ByRepos_filter (repos : list string) : RepoFilter :=
  mkRepoFilter (λ r, bool_decide (r ∈ repos)) (Some repos).

(** Modelled from the spec: a [RepoPaths] that keeps each repo in the
    directory of its own name and lists, by a scan of the store in path
    order, the repos whose path is not before [after], at most [max] of
    them when [max] is not zero.  The repos present are the names under
    which the store holds data. *)
Definition str_le (a b : string) : Prop := str_ltb b a = false.

Global Instance str_le_dec a b : Decision (str_le a b).
Proof. unfold str_le. apply _. Defined.

Definition flat_ListRepoPaths (after : string) (max : Z) (w : world)
  : (list (list string) * option error) * world :=
  let '(flt, w) := next_fault w in
  match flt with
  | Some e => (([], Some e), log (EvListRepoPaths after max (Some e)) w)
  | None =>
      let all := merge_sort str_le (elements (dom (files w))) in
      let found := filter (λ p, str_le after p) all in
      let found := if decide (max = 0) then found
                   else take (Z.to_nat max) found in
      (((λ p, [p]) <$> found, None),
       log (EvListRepoPaths after max None) w)
  end.

Definition flat_RepoPaths : RepoPaths :=
  mkRepoPaths (λ repo, [repo]) vfs_Join flat_ListRepoPaths.

(* ===================================================================== *)
(** ** The MAFSA library

    [github.com/smartystreets/mafsa] is an external library.  The store
    reads the fields of [mafsa.MinTreeNode] and calls [OrderedEdges],
    [IndexedTraverse] and the pipeline [New], [Insert], [Finish],
    [MarshalBinary], [Decoder.Decode]; they are modelled here by what the
    library documents.  A minimal automaton is represented by the trie it
    unfolds to.  [Edges] (a Go map) is kept as its bindings in increasing
    key order, the order [OrderedEdges] enumerates.  [Number] is the number
    of final nodes strictly below a node. *)

Abbreviation rune := N (only parsing).

#[warnings="-register-all"]
Inductive MinTreeNode : Type :=
| Node (Final : bool) (Number : Z) (Edges : list (rune * MinTreeNode)).

Definition Final (n : MinTreeNode) : bool :=
  match n with Node f _ _ => f end.
Definition Number (n : MinTreeNode) : Z :=
  match n with Node _ k _ => k end.
Definition Edges (n : MinTreeNode) : list (rune * MinTreeNode) :=
  match n with Node _ _ es => es end.

Record MinTree : Type := mkMinTree { Root : MinTreeNode }.

Definition b2z (b : bool) : Z := if b then 1 else 0.

(** The number of words a node stands for: the final nodes below it, and
    itself when it is final. *)
Definition weight (n : MinTreeNode) : Z := Number n + b2z (Final n).

(** [node.Edges[char]] *)
Fixpoint edge_lookup (es : list (rune * MinTreeNode)) (c : rune)
  : option MinTreeNode :=
  match es with
  | [] => None
  | (c', child) :: es' =>
      if (c' =? c)%N then Some child else edge_lookup es' c
  end.

(** The words below the edges whose character comes before [c]. *)
Fixpoint words_before (es : list (rune * MinTreeNode)) (c : rune) : Z :=
  match es with
  | [] => 0
  | (c', child) :: es' =>
      (if (c' <? c)%N then weight child else 0) + words_before es' c
  end.

(** [IndexedTraverse]: walk [word] from a node; the index counts the words
    that sort before the node reached, and the node itself when it is
    final.  [None] stands for the result [(nil, -1)]. *)
Fixpoint IndexedTraverse_from (node : MinTreeNode) (word : list rune)
    (index : Z) : option (MinTreeNode * Z) :=
  match word with
  | [] => Some (node, index)
  | c :: word' =>
      match edge_lookup (Edges node) c with
      | None => None
      | Some child =>
          IndexedTraverse_from child word'
            (index + words_before (Edges node) c + b2z (Final child))
      end
  end.

Definition IndexedTraverse (t : MinTree) (word : list rune)
  : option (MinTreeNode * Z) :=
  IndexedTraverse_from (Root t) word 0.

Definition empty_node : MinTreeNode := Node false 0 [].

(** Follow or create the edge [c] and change the node behind it. *)
Fixpoint alter_edge (c : rune) (f : MinTreeNode -> MinTreeNode)
    (es : list (rune * MinTreeNode)) : list (rune * MinTreeNode) :=
  match es with
  | [] => [(c, f empty_node)]
  | (c', child) :: es' =>
      if (c =? c')%N then (c', f child) :: es'
      else if (c <? c')%N then (c, f empty_node) :: es
      else (c', child) :: alter_edge c f es'
  end.

(** [Insert] *)
Fixpoint trie_insert (word : list rune) (n : MinTreeNode) : MinTreeNode :=
  match word with
  | [] => Node true (Number n) (Edges n)
  | c :: word' =>
      Node (Final n) (Number n) (alter_edge c (trie_insert word') (Edges n))
  end.

(** The words below a node whose edges are [es]. *)
Definition sum_weights (es : list (rune * MinTreeNode)) : Z :=
  foldr (λ e acc, weight e.2 + acc) 0 es.

(** The numbering pass: every node gets the number of final nodes strictly
    below it. *)
Fixpoint number_node (n : MinTreeNode) : MinTreeNode :=
  match n with
  | Node f _ es =>
      let es' :=
        (fix go (es : list (rune * MinTreeNode)) :=
           match es with
           | [] => []
           | (c, child) :: rest => (c, number_node child) :: go rest
           end) es in
      Node f (sum_weights es') es'
  end.

(** [New], [Insert] of each term, [Finish], [MarshalBinary] and [Decode]:
    the tree that comes back.  The serialized form has no flag for the
    root, so the root of a decoded tree is never final. *)
Definition mafsa_tree (terms : list (list rune)) : MinTree :=
  let root := number_node (foldl (λ n term, trie_insert term n)
                                 empty_node terms) in
  mkMinTree (Node false (Number root) (Edges root)).

(* ===================================================================== *)
(** ** defQueryTreeIndex *)

Record unitOffsets : Type := mkUnitOffsets {
  uo_Unit : Z;                          (* uint8 *)
  uo_byteOffsets : byteOffsets
}.

Global Instance unitOffsets_eq_dec : EqDecision unitOffsets.
Proof. solve_decision. Defined.

(** Modelled from the spec: [deltaEncode] and [deltaDecode], defined
    outside the files at hand; each value after the first is stored as
    [v[i] - v[i-1]], and decoding restores the absolute values. *)
Fixpoint deltaEncode_from (prev : Z) (v : list Z) : list Z :=
  match v with
  | [] => []
  | x :: v' => (x - prev) :: deltaEncode_from x v'
  end.
Definition deltaEncode (v : byteOffsets) : byteOffsets := deltaEncode_from 0 v.

Fixpoint deltaDecode_from (prev : Z) (v : list Z) : list Z :=
  match v with
  | [] => []
  | d :: v' => (prev + d) :: deltaDecode_from (prev + d) v'
  end.
Definition deltaDecode (v : byteOffsets) : byteOffsets := deltaDecode_from 0 v.

(** The per-unit index as [Build] reads it: [qx.mt] (nil when the unit
    index was never built), [qx.mt.t] (nil for an index without terms) and
    [qx.mt.Values]. *)
Record mafsaTable : Type := mkMafsaTable {
  mt_t : option MinTree;
  mt_Values : list byteOffsets
}.
Record defQueryIndex : Type := mkDefQueryIndex {
  dq_mt : option mafsaTable
}.

Record mafsaUnitTable : Type := mkMafsaUnitTable {
  ut_t : option MinTree;
  ut_B : list byte;
  ut_Units : list ID2;
  ut_Values : list (list unitOffsets)
}.

Record defQueryTreeIndex : Type := mkDefQueryTreeIndex {
  mt : option mafsaUnitTable;
  ready : bool
}.

(** [s[i:j]] on a slice whose capacity is its length. *)
Definition slice {A} (l : list A) (i j : Z) : option (list A) :=
  if decide (0 <= i /\ i <= j /\ j <= Z.of_nat (length l)) then
    Some (take (Z.to_nat (j - i)) (drop (Z.to_nat i) l))
  else None.

(** [unitID2s.Less] *)
Definition unitID2s_Less (a b : ID2) : bool :=
  str_ltb (ID2_Name a) (ID2_Name b)
  || (bool_decide (ID2_Name a = ID2_Name b)
      && str_ltb (ID2_Type a) (ID2_Type b)).

Definition maxUnits : nat := 255.

(** What the library calls of [Build] return: the bytes and error of
    [MarshalBinary] and, when [Decode] fails, its error and the tree
    pointer it returns with it. *)
Record mafsa_env : Type := mkMafsaEnv {
  env_marshal : list byte * option error;
  env_decode : option (error * option MinTree)
}.

(** What the calls of [Read] return: [ioutil.ReadAll], [binary.Unmarshal]
    (the exported fields B, Units and Values, and the error) and
    [Decode]. *)
Record read_env : Type := mkReadEnv {
  re_ReadAll : list byte * option error;
  re_Unmarshal :
    list byte -> (list byte * list ID2 * list (list unitOffsets))
                 * option error;
  re_Decode : list byte -> option MinTree * option error
}.

Definition panic_not_built : string := "mafsaTable not built/read".
Definition panic_no_table : string := "no mafsaTable to write".
Definition panic_nil : string := "invalid memory address or nil pointer dereference".
Definition panic_index : string := "index out of range".
Definition panic_slice : string := "slice bounds out of range".

Section defQueryTreeIndex.
(** [unicode.ToLower], rune by rune; a query is given by its runes. *)
Variable unicode_ToLower : rune -> rune.
Context `{SortUnits : Sorter ID2 unitID2s_Less}.
Context `{SortStrings : Sorter (list rune) lex_ltb}.

Definition strings_ToLower (q : list rune) : list rune :=
  unicode_ToLower <$> q.

(** The loop body of [getByQuery] for one posting. *)
Definition getByQuery_add (Units : list ID2)
    (acc : outcome (gmap ID2 byteOffsets)) (uofs : unitOffsets)
  : outcome (gmap ID2 byteOffsets) :=
  match acc with
  | Panics msg => Panics msg
  | Returns uofMap =>
      if decide (0 <= uo_Unit uofs) then
        match Units !! Z.to_nat (uo_Unit uofs) with
        | None => Panics panic_index
        | Some u =>
            Returns (<[u := default [] (uofMap !! u)
                             ++ deltaDecode (uo_byteOffsets uofs)]> uofMap)
        end
      else Panics panic_index
  end.

Definition getByQuery (x : defQueryTreeIndex) (q : list rune)
  : outcome (option (gmap ID2 byteOffsets)) :=
  match mt x with
  | None => Panics panic_not_built
  | Some table =>
      let q := strings_ToLower q in
      match ut_t table with
      | None => Panics panic_nil
      | Some t =>
          match IndexedTraverse t q with
          | None => Returns None
          | Some (node, i) =>
              let nn := Number node in
              let '(i, nn) :=
                if Final node then (i - 1, nn + 1) else (i, nn) in
              match slice (ut_Values table) i (i + nn) with
              | None => Panics panic_slice
              | Some vs =>
                  match foldl (getByQuery_add (ut_Units table))
                              (Returns ∅) (concat vs) with
                  | Panics msg => Panics msg
                  | Returns uofMap => Returns (Some uofMap)
                  end
              end
          end
      end
  end.

(** State of the traversal closure of [Build]: the counter [i] and
    [termToUOffs]. *)
Abbreviation termToUOffs_t := (gmap (list rune) (list unitOffsets))
  (only parsing).

Fixpoint traverse (Values : list byteOffsets) (unit : Z)
    (term : list rune) (node : MinTreeNode)
    (st : nat * termToUOffs_t) : outcome (nat * termToUOffs_t) :=
  match node with
  | Node final _ edges =>
      let st1 :=
        if final then
          match Values !! st.1 with
          | None => Panics panic_index
          | Some v =>
              Returns (S st.1,
                       <[term := default [] (st.2 !! term)
                                   ++ [mkUnitOffsets unit (deltaEncode v)]]>
                         st.2)
          end
        else Returns st in
      foldl (λ acc e,
               match acc with
               | Panics msg => Panics msg
               | Returns st' =>
                   traverse Values unit (term ++ [e.1]) e.2 st'
               end) st1 edges
  end.

(** [unitNums[u] = uint8(len(unitNums))] for each of the units kept. *)
Definition Build_unitNums (units : list ID2) : gmap ID2 Z :=
  foldl (λ m u, <[u := Z.of_nat (size m) mod 256]> m) ∅ units.

(** The loop over [xs]: each unit index is traversed with
    [unitNums[u]], which is 0 for a unit that is not in [unitNums]. *)
Definition Build_unit (unitNums : gmap ID2 Z)
    (acc : outcome termToUOffs_t) (uqx : ID2 * defQueryIndex)
  : outcome termToUOffs_t :=
  match acc with
  | Panics msg => Panics msg
  | Returns termToUOffs =>
      match dq_mt uqx.2 with
      | None => Panics panic_nil
      | Some qmt =>
          match mt_t qmt with
          | None => Returns termToUOffs
          | Some t =>
              match traverse (mt_Values qmt)
                             (default 0 (unitNums !! uqx.1)) []
                             (Root t) (O, termToUOffs) with
              | Panics msg => Panics msg
              | Returns st => Returns st.2
              end
          end
      end
  end.

Definition Build_units (xs : list (ID2 * defQueryIndex)) : list ID2 :=
  let units := sort_Sort (xs.*1) in
  if decide (maxUnits < length units)%nat then take maxUnits units
  else units.

Definition Build_termToUOffs (xs : list (ID2 * defQueryIndex))
  : outcome termToUOffs_t :=
  foldl (Build_unit (Build_unitNums (Build_units xs))) (Returns ∅) xs.

(** [Build].  [xs] lists the Go map in the order its iteration
    happens to take.  A panic is recovered and turned into an error. *)
Definition Build (x : defQueryTreeIndex) (xs : list (ID2 * defQueryIndex))
    (env : mafsa_env) : option error * defQueryTreeIndex :=
  let units := Build_units xs in
  match Build_termToUOffs xs with
  | Panics _ => (Some ErrRecovered, x)
  | Returns termToUOffs =>
      let terms := sort_Sort (elements (dom termToUOffs)) in
      match terms with
      | [] => (None, mkDefQueryTreeIndex
                       (Some (mkMafsaUnitTable None [] [] [])) true)
      | _ :: _ =>
          let Values := (λ term, default [] (termToUOffs !! term))
                          <$> terms in
          let '(b, err) := env_marshal env in
          match err with
          | Some e =>
              (Some e, mkDefQueryTreeIndex
                         (Some (mkMafsaUnitTable None [] [] Values))
                         (ready x))
          | None =>
              match env_decode env with
              | Some (e, t) =>
                  (Some e, mkDefQueryTreeIndex
                             (Some (mkMafsaUnitTable t b units Values))
                             (ready x))
              | None =>
                  (None, mkDefQueryTreeIndex
                           (Some (mkMafsaUnitTable
                                    (Some (mafsa_tree terms)) b units
                                    Values))
                           true)
              end
          end
      end
  end.

(** [Write]: with a table, the error of marshalling or of writing. *)
Definition Write (x : defQueryTreeIndex)
    (marshal : list byte * option error) (write : option error)
  : outcome (option error) :=
  match mt x with
  | None => Panics panic_no_table
  | Some _ =>
      match marshal.2 with
      | Some e => Returns (Some e)
      | None => Returns write
      end
  end.

Definition Read (x : defQueryTreeIndex) (env : read_env)
  : option error * defQueryTreeIndex :=
  let '(b, err) := re_ReadAll env in
  match err with
  | Some e => (Some e, x)
  | None =>
      let '((B, Units, Values), err) := re_Unmarshal env b in
      let '(t, err) :=
        match err with
        | None =>
            if decide (0 < length B)%nat then re_Decode env B
            else (None, None)
        | Some e => (None, Some e)
        end in
      (err, mkDefQueryTreeIndex
              (Some (mkMafsaUnitTable t B Units Values))
              (bool_decide (err = None)))
  end.

Definition Ready (x : defQueryTreeIndex) : bool := ready x.

(** The indexes a program can hold: the zero value, changed by any
    number of calls of [Build] and [Read], whatever they are given and
    whatever the library and the reader answer. *)
Inductive reachable : defQueryTreeIndex -> Prop :=
| reachable_zero : reachable (mkDefQueryTreeIndex None false)
| reachable_Build x xs env :
    reachable x -> reachable (Build x xs env).2
| reachable_Read x env :
    reachable x -> reachable (Read x env).2.

End defQueryTreeIndex.

(* ===================================================================== *)
(** ** Vocabulary of the specification *)

(** The bytes of a data file holding the records [vs], in this order. *)
Definition data_of {T} `{Codec T} (vs : list T) : list byte :=
  concat (encode <$> vs).

(** The offsets at which consecutive records of the given lengths start,
    the first one at [o]. *)
Fixpoint record_starts (o : Z) (lens : list nat) : list Z :=
  match lens with
  | [] => []
  | n :: lens' => o :: record_starts (o + Z.of_nat n) lens'
  end.

Definition encoded_lengths {T} `{Codec T} (vs : list T) : list nat :=
  (λ v, length (encode v)) <$> vs.

(** *** Handles and errors seen in a trace

    The events a call adds to the trace, oldest first, tell which handles
    it obtained, which it released and which of its calls failed. *)

Definition event_error (ev : event) : option error :=
  match ev with
  | EvCreate _ _ r | EvOpen _ _ r | EvEncode r | EvFlush r | EvDecode r
  | EvFetch _ _ r | EvSeek _ r | EvClose _ r | EvListRepoPaths _ _ r => r
  end.

Definition is_Fetch (ev : event) : bool :=
  match ev with
  | EvFetch _ _ _ => true
  | _ => false
  end.

(** In the reading loops [io.EOF] from [Decode] ends the loop; it is not
    a failure. *)
Definition report_scan (ev : event) : option error :=
  match ev with
  | EvDecode (Some EOF) => None
  | _ => event_error ev
  end.

(** [openUnitFile] reports a unit file that does not exist as
    [errUnitNoInit]. *)
Definition report_openUnitFile (ev : event) : option error :=
  match ev with
  | EvOpen _ _ (Some ErrNotExist) => Some errUnitNoInit
  | _ => event_error ev
  end.

(** The first failure among events listed oldest first. *)
Definition first_reported (report : event -> option error)
    (evs : list event) : option error :=
  head (omap report evs).

Definition opened_handle (ev : event) : option nat :=
  match ev with
  | EvCreate _ h None | EvOpen _ h None => Some h
  | _ => None
  end.

(** Every handle obtained by an event is released by a later one. *)
Fixpoint closes_opened (evs : list event) : Prop :=
  match evs with
  | [] => True
  | ev :: rest =>
      match opened_handle ev with
      | Some h => exists r, EvClose h r ∈ rest
      | None => True
      end /\ closes_opened rest
  end.

(** A store operation is file-safe when, from any world: every handle it
    obtains it also releases, no handle is open on return that was not
    open before, and the error it returns is the first failure among its
    own calls, so that a later failure (of [Close] in particular) never
    replaces an earlier one and is returned when it is the only one. *)
Definition file_safe {A} (report : event -> option error)
    (op : world -> (A * option error) * world) : Prop :=
  forall w, exists evs,
    trace (op w).2 = rev evs ++ trace w /\
    closes_opened evs /\
    (forall h, h ∈ open_handles (op w).2 -> h ∈ open_handles w) /\
    (op w).1.2 = first_reported report evs.

(** The part of an operation that runs between obtaining the file and
    the deferred [Close]: it obtains no handle and its error is the first
    failure among its calls. *)
Definition body_safe {R} (report : event -> option error)
    (err_of : R -> option error) (run : world -> R * world) (w : world)
  : Prop :=
  exists evs,
    trace (run w).2 = rev evs ++ trace w /\
    Forall (λ ev, opened_handle ev = None) evs /\
    open_handles (run w).2 = open_handles w /\
    err_of (run w).1 = first_reported report evs.

Definition sum_error {A} (r : A + error) : option error :=
  match r with
  | inl _ => None
  | inr e => Some e
  end.

(** *** Vocabulary for the def-query tree *)

(** A tree is well numbered when the [Number] of every node is the number
    of words below it. *)
#[warnings="-register-all"]
Inductive well_numbered : MinTreeNode -> Prop :=
| well_numbered_Node f es :
    Forall (λ e, well_numbered e.2) es ->
    well_numbered (Node f (sum_weights es) es).

(** The number of final nodes of a tree, whatever its numbering. *)
Fixpoint count_final (n : MinTreeNode) : Z :=
  match n with
  | Node f _ es =>
      b2z f +
      (fix go (es : list (rune * MinTreeNode)) : Z :=
         match es with
         | [] => 0
         | (_, child) :: rest => count_final child + go rest
         end) es
  end.

(** The elements of [l] from position [a] up to position [b]. *)
Definition seg {A} (a b : nat) (l : list A) : list A :=
  take (b - a) (drop a l).


(** The loop body of [getByQuery] when the unit number is in range. *)
Definition getByQuery_put (Units : list ID2) (uofMap : gmap ID2 byteOffsets)
    (uofs : unitOffsets) : gmap ID2 byteOffsets :=
  match Units !! Z.to_nat (uo_Unit uofs) with
  | None => uofMap
  | Some u =>
      <[u := default [] (uofMap !! u) ++ deltaDecode (uo_byteOffsets uofs)]>
        uofMap
  end.

(** Every posting of [m] names a unit number below [n]. *)
Definition postings_in_range (n : nat) (m : gmap (list rune) (list unitOffsets))
  : Prop :=
  forall term ps, m !! term = Some ps ->
    Forall (λ p, 0 <= uo_Unit p < Z.of_nat n) ps.

(* ===================================================================== *)
(** ** A reference codec and a reference sort

    The store works with any codec and any sort that honour their
    contracts.  For running the store on concrete data this module gives
    one codec (records as self-delimiting byte strings) and one sort
    (merge sort). *)

Module RefCodec.

Record Ser (A : Type) : Type := mkSer {
  put : A -> list byte;
  get : list byte -> option (A * list byte)
}.
Arguments mkSer {A} put get.
Arguments put {A} s a.
Arguments get {A} s bs.

Fixpoint put_nat (n : nat) : list byte :=
  match n with
  | O => [x00]
  | S n' => x01 :: put_nat n'
  end.

Fixpoint get_nat (bs : list byte) : option (nat * list byte) :=
  match bs with
  | [] => None
  | b :: bs' =>
      if Byte.eqb b x00 then Some (O, bs')
      else if Byte.eqb b x01 then
        match get_nat bs' with
        | Some (n, r) => Some (S n, r)
        | None => None
        end
      else None
  end.

Definition ser_nat : Ser nat := mkSer put_nat get_nat.

Definition ser_bool : Ser bool :=
  mkSer (λ b : bool, [if b then x01 else x00])
        (λ bs, match bs with
               | [] => None
               | b :: r =>
                   if Byte.eqb b x00 then Some (false, r)
                   else if Byte.eqb b x01 then Some (true, r) else None
               end).

Fixpoint put_string (s : string) : list byte :=
  match s with
  | EmptyString => [x00]
  | String c s' => x01 :: byte_of_ascii c :: put_string s'
  end.

Fixpoint get_string (bs : list byte) : option (string * list byte) :=
  match bs with
  | [] => None
  | b :: bs' =>
      if Byte.eqb b x00 then Some (EmptyString, bs')
      else if Byte.eqb b x01 then
        match bs' with
        | [] => None
        | c :: bs'' =>
            match get_string bs'' with
            | Some (s, r) => Some (String (ascii_of_byte c) s, r)
            | None => None
            end
        end
      else None
  end.

Definition ser_string : Ser string := mkSer put_string get_string.

Definition ser_pair {A B} (sa : Ser A) (sb : Ser B) : Ser (A * B) :=
  mkSer (λ p, put sa p.1 ++ put sb p.2)
        (λ bs, match get sa bs with
               | Some (a, r) =>
                   match get sb r with
                   | Some (b, r') => Some ((a, b), r')
                   | None => None
                   end
               | None => None
               end).

Definition ser_iso {A B} (f : B -> A) (g : A -> B) (sa : Ser A) : Ser B :=
  mkSer (λ b, put sa (f b))
        (λ bs, match get sa bs with
               | Some (a, r) => Some (g a, r)
               | None => None
               end).

Definition ser_Z : Ser Z :=
  ser_iso (λ z, (z <? 0, Z.abs_nat z))
          (λ p : bool * nat, if p.1 then - Z.of_nat p.2 else Z.of_nat p.2)
          (ser_pair ser_bool ser_nat).

Definition ser_Def : Ser graph_Def :=
  ser_iso
    (λ d, (Def_Repo d, (Def_CommitID d, (Def_UnitType d, (Def_Unit d,
          (Def_Path d, (Def_Name d, (Def_Kind d, (Def_File d,
          (Def_DefStart d, (Def_DefEnd d,
          (Def_Exported d, Def_Local d))))))))))))
    (λ '(a, (b, (c, (d, (e, (f, (g, (h, (i, (j, (k, l))))))))))),
       mkDef a b c d e f g h i j k l)
    (ser_pair ser_string (ser_pair ser_string (ser_pair ser_string
    (ser_pair ser_string (ser_pair ser_string (ser_pair ser_string
    (ser_pair ser_string (ser_pair ser_string (ser_pair ser_Z
    (ser_pair ser_Z (ser_pair ser_bool ser_bool))))))))))).

Definition ser_Ref : Ser graph_Ref :=
  ser_iso
    (λ r, (Ref_DefRepo r, (Ref_DefUnitType r, (Ref_DefUnit r,
          (Ref_DefPath r, (Ref_Repo r, (Ref_CommitID r, (Ref_UnitType r,
          (Ref_Unit r, (Ref_File r, (Ref_Start r, (Ref_End r,
          Ref_Def r))))))))))))
    (λ '(a, (b, (c, (d, (e, (f, (g, (h, (i, (j, (k, l))))))))))),
       mkRef a b c d e f g h i j k l)
    (ser_pair ser_string (ser_pair ser_string (ser_pair ser_string
    (ser_pair ser_string (ser_pair ser_string (ser_pair ser_string
    (ser_pair ser_string (ser_pair ser_string (ser_pair ser_string
    (ser_pair ser_Z (ser_pair ser_Z ser_bool))))))))))).

Definition ser_SourceUnit : Ser SourceUnit :=
  ser_iso
    (λ u, (SourceUnit_Type u, (SourceUnit_Name u, SourceUnit_Info u)))
    (λ '(a, (b, c)), mkSourceUnit a b c)
    (ser_pair ser_string (ser_pair ser_string ser_string)).

Definition encode_with {A} (s : Ser A) (v : A) : list byte := put s v.

Definition decode_with {A} (s : Ser A) (bs : list byte) : decoded A :=
  match bs with
  | [] => DecEOF
  | _ :: _ =>
      match get s bs with
      | Some (v, rest) => DecOk v (length bs - length rest)
      | None => DecErr ErrCorrupt
      end
  end.

(** The laws a serializer has to satisfy to give a codec. *)
Definition ser_ok {A} (s : Ser A) : Prop :=
  (forall a rest, get s (put s a ++ rest) = Some (a, rest)) /\
  (forall bs a rest, get s bs = Some (a, rest) ->
                     (length rest < length bs)%nat).

End RefCodec.

Definition refsByFileStartEnd_le (a b : graph_Ref) : Prop :=
  refsByFileStartEnd_Less b a = false.

Global Instance refsByFileStartEnd_le_dec a b :
  Decision (refsByFileStartEnd_le a b).
Proof. unfold refsByFileStartEnd_le. apply _. Defined.

(* ===================================================================== *)
(** ** Sample data *)

(** A store with no file, no open handle and a VFS that never fails. *)
Definition world0 : world := World ∅ [] 0 [] [].

Definition def_p1 : graph_Def :=
  mkDef "" "" "" "" "p1" "n1" "" "" 0 0 false false.
Definition def_p2 : graph_Def :=
  mkDef "" "" "" "" "p2" "n2" "" "" 0 0 false false.

Definition ref_at (file : string) (start end_ : Z) : graph_Ref :=
  mkRef "" "" "" "p" "" "" "" "" file start end_ false.

(** Modelled from the spec: [cleanForImport], defined outside the files at
    hand.  For each def, Repo, CommitID, UnitType and Unit are cleared; for
    each ref, Repo and CommitID are cleared, DefRepo, DefUnitType and
    DefUnit are cleared when they equal the enclosing repo or unit, and
    UnitType and Unit are set to empty; records whose key field (the Path
    of a def, the File of a ref) is empty are dropped. *)
Definition cleanForImport_spec (data : graph_Output)
    (repo unitType unit : string) : graph_Output :=
  let cleanDef d :=
    mkDef "" "" "" "" (Def_Path d) (Def_Name d) (Def_Kind d) (Def_File d)
          (Def_DefStart d) (Def_DefEnd d) (Def_Exported d) (Def_Local d) in
  let cleanRef r :=
    mkRef (if decide (Ref_DefRepo r = repo) then "" else Ref_DefRepo r)
          (if decide (Ref_DefUnitType r = unitType) then ""
           else Ref_DefUnitType r)
          (if decide (Ref_DefUnit r = unit) then "" else Ref_DefUnit r)
          (Ref_DefPath r) "" "" "" ""
          (Ref_File r) (Ref_Start r) (Ref_End r) (Ref_Def r) in
  mkOutput
    (cleanDef <$> filter (λ d, Def_Path d ≠ "") (Output_Defs data))
    (cleanRef <$> filter (λ r, Ref_File r ≠ "") (Output_Refs data)).

Definition sample_output : graph_Output :=
  mkOutput
    [mkDef "r" "c" "t" "u" "p1" "n1" "" "f1" 0 3 true false; def_p2]
    [ref_at "f2" 2 3; ref_at "f1" 5 6; ref_at "f1" 1 2].

Definition sample_refs : list graph_Ref :=
  [ref_at "f1" 1 2; ref_at "f1" 5 6; ref_at "f1" 7 9;
   ref_at "f2" 2 3; ref_at "f2" 4 5].

(** The orders that [sort.Sort(unitID2s(units))] and [sort.Strings(terms)]
    establish. *)
Definition unitID2s_le (a b : ID2) : Prop := unitID2s_Less b a = false.
Definition term_le (a b : list rune) : Prop := lex_ltb b a = false.

Global Instance unitID2s_le_dec a b : Decision (unitID2s_le a b).
Proof. unfold unitID2s_le. apply _. Defined.
Global Instance term_le_dec a b : Decision (term_le a b).
Proof. unfold term_le. apply _. Defined.

(** [unicode.ToLower] on the ASCII letters. *)
Definition ascii_ToLower (r : rune) : rune :=
  if ((65 <=? r) && (r <=? 90))%N then (r + 32)%N else r.

(** The per-unit index of a unit whose defs have the given lowercased
    names, each with the offsets of its defs in the unit's def.dat. *)
Definition unit_index (entries : list (string * byteOffsets))
  : defQueryIndex :=
  mkDefQueryIndex
    (Some (mkMafsaTable (Some (mafsa_tree (string_bytes <$> entries.*1)))
                        (entries.*2))).

Definition digit (d : nat) : string :=
  String (ascii_of_nat (48 + d)) EmptyString.

(** Units "u000", "u001", ... of type "t"; unit [k] has one def, named
    "x", at offset [10 * k + 1] of its def.dat. *)
Definition sample_unit (k : nat) : ID2 :=
  mkID2 "t" ("u" +:+ digit (k / 100) +:+ digit (k / 10 mod 10)
                 +:+ digit (k mod 10)).

Definition sample_units (n : nat) : list (ID2 * defQueryIndex) :=
  (λ k, (sample_unit k, unit_index [("x", [10 * Z.of_nat k + 1])]))
    <$> seq 0 n.

Definition mafsa_ok : mafsa_env := mkMafsaEnv ([x01], None) None.

Definition defQueryTreeIndex_zero : defQueryTreeIndex :=
  mkDefQueryTreeIndex None false.

(** Two units for the prefix queries: the first with defs named Foo,
    FooBar and Quux, the second with a def named Foo. *)
Definition sample_tree_units : list (ID2 * defQueryIndex) :=
  [(sample_unit 0, unit_index [("foo", [0]); ("foobar", [10]); ("quux", [20])]);
   (sample_unit 1, unit_index [("foo", [5])])].

(* ===================================================================== *)
(** ** fsUnitStore: reading records at given offsets *)

Section fsUnitStore_at_offsets.
Context `{CodecDef : Codec graph_Def} `{CodecRef : Codec graph_Ref}.

(** The loop of [defsAtOffsets]: for each offset one positioned read
    ([byteEstimate] is 5000) and one [Decode], whose error, [io.EOF]
    included, ends the call. *)
Fixpoint defsAtOffsets_loop (fetcher : bool) (bs : list byte)
    (ofs : byteOffsets) (fs : list DefFilter) (defs : list graph_Def)
    (w : world) : (list graph_Def + error) * world :=
  match ofs with
  | [] => (inl defs, w)
  | o :: ofs' =>
      let '(r, w) := rangeReader fetcher bs o 5000 w in
      match r with
      | inr e => (inr e, w)
      | inl rest =>
          let '(r, w) := dec_Decode rest w in
          match r with
          | inr e => (inr e, w)
          | inl (def, _, _) =>
              defsAtOffsets_loop fetcher bs ofs' fs
                (if SelectDef fs def then defs ++ [def] else defs) w
          end
      end
  end.

(** [defsAtOffsets]; [fetcher] tells whether the VFS opens its files as
    [rwvfs.Fetcher]s ([openFetcherOrOpen]). *)
Definition defsAtOffsets (fetcher : bool) (ofs : byteOffsets)
    (fs : list DefFilter) (w : world)
  : (list graph_Def * option error) * world :=
  let '(r, w) := vfs_Open unitDefsFilename w in
  match r with
  | inr e => (([], Some e), w)
  | inl (f, bs) =>
      deferred_Close f (λ w,
        let '(r, w) := defsAtOffsets_loop fetcher bs ofs fs [] w in
        match r with
        | inr e => (([], Some e), w)
        | inl defs => ((defs, None), w)
        end) w
  end.

(** The loop of [refsAtOffsets] ([byteEstimate] is 500). *)
Fixpoint refsAtOffsets_loop (fetcher : bool) (bs : list byte)
    (ofs : byteOffsets) (fs : list RefFilter) (refs : list graph_Ref)
    (w : world) : (list graph_Ref + error) * world :=
  match ofs with
  | [] => (inl refs, w)
  | o :: ofs' =>
      let '(r, w) := rangeReader fetcher bs o 500 w in
      match r with
      | inr e => (inr e, w)
      | inl rest =>
          let '(r, w) := dec_Decode rest w in
          match r with
          | inr e => (inr e, w)
          | inl (ref, _, _) =>
              refsAtOffsets_loop fetcher bs ofs' fs
                (if SelectRef fs ref then refs ++ [ref] else refs) w
          end
      end
  end.

Definition refsAtOffsets (fetcher : bool) (ofs : byteOffsets)
    (fs : list RefFilter) (w : world)
  : (list graph_Ref * option error) * world :=
  let '(r, w) := vfs_Open unitRefsFilename w in
  match r with
  | inr e => (([], Some e), w)
  | inl (f, bs) =>
      deferred_Close f (λ w,
        let '(r, w) := refsAtOffsets_loop fetcher bs ofs fs [] w in
        match r with
        | inr e => (([], Some e), w)
        | inl refs => ((refs, None), w)
        end) w
  end.

End fsUnitStore_at_offsets.

(** *** Vocabulary for the byte ranges of ref.dat *)

(** The refs of file [F] and the refs of the files that sort before [F]. *)
Definition file_refs (F : string) (refs : list graph_Ref) : list graph_Ref :=
  filter (λ r, Ref_File r = F) refs.
Definition refs_before (F : string) (refs : list graph_Ref)
  : list graph_Ref :=
  filter (λ r, str_ltb (Ref_File r) F = true) refs.

(** The byte range of file [F] in a ref.dat that holds [refs]: the offset
    at which the first ref of [F] starts, then the encoded length of each
    of its refs. *)
Definition range_of `{Codec graph_Ref} (F : string) (refs : list graph_Ref)
  : byteRanges :=
  Z.of_nat (length (data_of (refs_before F refs)))
    :: (Z.of_nat <$> encoded_lengths (file_refs F refs)).

(** Refs are in file order when no ref is followed by a ref of a file that
    sorts before its own. *)
Definition file_le (a b : graph_Ref) : Prop :=
  str_ltb (Ref_File b) (Ref_File a) = false.

(** The file of the last ref, empty for no ref: [lastFile] in the loop of
    [writeRefs]. *)
Definition last_file (refs : list graph_Ref) : string :=
  default "" (Ref_File <$> list.last refs).

(** What the loop of [writeRefs] has computed once the refs [pre] are
    written: the position in the file, the byte range under construction
    for the file of the last ref, and the finished ranges of the files
    before it. *)
Record writeRefs_inv `{Codec graph_Ref} (pre : list graph_Ref)
    (s : writeRefs_state) : Prop := mkWriteRefsInv {
  wri_o : wr_o s = Z.of_nat (length (data_of pre));
  wri_lastFile : wr_lastFile s = last_file pre;
  wri_lfbr :
    wr_lastFile s ≠ "" ->
    wr_lastFileByteRanges s = range_of (wr_lastFile s) pre;
  wri_fbr : forall F,
    wr_fbr s !! F
    = if decide (F ≠ "" /\ F ≠ wr_lastFile s /\ F ∈ Ref_File <$> pre)
      then Some (range_of F pre) else None
}.

(** *** The words of a tree *)

(** The words a node stands for, in the order [OrderedEdges] walks them:
    the word that ends at the node itself, then the words below each edge,
    each with the character of the edge in front. *)
Fixpoint words (n : MinTreeNode) : list (list rune) :=
  match n with
  | Node f _ es =>
      (if f then [[]] else []) ++
      (fix go (es : list (rune * MinTreeNode)) : list (list rune) :=
         match es with
         | [] => []
         | (c, child) :: rest => ((c ::.) <$> words child) ++ go rest
         end) es
  end.

Definition edge_words (es : list (rune * MinTreeNode)) : list (list rune) :=
  concat ((λ e, (e.1 ::.) <$> words e.2) <$> es).

(** A tree as [Insert] builds it: below every node the edges are in
    strictly increasing order of their characters, and every edge leads to
    a node that holds at least one word. *)
#[warnings="-register-all"]
Inductive trie_ok : MinTreeNode -> Prop :=
| trie_ok_Node f k es :
    StronglySorted (λ a b : rune * MinTreeNode, (a.1 < b.1)%N) es ->
    Forall (λ e, words e.2 ≠ [] /\ trie_ok e.2) es ->
    trie_ok (Node f k es).

(* ===================================================================== *)
(** ** Paths of unit files

    [fsTreeStore] names the file of a unit with [path.Join] and reads the
    unit back from the name with [strings.TrimSuffix], [path.Base] and
    [path.Dir].  These are functions of the Go standard library; they are
    written out here as the library defines them, on the bytes of the
    string. *)

Definition chars (s : string) : list ascii := String.list_ascii_of_string s.
Definition str (l : list ascii) : string := String.string_of_list_ascii l.

Definition is_slash (c : ascii) : bool := Ascii.eqb c "/".
Definition is_dot (c : ascii) : bool := Ascii.eqb c ".".

(** [for ; r < n && path[r] != '/'; r++ { out.append(path[r]) }] *)
Fixpoint copy_element (rest out : list ascii) : list ascii * list ascii :=
  match rest with
  | [] => ([], out)
  | c :: rest' =>
      if is_slash c then (rest, out) else copy_element rest' (out ++ [c])
  end.

(** [out.w--; for out.w > dotdot && out.index(out.w) != '/' { out.w-- }]
    on the buffer written backwards: [c] is the byte last taken off. *)
Fixpoint backtrack (dotdot : nat) (rout : list ascii) (c : ascii)
  : list ascii :=
  match rout with
  | [] => []
  | c' :: rout' =>
      if decide (dotdot < length rout)%nat then
        if is_slash c then rout else backtrack dotdot rout' c'
      else rout
  end.

(** The loop of [path.Clean]: [rest] is what is left to read, [out] what
    is written, [dotdot] the index where [..] must stop.  Every turn reads
    at least one byte; the fuel is the number of bytes. *)
Fixpoint Clean_loop (fuel : nat) (rooted : bool) (rest out : list ascii)
    (dotdot : nat) : list ascii :=
  match fuel with
  | O => out
  | S fuel' =>
      match rest with
      | [] => out
      | c :: rest1 =>
          if is_slash c then Clean_loop fuel' rooted rest1 out dotdot
          else if is_dot c
                  && match rest1 with
                     | [] => true
                     | c1 :: _ => is_slash c1
                     end
          then Clean_loop fuel' rooted rest1 out dotdot
          else if is_dot c
                  && match rest1 with
                     | c1 :: rest2 =>
                         is_dot c1
                         && match rest2 with
                            | [] => true
                            | c2 :: _ => is_slash c2
                            end
                     | [] => false
                     end
          then
            let rest2 := drop 1 rest1 in
            if decide (dotdot < length out)%nat then
              match rev out with
              | [] => Clean_loop fuel' rooted rest2 out dotdot
              | c' :: rout =>
                  Clean_loop fuel' rooted rest2
                    (rev (backtrack dotdot rout c')) dotdot
              end
            else if rooted then Clean_loop fuel' rooted rest2 out dotdot
            else
              let out1 := if decide (0 < length out)%nat
                          then out ++ ["/"%char] else out in
              let out2 := out1 ++ ["."%char; "."%char] in
              Clean_loop fuel' rooted rest2 out2 (length out2)
          else
            let out1 :=
              if (rooted && negb (length out =? 1)%nat)
                 || (negb rooted && negb (length out =? 0)%nat)
              then out ++ ["/"%char] else out in
            let '(rest', out2) := copy_element rest out1 in
            Clean_loop fuel' rooted rest' out2 dotdot
      end
  end.

(** [path.Clean] *)
Definition path_Clean (path : list ascii) : list ascii :=
  match path with
  | [] => ["."%char]
  | c :: rest =>
      let out :=
        if is_slash c then Clean_loop (length path) true rest ["/"%char] 1
        else Clean_loop (length path) false path [] 0 in
      match out with
      | [] => ["."%char]
      | _ :: _ => out
      end
  end.

(** [strings.Join(elem, "/")] *)
Fixpoint join_slash (elem : list (list ascii)) : list ascii :=
  match elem with
  | [] => []
  | [e] => e
  | e :: elem' => e ++ "/"%char :: join_slash elem'
  end.

(** [path.Join]: the elements from the first non-empty one on, joined by
    slashes and cleaned; the empty string when all are empty. *)
Fixpoint path_Join (elem : list (list ascii)) : list ascii :=
  match elem with
  | [] => []
  | [] :: elem' => path_Join elem'
  | (_ :: _) :: _ => path_Clean (join_slash elem)
  end.

(** [strings.LastIndex(path, "/")]: what is before the last slash and
    what is after it; [None] without a slash. *)
Fixpoint split_last_slash (path : list ascii)
  : option (list ascii * list ascii) :=
  match path with
  | [] => None
  | c :: path' =>
      match split_last_slash path' with
      | Some (before, after) => Some (c :: before, after)
      | None => if is_slash c then Some ([], path') else None
      end
  end.

(** [path.Split] *)
Definition path_Split (path : list ascii) : list ascii * list ascii :=
  match split_last_slash path with
  | Some (before, after) => (before ++ ["/"%char], after)
  | None => ([], path)
  end.

(** [path.Dir] *)
Definition path_Dir (path : list ascii) : list ascii :=
  path_Clean (path_Split path).1.

(** Strip trailing slashes: [for len(path) > 0 && path[len(path)-1] == '/'
    { path = path[0 : len(path)-1] }], on the reversed string. *)
Fixpoint strip_slashes (rpath : list ascii) : list ascii :=
  match rpath with
  | [] => []
  | c :: rpath' => if is_slash c then strip_slashes rpath' else rpath
  end.

(** [path.Base] *)
Definition path_Base (path : list ascii) : list ascii :=
  match path with
  | [] => ["."%char]
  | _ :: _ =>
      let p := rev (strip_slashes (rev path)) in
      let p := match split_last_slash p with
               | Some (_, after) => after
               | None => p
               end in
      match p with
      | [] => ["/"%char]
      | _ :: _ => p
      end
  end.

(** [strings.HasSuffix] and [strings.TrimSuffix] *)
Definition strings_HasSuffix (s suffix : list ascii) : bool :=
  bool_decide (length suffix <= length s)%nat
  && bool_decide (drop (length s - length suffix) s = suffix).

Definition strings_TrimSuffix (s suffix : list ascii) : list ascii :=
  if strings_HasSuffix s suffix then take (length s - length suffix) s
  else s.

Definition unitFileSuffix : string := ".unit.json".

(** [fsTreeStore.unitFilename] *)
Definition unitFilename (unitType unit : string) : string :=
  str (path_Join [chars unit; chars unitType ++ chars unitFileSuffix]).

(** The directory of the unit store of a unit file, as [openUnitStore]
    and [openAllUnitStores] compute it. *)
Definition unitStoreDir (unitFile : string) : string :=
  str (strings_TrimSuffix (chars unitFile) (chars unitFileSuffix)).

(** The unit ID that [openAllUnitStores] reads from the name of a unit
    file. *)
Definition unitFile_ID2 (unitFile : string) : ID2 :=
  let dir := chars (unitStoreDir unitFile) in
  mkID2 (str (path_Base dir)) (str (path_Dir dir)).

(** A path element with no special meaning: not empty, without a slash,
    neither [.] nor [..]. *)
Definition plain_element (e : list ascii) : Prop :=
  e <> [] /\ Forall (λ c, is_slash c = false) e /\
  e <> ["."%char] /\ e <> ["."%char; "."%char].

(** What [Clean] writes for [s] after [out]. *)
Definition glue (out s : list ascii) : list ascii :=
  match out with
  | [] => s
  | _ :: _ => out ++ "/"%char :: s
  end.

(* ===================================================================== *)
(** ** fsTreeStore.unitFilenames and fsTreeStore.Units *)

(** One step of the walk over the tree: the error of the step
    ([w.Err()]), or the entry the walker is at, with [w.Stat()] (whether
    it is a regular file, and its name) and [w.Path()]. *)
Inductive walk_step : Type :=
| WalkErr (e : error)
| WalkEntry (regular : bool) (name path : string).

Fixpoint unitFilenames_loop (steps : list walk_step) (files : list string)
  : list string * option error :=
  match steps with
  | [] => (files, None)
  | WalkErr e :: _ => ([], Some e)
  | WalkEntry regular name path :: steps' =>
      unitFilenames_loop steps'
        (if regular && strings_HasSuffix (chars name) (chars unitFileSuffix)
         then files ++ [path] else files)
  end.

(** [unitFilenames], on the steps the walker takes. *)
Definition unitFilenames (steps : list walk_step)
  : list string * option error :=
  unitFilenames_loop steps [].

Definition UnitFilter : Type := SourceUnit -> bool.
Definition SelectUnit (fs : list UnitFilter) (u : SourceUnit) : bool :=
  forallb (λ f, f u) fs.

(** The loop of [Units] over the unit files.  [openUnitFile] returns a
    unit whenever it returns no error. *)
Fixpoint Units_loop `{Codec SourceUnit} (f : list UnitFilter)
    (filenames : list string) (units : list SourceUnit) (w : world)
  : (list SourceUnit * option error) * world :=
  match filenames with
  | [] => ((units, None), w)
  | filename :: filenames' =>
      let '((u, err), w) := openUnitFile filename w in
      match err with
      | Some e => (([], Some e), w)
      | None =>
          Units_loop f filenames'
            (match u with
             | Some u => if SelectUnit f u then units ++ [u] else units
             | None => units
             end) w
      end
  end.

(** [Units] *)
Definition Units `{Codec SourceUnit} (steps : list walk_step)
    (f : list UnitFilter) (w : world)
  : (list SourceUnit * option error) * world :=
  match unitFilenames steps with
  | (_, Some e) => (([], Some e), w)
  | (filenames, None) => Units_loop f filenames [] w
  end.

(** The error of a step of the walk, and the path of the unit file a
    step is at. *)
Definition walk_error (s : walk_step) : option error :=
  match s with
  | WalkErr e => Some e
  | WalkEntry _ _ _ => None
  end.

Definition unit_file_path (s : walk_step) : option string :=
  match s with
  | WalkEntry true name path =>
      if strings_HasSuffix (chars name) (chars unitFileSuffix)
      then Some path else None
  | _ => None
  end.

(* ===================================================================== *)
(** ** The runes of a Go string

    [getByQuery] takes its query as a Go string and converts it with
    [[]rune(strings.ToLower(q))].  The conversion reads the bytes of the
    string as UTF-8, as [utf8.DecodeRuneInString] does: a byte that does
    not begin a well-formed sequence is read, alone, as U+FFFD. *)











(* ===================================================================== *)
(** ** The postings [Build] collects, unit by unit *)

(** The postings of [m2] appended, term by term, to those of [m1]. *)
Definition append_postings (m1 m2 : gmap (list rune) (list unitOffsets))
  : gmap (list rune) (list unitOffsets) :=
  union_with (λ a b, Some (a ++ b)) m1 m2.

(** The result of a traversal that started with no posting, put behind
    the postings [m]. *)
Definition after_postings {I : Type}
    (m : gmap (list rune) (list unitOffsets))
    (r : outcome (I * gmap (list rune) (list unitOffsets)))
  : outcome (I * gmap (list rune) (list unitOffsets)) :=
  match r with
  | Panics msg => Panics msg
  | Returns st => Returns (st.1, append_postings m st.2)
  end.

(** What the loop of [Build] collects from one unit index alone. *)
Definition Build_unit_alone (unitNums : gmap ID2 Z)
    (uqx : ID2 * defQueryIndex)
  : outcome (gmap (list rune) (list unitOffsets)) :=
  Build_unit unitNums (Returns ∅) uqx.

(** The postings of one unit for a term; none when its traversal
    panics. *)
Definition unit_postings (unitNums : gmap ID2 Z) (w : list rune)
    (uqx : ID2 * defQueryIndex) : list unitOffsets :=
  match Build_unit_alone unitNums uqx with
  | Returns d => default [] (d !! w)
  | Panics _ => []
  end.

(** The postings of a list that [getByQuery] files under the unit [u]. *)
Definition postings_of (Units : list ID2) (u : ID2) (ps : list unitOffsets)
  : list unitOffsets :=
  filter (λ p, Units !! Z.to_nat (uo_Unit p) = Some u) ps.

(** Two lists of postings, with unit numbers within the table of units,
    that hold for every unit the same postings in the same order; the
    postings of different units may be interleaved differently. *)
Definition same_postings (Units : list ID2) (ps ps' : list unitOffsets)
  : Prop :=
  Forall (λ p, 0 <= uo_Unit p < Z.of_nat (length Units)) ps /\
  Forall (λ p, 0 <= uo_Unit p < Z.of_nat (length Units)) ps' /\
  forall u, postings_of Units u ps = postings_of Units u ps'.

(* ===================================================================== *)
(** * Properties *)

Lemma u64_small z : 0 <= z < 2 ^ 64 -> u64 z = z.
Proof. intros H. unfold u64. apply Z.mod_small. exact H. Qed.

Lemma int64_small z : - 2 ^ 63 <= z < 2 ^ 63 -> int64 z = z.
Proof. intros H. unfold int64. rewrite Z.mod_small; lia. Qed.

Lemma lex_ltb_irrefl a : lex_ltb a a = false.
Proof.
  induction a as [|x a IH]; simpl; [reflexivity|].
  rewrite N.ltb_irrefl, N.eqb_refl. exact IH.
Qed.

Lemma lex_ltb_trans a b c :
  lex_ltb a b = true -> lex_ltb b c = true -> lex_ltb a c = true.
Proof.
  revert b c. induction a as [|x a IH]; intros [|y b] [|z c]; simpl;
    try discriminate; try reflexivity.
  destruct (N.ltb_spec x y), (N.ltb_spec y z), (N.ltb_spec x z);
    try reflexivity; try lia;
    destruct (N.eqb_spec x y), (N.eqb_spec y z), (N.eqb_spec x z);
    try discriminate; try lia.
  apply IH.
Qed.

Lemma lex_ltb_total a b : lex_ltb a b = false -> lex_ltb b a = false -> a = b.
Proof.
  revert b. induction a as [|x a IH]; intros [|y b]; simpl;
    try discriminate; try reflexivity.
  destruct (N.ltb_spec x y), (N.ltb_spec y x); try discriminate; try lia.
  destruct (N.eqb_spec x y), (N.eqb_spec y x); try discriminate; try lia.
  intros H1 H2. subst y. f_equal. apply IH; assumption.
Qed.

Lemma lex_ltb_asym a b : lex_ltb a b = true -> lex_ltb b a = false.
Proof.
  intros H. destruct (lex_ltb b a) eqn:E; [|reflexivity].
  pose proof (lex_ltb_trans _ _ _ H E) as F.
  rewrite lex_ltb_irrefl in F. discriminate.
Qed.

Lemma lex_ltb_false_trans a b c :
  lex_ltb b a = false -> lex_ltb c b = false -> lex_ltb c a = false.
Proof.
  intros H1 H2. destruct (lex_ltb c a) eqn:E; [|reflexivity].
  destruct (lex_ltb a b) eqn:F.
  - rewrite (lex_ltb_trans _ _ _ E F) in H2. discriminate.
  - rewrite (lex_ltb_total _ _ F H1) in E. congruence.
Qed.

Lemma string_bytes_inj a b : string_bytes a = string_bytes b -> a = b.
Proof.
  unfold string_bytes. revert b.
  induction a as [|x a IH]; intros [|y b]; simpl; try discriminate;
    [reflexivity|].
  intros H. injection H as H1 H2.
  f_equal; [|apply IH; exact H2].
  rewrite <- (ascii_N_embedding x), <- (ascii_N_embedding y). congruence.
Qed.

Lemma str_ltb_irrefl a : str_ltb a a = false.
Proof. apply lex_ltb_irrefl. Qed.

Lemma str_ltb_total a b : str_ltb a b = false -> str_ltb b a = false -> a = b.
Proof.
  intros H1 H2. apply string_bytes_inj. apply lex_ltb_total; assumption.
Qed.

(* ===================================================================== *)
(** ** The file system primitives *)

Lemma next_fault_frame w flt w' :
  next_fault w = (flt, w') ->
  files w' = files w /\ open_handles w' = open_handles w /\
  next_handle w' = next_handle w /\ trace w' = trace w /\
  (faults w = [] -> flt = None /\ faults w' = []).
Proof.
  unfold next_fault. destruct (faults w) as [|x l] eqn:E; intros [= <- <-];
    simpl; repeat split; try assumption; try reflexivity; discriminate.
Qed.

Ltac fault_step H :=
  match type of H with
  | context [next_fault ?w] =>
      let flt := fresh "flt" in
      let w' := fresh "w" in
      let E := fresh "Eflt" in
      destruct (next_fault w) as [flt w'] eqn:E;
      let Hf := fresh "Hframe" in
      pose proof (next_fault_frame _ _ _ E) as Hf;
      destruct Hf as (? & ? & ? & ? & ?)
  end.

Lemma enc_Encode_ok {T} `{Codec T} (v : T) bw w n bw' w' :
  enc_Encode v bw w = (inl (n, bw'), w') ->
  n = Z.of_nat (length (encode v)) /\ bw' = bw ++ encode v /\
  files w' = files w /\ open_handles w' = open_handles w.
Proof.
  unfold enc_Encode. intros E. fault_step E.
  destruct flt; [discriminate|]. injection E as <- <- <-. simpl. auto.
Qed.

Lemma enc_Encode_nofault {T} `{Codec T} (v : T) bw w :
  faults w = [] ->
  exists w', enc_Encode v bw w =
               (inl (Z.of_nat (length (encode v)), bw ++ encode v), w') /\
             faults w' = [] /\ files w' = files w.
Proof.
  intros Hf. unfold enc_Encode.
  destruct (next_fault w) as [flt w1] eqn:E.
  destruct (next_fault_frame _ _ _ E) as (? & ? & ? & ? & Hn).
  destruct (Hn Hf) as [-> ?]. eexists. split; [reflexivity|]. simpl. auto.
Qed.

Lemma dec_Decode_ok {T} `{Codec T} rest w (v : T) n rest' w' :
  dec_Decode rest w = (inl (v, n, rest'), w') ->
  decode rest = DecOk v n /\ rest' = drop n rest.
Proof.
  unfold dec_Decode. intros E. fault_step E.
  destruct flt; [discriminate|].
  destruct (decode rest); try discriminate.
  injection E as <- <- <- <-. auto.
Qed.

Lemma dec_Decode_EOF {T} `{Codec T} rest w w' :
  @dec_Decode T _ rest w = (inr EOF, w') ->
  decode rest = DecEOF \/ decode rest = DecErr EOF.
Proof.
  unfold dec_Decode, next_fault.
  destruct (faults w) as [|[c|] l]; simpl; try discriminate;
    destruct (decode rest) as [|e|]; try discriminate; auto;
    intros [= -> _]; auto.
Qed.

(** One more unit of fuel than bytes left is always enough: the result of
    the reading loop does not depend on the fuel beyond that. *)
Lemma scan_fuel {T S} `{Codec T} (body : S -> T -> nat -> S) fuel1 fuel2 rest s w :
  (length rest < fuel1)%nat -> (length rest < fuel2)%nat ->
  scan fuel1 body rest s w = scan fuel2 body rest s w.
Proof.
  revert fuel2 rest s w.
  induction fuel1 as [|f1 IH]; intros [|f2] rest s w H1 H2; try lia.
  simpl. destruct (dec_Decode rest w) as [[[[v n] rest']|e] w1] eqn:E;
    [|reflexivity].
  apply dec_Decode_ok in E as [E ->].
  apply decode_consumes in E.
  apply IH; rewrite length_drop; lia.
Qed.

Lemma dec_Decode_cases {T} `{Codec T} rest w r w' :
  @dec_Decode T _ rest w = (r, w') ->
  ((exists c, r = inr (ErrIO c)) \/ r = decode_result rest) /\
  files w' = files w /\ open_handles w' = open_handles w /\
  (faults w = [] -> r = decode_result rest /\ faults w' = []).
Proof.
  unfold dec_Decode, next_fault, decode_result.
  destruct (faults w) as [|[c|] l] eqn:F; simpl;
    destruct (decode rest) as [|e|v n]; intros [= <- <-]; simpl;
    repeat split; eauto; try discriminate.
Qed.

Lemma decode_result_encoded {T} `{Codec T} (v : T) rest :
  decode_result (encode v ++ rest) = inl (v, length (encode v), rest).
Proof.
  unfold decode_result. rewrite decode_encode.
  rewrite drop_app_length. reflexivity.
Qed.

Lemma decode_result_nil {T} `{Codec T} : @decode_result T _ [] = inr EOF.
Proof. unfold decode_result. rewrite decode_nil. reflexivity. Qed.

Lemma encode_nonempty {T} `{Codec T} (v : T) : (0 < length (encode v))%nat.
Proof.
  pose proof (decode_encode v []) as E.
  apply decode_consumes in E. lia.
Qed.

(** Reading back a file that holds the encodings of [vs], one after the
    other: when the loop ends without error its body has run on exactly
    [vs], in order, each time with the encoded length of the record. *)
Lemma scan_encoded {T S} `{Codec T} (body : S -> T -> nat -> S) vs fuel s w r w' :
  (length (concat (encode <$> vs)) < fuel)%nat ->
  scan fuel body (concat (encode <$> vs)) s w = (inl r, w') ->
  r = fold_left (λ s v, body s v (length (encode v))) vs s.
Proof.
  revert fuel s w. induction vs as [|v vs IH]; intros [|fuel] s w Hlen; try lia.
  - cbn [fmap list_fmap concat scan].
    destruct (dec_Decode _ w) as [r0 w0] eqn:E.
    apply dec_Decode_cases in E as ([[c ->]| ->] & _); try discriminate.
    rewrite decode_result_nil. intros [= <- _]. reflexivity.
  - rewrite fmap_cons in *. cbn [concat scan] in *.
    destruct (dec_Decode _ w) as [r0 w0] eqn:E.
    apply dec_Decode_cases in E as ([[c ->]| ->] & _); try discriminate.
    rewrite decode_result_encoded. intros E. eapply IH; [|exact E].
    rewrite length_app in Hlen.
    pose proof (encode_nonempty v). lia.
Qed.

Lemma scan_encoded_nofault {T S} `{Codec T} (body : S -> T -> nat -> S) vs fuel s w :
  (length (concat (encode <$> vs)) < fuel)%nat ->
  faults w = [] ->
  exists w',
    scan fuel body (concat (encode <$> vs)) s w =
      (inl (fold_left (λ s v, body s v (length (encode v))) vs s), w') /\
    faults w' = [] /\ files w' = files w /\
    open_handles w' = open_handles w.
Proof.
  revert fuel s w. induction vs as [|v vs IH]; intros [|fuel] s w Hlen Hf;
    try lia.
  - cbn [fmap list_fmap concat scan].
    destruct (dec_Decode _ w) as [r0 w0] eqn:E.
    apply dec_Decode_cases in E as (_ & Hfiles & Hopen & Hn).
    destruct (Hn Hf) as [-> Hf0].
    rewrite decode_result_nil. eauto.
  - rewrite fmap_cons in *. cbn [concat scan] in *.
    destruct (dec_Decode _ w) as [r0 w0] eqn:E.
    apply dec_Decode_cases in E as (_ & Hfiles & Hopen & Hn).
    destruct (Hn Hf) as [-> Hf0].
    rewrite decode_result_encoded.
    destruct (IH fuel (body s v (length (encode v))) w0) as (w' & -> & ? & ? & ?);
      [|assumption|].
    + rewrite length_app in Hlen.
      pose proof (encode_nonempty v). lia.
    + exists w'. repeat split; congruence.
Qed.

(* ===================================================================== *)
(** ** Offsets *)

Lemma record_starts_length o lens : length (record_starts o lens) = length lens.
Proof.
  revert o. induction lens as [|n lens IH]; intros o; simpl; [reflexivity|].
  rewrite IH. reflexivity.
Qed.

Lemma record_starts_lookup o lens i :
  (i < length lens)%nat ->
  record_starts o lens !! i = Some (o + Z.of_nat (sum_list (take i lens))).
Proof.
  revert o i. induction lens as [|n lens IH]; intros o [|i] Hi; simpl in *;
    try lia.
  - f_equal. lia.
  - rewrite IH by lia. f_equal. lia.
Qed.

Lemma record_starts_app o l1 l2 :
  record_starts o (l1 ++ l2) =
  record_starts o l1 ++ record_starts (o + Z.of_nat (sum_list l1)) l2.
Proof.
  revert o. induction l1 as [|n l1 IH]; intros o; simpl.
  - f_equal. lia.
  - rewrite IH. do 3 f_equal. lia.
Qed.

Lemma data_of_length {T} `{Codec T} (vs : list T) :
  length (data_of vs) = sum_list (encoded_lengths vs).
Proof.
  unfold data_of, encoded_lengths.
  induction vs as [|v vs IH]; [reflexivity|].
  rewrite !fmap_cons. cbn [concat sum_list sum_list_with].
  rewrite length_app, IH. reflexivity.
Qed.

Lemma data_of_cons {T} `{Codec T} (v : T) vs :
  data_of (v :: vs) = encode v ++ data_of vs.
Proof. reflexivity. Qed.

Lemma encoded_lengths_take {T} `{Codec T} (vs : list T) i :
  take i (encoded_lengths vs) = encoded_lengths (take i vs).
Proof. unfold encoded_lengths. rewrite fmap_take. reflexivity. Qed.

(** Consecutive offsets differ by the encoded length of the record between
    them, and the [i]-th offset is the size of everything before it. *)
Lemma record_starts_diff {T} `{Codec T} (vs : list T) i d a b :
  vs !! i = Some d ->
  record_starts 0 (encoded_lengths vs) !! i = Some a ->
  record_starts 0 (encoded_lengths vs) !! S i = Some b ->
  b - a = Z.of_nat (length (encode d)).
Proof.
  intros Hd Ha Hb.
  assert (S i < length (encoded_lengths vs))%nat as Hi.
  { apply lookup_lt_Some in Hb. rewrite record_starts_length in Hb. exact Hb. }
  rewrite record_starts_lookup in Ha by lia.
  rewrite record_starts_lookup in Hb by lia.
  injection Ha as <-. injection Hb as <-.
  rewrite (take_S_r _ _ (length (encode d))).
  - rewrite sum_list_with_app. simpl. lia.
  - unfold encoded_lengths. rewrite list_lookup_fmap, Hd. reflexivity.
Qed.

Lemma vfs_Create_ok name w f w' :
  vfs_Create name w = (inl f, w') ->
  fname f = name /\ files w' = <[name := []]> (files w).
Proof.
  unfold vfs_Create. intros E. fault_step E.
  destruct flt; [discriminate|]. injection E as <- <-. simpl.
  split; [reflexivity|]. congruence.
Qed.

Lemma vfs_Open_ok name w f bs w' :
  vfs_Open name w = (inl (f, bs), w') ->
  files w !! name = Some bs /\ files w' = files w.
Proof.
  unfold vfs_Open. intros E. fault_step E.
  destruct flt; [discriminate|].
  destruct (files w0 !! name) as [bs'|] eqn:F; [|discriminate].
  injection E as <- <- <-. simpl. split; congruence.
Qed.

Lemma vfs_Open_nofault name w bs :
  faults w = [] -> files w !! name = Some bs ->
  exists f w', vfs_Open name w = (inl (f, bs), w') /\
               faults w' = [] /\ files w' = files w.
Proof.
  intros Hf Hb. unfold vfs_Open.
  destruct (next_fault w) as [flt w0] eqn:E.
  destruct (next_fault_frame _ _ _ E) as (Hfiles & _ & _ & _ & Hn).
  destruct (Hn Hf) as [-> Hf0]. rewrite Hfiles, Hb.
  eexists _, _. split; [reflexivity|]. simpl. auto.
Qed.

Lemma bufio_Flush_ok f bw w w' :
  bufio_Flush f bw w = (None, w') ->
  files w' = <[fname f := default [] (files w !! fname f) ++ bw]> (files w).
Proof.
  unfold bufio_Flush. intros E. fault_step E.
  destruct flt; [discriminate|]. injection E as <-. simpl. congruence.
Qed.

Lemma file_Close_frame f w err w' :
  file_Close f w = (err, w') ->
  files w' = files w /\ (faults w = [] -> err = None /\ faults w' = []).
Proof.
  unfold file_Close. intros E. fault_step E.
  injection E as <- <-. simpl. auto.
Qed.

Lemma deferred_Close_ok {A} f (body : world -> (A * option error) * world)
    w a w' :
  deferred_Close f body w = ((a, None), w') ->
  exists w1, body w = ((a, None), w1) /\ files w' = files w1.
Proof.
  unfold deferred_Close.
  destruct (body w) as [[a0 err] w1].
  destruct (file_Close f w1) as [err2 w2] eqn:E.
  apply file_Close_frame in E as [Hfiles _].
  destruct err; intros H; inversion H; subst; eauto.
Qed.

Lemma deferred_Close_nofault {A} f (body : world -> (A * option error) * world)
    w a w1 :
  body w = ((a, None), w1) -> faults w1 = [] ->
  exists w', deferred_Close f body w = ((a, None), w') /\
             faults w' = [] /\ files w' = files w1.
Proof.
  intros Hb Hf. unfold deferred_Close. rewrite Hb.
  destruct (file_Close f w1) as [err2 w2] eqn:E.
  apply file_Close_frame in E as [Hfiles Hn].
  destruct (Hn Hf) as [-> ?]. eauto.
Qed.

Section fsUnitStore_props.
Context `{CodecDef : Codec graph_Def} `{CodecRef : Codec graph_Ref}.
Context `{SortRefs : Sorter graph_Ref refsByFileStartEnd_Less}.

Lemma writeDefs_loop_ok defs : forall o bw w ofs bw' w',
  writeDefs_loop defs o bw w = (inl (ofs, bw'), w') ->
  0 <= o -> o + Z.of_nat (length (data_of defs)) < 2 ^ 63 ->
  ofs = record_starts o (encoded_lengths defs) /\
  bw' = bw ++ data_of defs /\ files w' = files w.
Proof.
  induction defs as [|def defs IH]; intros o bw w ofs bw' w'.
  - simpl. intros [= <- <- <-] _ _. rewrite app_nil_r. auto.
  - cbn [writeDefs_loop]. rewrite data_of_cons, length_app.
    destruct (enc_Encode def bw w) as [[[n bw1]|e] w1] eqn:E1;
      [|discriminate].
    destruct (writeDefs_loop defs (u64 (o + n)) bw1 w1)
      as [[[ofs1 bw2]|e] w2] eqn:E2; [|discriminate].
    intros [= <- <- <-] Ho Hb.
    apply enc_Encode_ok in E1 as (-> & -> & Hf1 & _).
    rewrite u64_small in E2 by lia.
    apply IH in E2 as (-> & -> & Hf2); [|lia|lia].
    rewrite int64_small by lia.
    unfold encoded_lengths. rewrite fmap_cons. cbn [record_starts].
    rewrite <- app_assoc. repeat split; congruence.
Qed.

Lemma writeDefs_ok defs w ofs w' :
  writeDefs defs w = ((ofs, None), w') ->
  Z.of_nat (length (data_of defs)) < 2 ^ 63 ->
  ofs = record_starts 0 (encoded_lengths defs) /\
  files w' !! unitDefsFilename = Some (data_of defs).
Proof.
  unfold writeDefs. intros E Hb.
  destruct (vfs_Create unitDefsFilename w) as [[f|e] w0] eqn:EC;
    [|discriminate].
  apply vfs_Create_ok in EC as [Hname Hfiles0].
  apply deferred_Close_ok in E as (w1 & E & Hfiles1).
  destruct (writeDefs_loop defs 0 [] w0) as [[[ofs1 bw]|e] w2] eqn:EL;
    [|discriminate].
  destruct (bufio_Flush f bw w2) as [[e|] w3] eqn:EF; [discriminate|].
  injection E as <- <-.
  apply writeDefs_loop_ok in EL as (-> & -> & Hfiles2); [|lia|lia].
  apply bufio_Flush_ok in EF.
  split; [reflexivity|].
  rewrite Hfiles1, EF, Hname, lookup_insert_eq, Hfiles2, Hfiles0.
  rewrite lookup_insert_eq. reflexivity.
Qed.

Lemma readDefs_fold defs : forall n ds os,
  0 <= n -> n + Z.of_nat (length (data_of defs)) < 2 ^ 63 ->
  fold_left (λ s v, readDefs_body s v (length (encode v))) defs (n, ds, os)
  = (n + Z.of_nat (length (data_of defs)), ds ++ defs,
     os ++ record_starts n (encoded_lengths defs)).
Proof.
  induction defs as [|def defs IH]; intros n ds os Hn Hb.
  - simpl. rewrite !app_nil_r. do 2 f_equal. lia.
  - rewrite data_of_cons, length_app in *. cbn [fold_left readDefs_body].
    rewrite u64_small by lia. rewrite int64_small by lia.
    rewrite IH by lia.
    unfold encoded_lengths. rewrite fmap_cons. cbn [record_starts].
    rewrite <- !app_assoc. do 2 f_equal. lia.
Qed.

Lemma readDefs_ok defs w defs_r ofs_r w' :
  files w !! unitDefsFilename = Some (data_of defs) ->
  Z.of_nat (length (data_of defs)) < 2 ^ 63 ->
  readDefs w = ((defs_r, ofs_r, None), w') ->
  defs_r = defs /\ ofs_r = record_starts 0 (encoded_lengths defs).
Proof.
  intros Hfile Hb. unfold readDefs.
  destruct (vfs_Open unitDefsFilename w) as [[[f bs]|e] w0] eqn:EO;
    [|discriminate].
  apply vfs_Open_ok in EO as [Hbs _]. rewrite Hfile in Hbs.
  injection Hbs as <-. intros E.
  apply deferred_Close_ok in E as (w1 & E & _).
  destruct (scan _ _ _ _ w0) as [[[[n ds] os]|e] w2] eqn:ES;
    [|discriminate].
  injection E as <- <- <-.
  apply scan_encoded in ES; [|unfold data_of; lia].
  rewrite readDefs_fold in ES by lia. injection ES as _ -> ->. auto.
Qed.

Lemma readDefs_nofault defs w :
  files w !! unitDefsFilename = Some (data_of defs) ->
  Z.of_nat (length (data_of defs)) < 2 ^ 63 ->
  faults w = [] ->
  exists w', readDefs w =
    ((defs, record_starts 0 (encoded_lengths defs), None), w').
Proof.
  intros Hfile Hb Hf. unfold readDefs.
  destruct (vfs_Open_nofault _ _ _ Hf Hfile) as (f & w0 & -> & Hf0 & _).
  destruct (scan_encoded_nofault readDefs_body defs
              (S (length (data_of defs))) (0, [], []) w0)
    as (w1 & ES & Hf1 & _); [unfold data_of; lia|assumption|].
  rewrite readDefs_fold in ES by lia.
  unfold deferred_Close. unfold data_of in *. rewrite ES.
  destruct (file_Close f w1) as [err2 w2] eqn:EC.
  apply file_Close_frame in EC as [_ Hn]. destruct (Hn Hf1) as [-> _].
  eauto.
Qed.

(** C4. For every def.dat produced by [writeDefs]: the file holds the
    defs in the caller-provided order and the returned [ofs[i]] is the
    byte offset at which the [i]-th record starts; [readDefs] on that
    file returns (when the VFS does not fail, it does return) the defs
    with [len(ofs) = len(defs)], [ofs[0] = 0] and [ofs[i+1] - ofs[i]]
    equal to the encoded length the codec reports for [defs[i]].  Offsets
    are [int64], so the file is taken to be shorter than 2^63 bytes. *)
Theorem readDefs_writeDefs_offsets defs w ofs_w w1 :
  writeDefs defs w = ((ofs_w, None), w1) ->
  Z.of_nat (length (data_of defs)) < 2 ^ 63 ->
  files w1 !! unitDefsFilename = Some (data_of defs) /\
  length ofs_w = length defs /\
  (forall i, (i < length defs)%nat ->
     ofs_w !! i = Some (Z.of_nat (length (data_of (take i defs))))) /\
  forall w2, files w2 !! unitDefsFilename = files w1 !! unitDefsFilename ->
    (faults w2 = [] -> exists r w3, readDefs w2 = ((r, None), w3)) /\
    forall defs_r ofs_r w3,
      readDefs w2 = ((defs_r, ofs_r, None), w3) ->
      defs_r = defs /\ length ofs_r = length defs_r /\
      (forall a, ofs_r !! 0%nat = Some a -> a = 0) /\
      (forall i d a b,
         defs_r !! i = Some d -> ofs_r !! i = Some a ->
         ofs_r !! S i = Some b ->
         b - a = Z.of_nat (length (encode d)) /\
         forall rest, decode (encode d ++ rest)
                      = DecOk d (Z.to_nat (b - a))).
Proof.
  intros EW Hb. apply writeDefs_ok in EW as [-> Hfile]; [|exact Hb].
  split; [exact Hfile|].
  split.
  { rewrite record_starts_length. unfold encoded_lengths.
    apply length_fmap. }
  split.
  { intros i Hi. rewrite record_starts_lookup.
    - rewrite encoded_lengths_take, <- data_of_length. reflexivity.
    - unfold encoded_lengths. rewrite length_fmap. exact Hi. }
  intros w2 Hsame. rewrite Hfile in Hsame. split.
  { intros Hf. destruct (readDefs_nofault defs w2 Hsame Hb Hf) as [w3 E].
    eauto. }
  intros defs_r ofs_r w3 ER.
  apply (readDefs_ok defs) in ER as [-> ->]; [|assumption|assumption].
  split; [reflexivity|]. split.
  { rewrite record_starts_length. unfold encoded_lengths.
    apply length_fmap. }
  split.
  { intros a Ha. destruct defs as [|d ds]; [discriminate|].
    simpl in Ha. congruence. }
  intros i d a b Hd Ha Hb'.
  pose proof (record_starts_diff defs i d a b Hd Ha Hb') as Hdiff.
  split; [exact Hdiff|].
  intros rest. rewrite Hdiff, Nat2Z.id. apply decode_encode.
Qed.

End fsUnitStore_props.

(* ===================================================================== *)
(** ** The reference codec and the reference sort honour their contracts *)

Module RefCodecFacts.
Import RefCodec.

Lemma ser_nat_ok : ser_ok ser_nat.
Proof.
  split.
  - intros a rest. induction a as [|a IH]; simpl; [reflexivity|].
    simpl in IH. rewrite IH. reflexivity.
  - intros bs. induction bs as [|b bs IH]; intros a rest; simpl;
      [discriminate|].
    destruct (Byte.eqb b x00); [intros [= <- <-]; lia|].
    destruct (Byte.eqb b x01); [|discriminate].
    destruct (get_nat bs) as [[n r]|] eqn:E; [|discriminate].
    intros [= <- <-]. specialize (IH _ _ E). lia.
Qed.

Lemma ser_bool_ok : ser_ok ser_bool.
Proof.
  split.
  - intros [] rest; reflexivity.
  - intros [|b bs] a rest; simpl; [discriminate|].
    destruct (Byte.eqb b x00); [intros [= <- <-]; lia|].
    destruct (Byte.eqb b x01); [intros [= <- <-]; lia|discriminate].
Qed.

Lemma ser_string_ok : ser_ok ser_string.
Proof.
  split.
  - intros a rest. induction a as [|c a IH]; simpl; [reflexivity|].
    simpl in IH. rewrite IH, ascii_of_byte_of_ascii. reflexivity.
  - assert (forall n bs, (length bs <= n)%nat -> forall a rest,
              get_string bs = Some (a, rest) ->
              (length rest < length bs)%nat) as Hall.
    { induction n as [|n IH]; intros [|b bs] Hle a rest;
        simpl in *; try discriminate; try lia.
      destruct (Byte.eqb b x00); [intros [= <- <-]; lia|].
      destruct (Byte.eqb b x01); [|discriminate].
      destruct bs as [|c bs]; [discriminate|].
      destruct (get_string bs) as [[s r]|] eqn:E; [|discriminate].
      intros [= <- <-].
      assert (length r < length bs)%nat as Hr.
      { apply (IH bs) with (a := s); [simpl in Hle; lia|exact E]. }
      simpl. lia. }
    intros bs. apply (Hall (length bs)). lia.
Qed.

Lemma ser_pair_ok {A B} (sa : Ser A) (sb : Ser B) :
  ser_ok sa -> ser_ok sb -> ser_ok (ser_pair sa sb).
Proof.
  intros [Ha1 Ha2] [Hb1 Hb2]. split.
  - intros [a b] rest. simpl. rewrite <- app_assoc, Ha1, Hb1. reflexivity.
  - intros bs [a b] rest. simpl.
    destruct (get sa bs) as [[a' r]|] eqn:Ea; [|discriminate].
    destruct (get sb r) as [[b' r']|] eqn:Eb; [|discriminate].
    intros [= <- <- <-]. apply Ha2 in Ea. apply Hb2 in Eb. lia.
Qed.

Lemma ser_iso_ok {A B} (f : B -> A) (g : A -> B) (sa : Ser A) :
  (forall b, g (f b) = b) -> ser_ok sa -> ser_ok (ser_iso f g sa).
Proof.
  intros Hgf [Ha1 Ha2]. split.
  - intros b rest. simpl. rewrite Ha1, Hgf. reflexivity.
  - intros bs b rest. simpl.
    destruct (get sa bs) as [[a r]|] eqn:Ea; [|discriminate].
    intros [= <- <-]. eapply Ha2. exact Ea.
Qed.

Lemma ser_Z_ok : ser_ok ser_Z.
Proof.
  apply ser_iso_ok.
  - intros z. simpl. destruct (Z.ltb_spec z 0); lia.
  - apply ser_pair_ok; [apply ser_bool_ok|apply ser_nat_ok].
Qed.

Ltac ser_fields :=
  repeat first [ apply ser_pair_ok | apply ser_string_ok
               | apply ser_Z_ok | apply ser_bool_ok ].

Lemma ser_Def_ok : ser_ok ser_Def.
Proof. apply ser_iso_ok; [intros []; reflexivity|ser_fields]. Qed.

Lemma ser_Ref_ok : ser_ok ser_Ref.
Proof. apply ser_iso_ok; [intros []; reflexivity|ser_fields]. Qed.

Lemma ser_SourceUnit_ok : ser_ok ser_SourceUnit.
Proof. apply ser_iso_ok; [intros []; reflexivity|ser_fields]. Qed.

Lemma put_nonempty {A} (s : Ser A) (v : A) :
  ser_ok s -> (0 < length (put s v))%nat.
Proof.
  intros [H1 H2]. specialize (H1 v []). apply H2 in H1.
  rewrite app_nil_r in H1. lia.
Qed.

Lemma decode_with_encode {A} (s : Ser A) (Hs : ser_ok s) v rest :
  decode_with s (encode_with s v ++ rest)
  = DecOk v (length (encode_with s v)).
Proof.
  unfold decode_with, encode_with.
  pose proof (put_nonempty s v Hs) as Hne.
  destruct (put s v ++ rest) as [|b bs] eqn:E.
  - apply (f_equal length) in E. rewrite length_app in E. simpl in E. lia.
  - rewrite <- E. destruct Hs as [H1 _]. rewrite H1.
    f_equal. rewrite length_app. lia.
Qed.

Lemma decode_with_consumes {A} (s : Ser A) (Hs : ser_ok s) bs v n :
  decode_with s bs = DecOk v n -> (0 < n <= length bs)%nat.
Proof.
  unfold decode_with. destruct bs as [|b bs]; [discriminate|].
  destruct (get s (b :: bs)) as [[v' rest]|] eqn:E; [|discriminate].
  intros [= <- <-]. destruct Hs as [_ H2]. apply H2 in E.
  simpl in *. lia.
Qed.

Definition codec_of {A} (s : Ser A) (Hs : ser_ok s) : Codec A :=
  {| encode := encode_with s;
     decode := decode_with s;
     decode_encode := decode_with_encode s Hs;
     decode_nil := eq_refl;
     decode_consumes := decode_with_consumes s Hs |}.

Definition codec_Def : Codec graph_Def := codec_of ser_Def ser_Def_ok.
Definition codec_Ref : Codec graph_Ref := codec_of ser_Ref ser_Ref_ok.
Definition codec_SourceUnit : Codec SourceUnit :=
  codec_of ser_SourceUnit ser_SourceUnit_ok.

End RefCodecFacts.

Lemma refsByFileStartEnd_Less_false a b :
  refsByFileStartEnd_Less b a = false <->
  str_ltb (Ref_File b) (Ref_File a) = false /\
  (Ref_File b = Ref_File a ->
   Ref_Start a < Ref_Start b \/
   (Ref_Start a = Ref_Start b /\ Ref_End a <= Ref_End b)).
Proof.
  unfold refsByFileStartEnd_Less.
  destruct (decide (Ref_File b = Ref_File a)) as [Hf|Hf].
  - rewrite Hf, str_ltb_irrefl.
    destruct (decide (Ref_Start b = Ref_Start a)) as [Hs|Hs].
    + rewrite Z.ltb_ge. intuition lia.
    + rewrite Z.ltb_ge. intuition lia.
  - tauto.
Qed.

Global Instance refsByFileStartEnd_le_total : Total refsByFileStartEnd_le.
Proof.
  intros a b. unfold refsByFileStartEnd_le.
  rewrite !refsByFileStartEnd_Less_false.
  destruct (str_ltb (Ref_File b) (Ref_File a)) eqn:E1.
  - right. split; [apply lex_ltb_asym; exact E1|].
    intros Hf. rewrite Hf, str_ltb_irrefl in E1. discriminate.
  - destruct (str_ltb (Ref_File a) (Ref_File b)) eqn:E2.
    + left. split; [reflexivity|].
      intros Hf. rewrite Hf, str_ltb_irrefl in E2. discriminate.
    + destruct (Z.lt_trichotomy (Ref_Start a) (Ref_Start b)) as [?|[?|?]],
        (Z.le_ge_cases (Ref_End a) (Ref_End b)); intuition lia.
Qed.

Global Instance refsByFileStartEnd_le_trans : Transitive refsByFileStartEnd_le.
Proof.
  intros a b c. unfold refsByFileStartEnd_le.
  rewrite !refsByFileStartEnd_Less_false.
  intros [H1 H1'] [H2 H2']. split.
  - unfold str_ltb in *. eapply lex_ltb_false_trans; eassumption.
  - intros Hf.
    assert (Ref_File b = Ref_File a) as Hba.
    { apply str_ltb_total; [exact H1|]. rewrite <- Hf. exact H2. }
    specialize (H1' Hba). specialize (H2' (eq_trans Hf (eq_sym Hba))). lia.
Qed.

(** Merge sort as [sort.Sort] for refs. *)
Definition merge_Sorter : Sorter refsByFileStartEnd_Less :=
  {| sort_Sort := merge_sort refsByFileStartEnd_le;
     sort_Sort_perm := merge_sort_Permutation refsByFileStartEnd_le;
     sort_Sort_sorted := StronglySorted_merge_sort refsByFileStartEnd_le |}.

Lemma readDefs_writeDefs_offsets_witness :
  let r := @writeDefs RefCodecFacts.codec_Def [def_p1; def_p2] world0 in
  r.1.2 = None /\
  files r.2 !! unitDefsFilename
    = Some (@data_of _ RefCodecFacts.codec_Def [def_p1; def_p2]) /\
  r.1.1 = [0; 22].
Proof.
  pose proof (@readDefs_writeDefs_offsets RefCodecFacts.codec_Def
                [def_p1; def_p2] world0
                (@writeDefs RefCodecFacts.codec_Def [def_p1; def_p2] world0).1.1
                (@writeDefs RefCodecFacts.codec_Def [def_p1; def_p2] world0).2
                eq_refl eq_refl) as (Hfile & _ & _ & _).
  split; [reflexivity|]. split; [exact Hfile|]. reflexivity.
Defined.

(* ===================================================================== *)
(** ** Import, then read back *)

Section Import_props.
Context `{CodecDef : Codec graph_Def} `{CodecRef : Codec graph_Ref}.
Context `{SortRefs : Sorter graph_Ref refsByFileStartEnd_Less}.
Variable cleanForImport :
  graph_Output -> string -> string -> string -> graph_Output.

Lemma writeDefs_loop_bw defs : forall o bw w ofs bw' w',
  writeDefs_loop defs o bw w = (inl (ofs, bw'), w') ->
  bw' = bw ++ data_of defs /\ files w' = files w.
Proof.
  induction defs as [|def defs IH]; intros o bw w ofs bw' w'.
  - simpl. intros [= <- <- <-]. rewrite app_nil_r. auto.
  - cbn [writeDefs_loop]. rewrite data_of_cons.
    destruct (enc_Encode def bw w) as [[[n bw1]|e] w1] eqn:E1;
      [|discriminate].
    destruct (writeDefs_loop defs (u64 (o + n)) bw1 w1)
      as [[[ofs1 bw2]|e] w2] eqn:E2; [|discriminate].
    intros [= <- <- <-].
    apply enc_Encode_ok in E1 as (-> & -> & Hf1 & _).
    apply IH in E2 as (-> & Hf2).
    rewrite <- app_assoc. split; congruence.
Qed.

Lemma writeDefs_files defs w ofs w' :
  writeDefs defs w = ((ofs, None), w') ->
  files w' = <[unitDefsFilename := data_of defs]> (files w).
Proof.
  unfold writeDefs. intros E.
  destruct (vfs_Create unitDefsFilename w) as [[f|e] w0] eqn:EC;
    [|discriminate].
  apply vfs_Create_ok in EC as [Hname Hfiles0].
  apply deferred_Close_ok in E as (w1 & E & Hfiles1).
  destruct (writeDefs_loop defs 0 [] w0) as [[[ofs1 bw]|e] w2] eqn:EL;
    [|discriminate].
  destruct (bufio_Flush f bw w2) as [[e|] w3] eqn:EF; [discriminate|].
  injection E as <- <-.
  apply writeDefs_loop_bw in EL as (-> & Hfiles2).
  apply bufio_Flush_ok in EF.
  rewrite Hfiles1, EF, Hname, Hfiles2, Hfiles0, lookup_insert_eq.
  simpl. apply insert_insert_eq.
Qed.

Lemma writeRefs_loop_bw refs : forall i s w s' w',
  writeRefs_loop i refs s w = ((s', None), w') ->
  wr_bw s' = wr_bw s ++ data_of refs /\ files w' = files w.
Proof.
  induction refs as [|ref refs IH]; intros i s w s' w'.
  - simpl. intros [= <- <-]. rewrite app_nil_r. auto.
  - cbn [writeRefs_loop]. rewrite data_of_cons.
    destruct (decide (wr_lastFile s ≠ Ref_File ref)) as [Hne|Heq];
      (destruct (enc_Encode ref (wr_bw s) w) as [[[n bw1]|e] w1] eqn:E1;
         [|discriminate]);
      intros E2; apply IH in E2 as [-> Hf2]; simpl;
      apply enc_Encode_ok in E1 as (_ & -> & Hf1 & _);
      rewrite <- app_assoc; split; congruence.
Qed.

Lemma writeRefs_files refs w fbr ofs w' :
  writeRefs refs w = ((fbr, ofs, None), w') ->
  files w' = <[unitRefsFilename := data_of (sort_Sort refs)]> (files w).
Proof.
  unfold writeRefs. intros E.
  destruct (vfs_Create unitRefsFilename w) as [[f|e] w0] eqn:EC;
    [|discriminate].
  apply vfs_Create_ok in EC as [Hname Hfiles0].
  apply deferred_Close_ok in E as (w1 & E & Hfiles1).
  destruct (writeRefs_loop 0 (sort_Sort refs) _ w0) as [[s [e|]] w2] eqn:EL;
    [discriminate|].
  destruct (bufio_Flush f (wr_bw s) w2) as [[e|] w3] eqn:EF; [discriminate|].
  injection E as <- <- <-.
  apply writeRefs_loop_bw in EL as (Hbw & Hfiles2). simpl in Hbw.
  apply bufio_Flush_ok in EF.
  rewrite Hfiles1, EF, Hname, Hfiles2, Hfiles0, lookup_insert_eq, Hbw.
  simpl. apply insert_insert_eq.
Qed.

Lemma Defs_fold fs defs : forall ds,
  fold_left (λ s v, Defs_body fs s v (length (encode v))) defs ds
  = ds ++ filter (λ d, SelectDef fs d = true) defs.
Proof.
  induction defs as [|def defs IH]; intros ds; simpl.
  - rewrite app_nil_r. reflexivity.
  - rewrite IH. unfold Defs_body. rewrite filter_cons.
    destruct (decide (SelectDef fs def = true)) as [E|E].
    + rewrite E. rewrite <- app_assoc. reflexivity.
    + apply not_true_is_false in E. rewrite E. reflexivity.
Qed.

Lemma Refs_fold fs refs : forall rs,
  fold_left (λ s v, Refs_body fs s v (length (encode v))) refs rs
  = rs ++ filter (λ r, SelectRef fs r = true) refs.
Proof.
  induction refs as [|ref refs IH]; intros rs; simpl.
  - rewrite app_nil_r. reflexivity.
  - rewrite IH. unfold Refs_body. rewrite filter_cons.
    destruct (decide (SelectRef fs ref = true)) as [E|E].
    + rewrite E. rewrite <- app_assoc. reflexivity.
    + apply not_true_is_false in E. rewrite E. reflexivity.
Qed.

Lemma Defs_ok fs defs w r w' :
  files w !! unitDefsFilename = Some (data_of defs) ->
  Defs fs w = ((r, None), w') ->
  r = filter (λ d, SelectDef fs d = true) defs.
Proof.
  intros Hfile. unfold Defs.
  destruct (vfs_Open unitDefsFilename w) as [[[f bs]|e] w0] eqn:EO;
    [|discriminate].
  apply vfs_Open_ok in EO as [Hbs _]. rewrite Hfile in Hbs.
  injection Hbs as <-. intros E.
  apply deferred_Close_ok in E as (w1 & E & _).
  destruct (scan _ _ _ _ w0) as [[ds|e] w2] eqn:ES; [|discriminate].
  injection E as <- <-.
  apply scan_encoded in ES; [|unfold data_of; lia].
  rewrite Defs_fold in ES. exact ES.
Qed.

Lemma Refs_ok fs refs w r w' :
  files w !! unitRefsFilename = Some (data_of refs) ->
  Refs fs w = ((r, None), w') ->
  r = filter (λ d, SelectRef fs d = true) refs.
Proof.
  intros Hfile. unfold Refs.
  destruct (vfs_Open unitRefsFilename w) as [[[f bs]|e] w0] eqn:EO;
    [|discriminate].
  apply vfs_Open_ok in EO as [Hbs _]. rewrite Hfile in Hbs.
  injection Hbs as <-. intros E.
  apply deferred_Close_ok in E as (w1 & E & _).
  destruct (scan _ _ _ _ w0) as [[ds|e] w2] eqn:ES; [|discriminate].
  injection E as <- <-.
  apply scan_encoded in ES; [|unfold data_of; lia].
  rewrite Refs_fold in ES. exact ES.
Qed.

Lemma Defs_nofault fs defs w :
  files w !! unitDefsFilename = Some (data_of defs) ->
  faults w = [] ->
  exists w', Defs fs w =
    ((filter (λ d, SelectDef fs d = true) defs, None), w').
Proof.
  intros Hfile Hf. unfold Defs.
  destruct (vfs_Open_nofault _ _ _ Hf Hfile) as (f & w0 & -> & Hf0 & _).
  destruct (scan_encoded_nofault (Defs_body fs) defs
              (S (length (data_of defs))) [] w0)
    as (w1 & ES & Hf1 & _); [unfold data_of; lia|assumption|].
  rewrite Defs_fold in ES.
  unfold deferred_Close. unfold data_of in *. rewrite ES.
  destruct (file_Close f w1) as [err2 w2] eqn:EC.
  apply file_Close_frame in EC as [_ Hn]. destruct (Hn Hf1) as [-> _].
  eauto.
Qed.

Lemma Refs_nofault fs refs w :
  files w !! unitRefsFilename = Some (data_of refs) ->
  faults w = [] ->
  exists w', Refs fs w =
    ((filter (λ d, SelectRef fs d = true) refs, None), w').
Proof.
  intros Hfile Hf. unfold Refs.
  destruct (vfs_Open_nofault _ _ _ Hf Hfile) as (f & w0 & -> & Hf0 & _).
  destruct (scan_encoded_nofault (Refs_body fs) refs
              (S (length (data_of refs))) [] w0)
    as (w1 & ES & Hf1 & _); [unfold data_of; lia|assumption|].
  rewrite Refs_fold in ES.
  unfold deferred_Close. unfold data_of in *. rewrite ES.
  destruct (file_Close f w1) as [err2 w2] eqn:EC.
  apply file_Close_frame in EC as [_ Hn]. destruct (Hn Hf1) as [-> _].
  eauto.
Qed.

Lemma filter_nil_filters_Def (defs : list graph_Def) :
  filter (λ d, SelectDef [] d = true) defs = defs.
Proof.
  induction defs as [|d defs IH]; [reflexivity|].
  rewrite filter_cons_True by reflexivity. rewrite IH. reflexivity.
Qed.

Lemma filter_nil_filters_Ref (refs : list graph_Ref) :
  filter (λ d, SelectRef [] d = true) refs = refs.
Proof.
  induction refs as [|d refs IH]; [reflexivity|].
  rewrite filter_cons_True by reflexivity. rewrite IH. reflexivity.
Qed.

Lemma Import_files G w w1 :
  Import cleanForImport G w = (None, w1) ->
  files w1 !! unitDefsFilename
    = Some (data_of (Output_Defs (cleanForImport G "" "" ""))) /\
  files w1 !! unitRefsFilename
    = Some (data_of (sort_Sort (Output_Refs (cleanForImport G "" "" "")))).
Proof.
  unfold Import.
  destruct (writeDefs _ w) as [[ofs [e|]] w0] eqn:ED; [discriminate|].
  destruct (writeRefs _ w0) as [[[fbr ofs'] [e|]] w2] eqn:ER;
    [discriminate|].
  intros [= <-].
  apply writeDefs_files in ED. apply writeRefs_files in ER.
  rewrite ER, ED. split.
  - rewrite lookup_insert_ne by discriminate. apply lookup_insert_eq.
  - apply lookup_insert_eq.
Qed.

(** C1. After [Import(G)] has completed successfully, [Defs] with no
    filter returns the cleaned defs of [G] in the order the caller gave
    them, and [Refs] with no filter returns the cleaned refs of [G]
    rearranged so that they are sorted by (File asc, Start asc, End
    asc); with a VFS that does not fail both calls do return. *)
Theorem Import_roundtrip G w w1 :
  Import cleanForImport G w = (None, w1) ->
  forall w2, files w2 = files w1 ->
    (forall defs w3, Defs [] w2 = ((defs, None), w3) ->
       defs = Output_Defs (cleanForImport G "" "" "")) /\
    (forall refs w3, Refs [] w2 = ((refs, None), w3) ->
       refs ≡ₚ Output_Refs (cleanForImport G "" "" "") /\
       StronglySorted (λ a b, refsByFileStartEnd_Less b a = false) refs) /\
    (faults w2 = [] ->
       (exists defs w3, Defs [] w2 = ((defs, None), w3)) /\
       (exists refs w3, Refs [] w2 = ((refs, None), w3))).
Proof.
  intros EI w2 Hsame. apply Import_files in EI as [HD HR].
  rewrite <- Hsame in HD, HR. split; [|split].
  - intros defs w3 E. apply (Defs_ok _ _ _ _ _ HD) in E.
    rewrite filter_nil_filters_Def in E. exact E.
  - intros refs w3 E. apply (Refs_ok _ _ _ _ _ HR) in E.
    rewrite filter_nil_filters_Ref in E. subst refs.
    split; [apply sort_Sort_perm|apply sort_Sort_sorted].
  - intros Hf. split.
    + destruct (Defs_nofault [] _ _ HD Hf) as [w3 E]. eauto.
    + destruct (Refs_nofault [] _ _ HR Hf) as [w3 E]. eauto.
Qed.

End Import_props.

Lemma Import_roundtrip_witness :
  let w1 :=
    (@Import RefCodecFacts.codec_Def RefCodecFacts.codec_Ref merge_Sorter
       cleanForImport_spec sample_output world0).2 in
  (@Defs RefCodecFacts.codec_Def [] w1).1
    = ([mkDef "" "" "" "" "p1" "n1" "" "f1" 0 3 true false; def_p2], None) /\
  (@Refs RefCodecFacts.codec_Ref [] w1).1
    = ([ref_at "f1" 1 2; ref_at "f1" 5 6; ref_at "f2" 2 3], None).
Proof.
  intros w1.
  destruct (@Import_roundtrip RefCodecFacts.codec_Def RefCodecFacts.codec_Ref
              merge_Sorter cleanForImport_spec sample_output world0 w1
              eq_refl w1 eq_refl) as (HD & HR & Hret).
  destruct (Hret eq_refl) as [(defs & w3 & ED) (refs & w4 & ER)].
  rewrite ED, ER. simpl.
  rewrite (HD _ _ ED). split; [reflexivity|].
  vm_compute in ER. injection ER as <- _. reflexivity.
Defined.

(* ===================================================================== *)
(** ** Handles are released and the first error wins *)

Lemma first_reported_cons report ev evs :
  first_reported report (ev :: evs)
  = match report ev with
    | Some e => Some e
    | None => first_reported report evs
    end.
Proof. unfold first_reported. simpl. destruct (report ev); reflexivity. Qed.

Lemma first_reported_app report evs1 evs2 :
  first_reported report (evs1 ++ evs2)
  = match first_reported report evs1 with
    | Some e => Some e
    | None => first_reported report evs2
    end.
Proof.
  induction evs1 as [|ev evs1 IH]; [reflexivity|].
  rewrite <- app_comm_cons, !first_reported_cons, IH.
  destruct (report ev); reflexivity.
Qed.

Lemma closes_opened_quiet evs :
  Forall (λ ev, opened_handle ev = None) evs -> closes_opened evs.
Proof.
  induction 1 as [|ev evs Hev _ IH]; simpl; [exact I|].
  rewrite Hev. auto.
Qed.

Lemma dec_Decode_trace {T} `{Codec T} rest w :
  trace (@dec_Decode T _ rest w).2
    = EvDecode (sum_error (dec_Decode rest w).1) :: trace w /\
  open_handles (@dec_Decode T _ rest w).2 = open_handles w.
Proof.
  unfold dec_Decode, next_fault.
  destruct (faults w) as [|[c|] l]; simpl;
    destruct (decode rest) as [|e|v n]; simpl; auto.
Qed.

Lemma enc_Encode_trace {T} `{Codec T} (v : T) bw w :
  trace (enc_Encode v bw w).2
    = EvEncode (sum_error (enc_Encode v bw w).1) :: trace w /\
  open_handles (enc_Encode v bw w).2 = open_handles w.
Proof.
  unfold enc_Encode, next_fault.
  destruct (faults w) as [|[c|] l]; simpl; auto.
Qed.

Lemma bufio_Flush_trace f bw w :
  trace (bufio_Flush f bw w).2 = EvFlush (bufio_Flush f bw w).1 :: trace w /\
  open_handles (bufio_Flush f bw w).2 = open_handles w.
Proof.
  unfold bufio_Flush, next_fault.
  destruct (faults w) as [|[c|] l]; simpl; auto.
Qed.

Lemma file_Close_trace f w :
  trace (file_Close f w).2 = EvClose (fd f) (file_Close f w).1 :: trace w /\
  open_handles (file_Close f w).2
    = filter (λ h, h ≠ fd f) (open_handles w).
Proof.
  unfold file_Close, next_fault.
  destruct (faults w) as [|[c|] l]; simpl; auto.
Qed.

Lemma scan_safe {T S} `{Codec T} (body : S -> T -> nat -> S) fuel :
  forall rest s w, (length rest < fuel)%nat ->
  body_safe report_scan sum_error (scan fuel body rest s) w.
Proof.
  induction fuel as [|fuel IH]; intros rest s w Hlen; [lia|].
  unfold body_safe. cbn [scan].
  destruct (dec_Decode_trace rest w) as [Htr Hop].
  destruct (dec_Decode rest w) as [[[[v n] rest']|e] w0] eqn:E;
    simpl in Htr, Hop.
  - apply dec_Decode_ok in E as [E ->]. apply decode_consumes in E.
    destruct (IH (drop n rest) (body s v n) w0) as (evs & H1 & H2 & H3 & H4).
    { rewrite length_drop. lia. }
    exists (EvDecode None :: evs). split; [|split; [|split]].
    + rewrite H1. simpl. rewrite <- app_assoc, Htr. reflexivity.
    + constructor; [reflexivity|exact H2].
    + congruence.
    + rewrite H4. reflexivity.
  - exists [EvDecode (Some e)].
    destruct e; simpl; rewrite Htr; repeat split; auto.
Qed.

Lemma deferred_Close_safe {A} report f
    (body : world -> (A * option error) * world) w :
  (forall flt, report (EvClose (fd f) flt) = flt) ->
  body_safe report snd body w ->
  exists evs,
    trace (deferred_Close f body w).2 = rev evs ++ trace w /\
    (exists r, EvClose (fd f) r ∈ evs) /\
    Forall (λ ev, opened_handle ev = None) evs /\
    open_handles (deferred_Close f body w).2
      = filter (λ h, h ≠ fd f) (open_handles w) /\
    (deferred_Close f body w).1.2 = first_reported report evs.
Proof.
  intros Hrep (evs & H1 & H2 & H3 & H4). unfold deferred_Close.
  destruct (body w) as [[a err] w1]. simpl in *.
  destruct (file_Close_trace f w1) as [Htr Hop].
  destruct (file_Close f w1) as [err2 w2]. simpl in *.
  exists (evs ++ [EvClose (fd f) err2]). repeat split.
  - rewrite Htr, H1, rev_app_distr. reflexivity.
  - exists err2. apply elem_of_app. right. apply list_elem_of_singleton.
    reflexivity.
  - apply Forall_app. split; [exact H2|]. repeat constructor.
  - rewrite Hop, H3. reflexivity.
  - rewrite first_reported_app, <- H4.
    destruct err; [reflexivity|].
    rewrite first_reported_cons, Hrep. destruct err2; reflexivity.
Qed.

Lemma vfs_Open_trace name w :
  match (vfs_Open name w).1 with
  | inr e =>
      trace (vfs_Open name w).2
        = EvOpen name (next_handle w) (Some e) :: trace w /\
      open_handles (vfs_Open name w).2 = open_handles w
  | inl (f, _) =>
      trace (vfs_Open name w).2 = EvOpen name (fd f) None :: trace w /\
      open_handles (vfs_Open name w).2 = fd f :: open_handles w
  end.
Proof.
  unfold vfs_Open, next_fault.
  destruct (faults w) as [|[c|] l]; simpl; auto;
    destruct (files w !! name); simpl; auto.
Qed.

Lemma vfs_Create_trace name w :
  match (vfs_Create name w).1 with
  | inr e =>
      trace (vfs_Create name w).2
        = EvCreate name (next_handle w) (Some e) :: trace w /\
      open_handles (vfs_Create name w).2 = open_handles w
  | inl f =>
      trace (vfs_Create name w).2 = EvCreate name (fd f) None :: trace w /\
      open_handles (vfs_Create name w).2 = fd f :: open_handles w
  end.
Proof.
  unfold vfs_Create, next_fault.
  destruct (faults w) as [|[c|] l]; simpl; auto.
Qed.

Lemma released_after_close (h h0 : nat) (l : list nat) :
  h ∈ filter (λ x, x ≠ h0) (h0 :: l) -> h ∈ l.
Proof.
  rewrite list_elem_of_filter. intros [Hne Hin].
  apply elem_of_cons in Hin as [->|Hin]; [contradiction|exact Hin].
Qed.

Lemma with_Open_safe {A} report name (onerr : error -> A * option error)
    (body : file -> list byte -> world -> (A * option error) * world) :
  (forall h e, report (EvOpen name h (Some e)) = (onerr e).2) ->
  (forall h, report (EvOpen name h None) = None) ->
  (forall h flt, report (EvClose h flt) = flt) ->
  (forall f bs w, body_safe report snd (body f bs) w) ->
  file_safe report
    (λ w, let '(r, w) := vfs_Open name w in
          match r with
          | inr e => (onerr e, w)
          | inl (f, bs) => deferred_Close f (body f bs) w
          end).
Proof.
  intros Herr Hok Hclose Hbody w.
  pose proof (vfs_Open_trace name w) as Ho.
  destruct (vfs_Open name w) as [[[f bs]|e] w0]; simpl in Ho;
    destruct Ho as [Htr Hop].
  - destruct (deferred_Close_safe report f (body f bs) w0 (Hclose (fd f))
                (Hbody f bs w0)) as (evs & H1 & H2 & H3 & H4 & H5).
    exists (EvOpen name (fd f) None :: evs). split; [|split; [|split]].
    + rewrite H1. simpl. rewrite <- app_assoc, Htr. reflexivity.
    + simpl. split; [exact H2|apply closes_opened_quiet; exact H3].
    + intros h. rewrite H4, Hop. apply released_after_close.
    + rewrite H5, first_reported_cons, Hok. reflexivity.
  - exists [EvOpen name (next_handle w) (Some e)]. simpl.
    split; [|split; [|split]]; auto.
    + rewrite Hop. auto.
    + rewrite first_reported_cons, Herr. destruct (onerr e).2; reflexivity.
Qed.

Lemma with_Create_safe {A} report name (onerr : error -> A * option error)
    (body : file -> world -> (A * option error) * world) :
  (forall h e, report (EvCreate name h (Some e)) = (onerr e).2) ->
  (forall h, report (EvCreate name h None) = None) ->
  (forall h flt, report (EvClose h flt) = flt) ->
  (forall f w, body_safe report snd (body f) w) ->
  file_safe report
    (λ w, let '(r, w) := vfs_Create name w in
          match r with
          | inr e => (onerr e, w)
          | inl f => deferred_Close f (body f) w
          end).
Proof.
  intros Herr Hok Hclose Hbody w.
  pose proof (vfs_Create_trace name w) as Ho.
  destruct (vfs_Create name w) as [[f|e] w0]; simpl in Ho;
    destruct Ho as [Htr Hop].
  - destruct (deferred_Close_safe report f (body f) w0 (Hclose (fd f))
                (Hbody f w0)) as (evs & H1 & H2 & H3 & H4 & H5).
    exists (EvCreate name (fd f) None :: evs). split; [|split; [|split]].
    + rewrite H1. simpl. rewrite <- app_assoc, Htr. reflexivity.
    + simpl. split; [exact H2|apply closes_opened_quiet; exact H3].
    + intros h. rewrite H4, Hop. apply released_after_close.
    + rewrite H5, first_reported_cons, Hok. reflexivity.
  - exists [EvCreate name (next_handle w) (Some e)]. simpl.
    split; [|split; [|split]]; auto.
    + rewrite Hop. auto.
    + rewrite first_reported_cons, Herr. destruct (onerr e).2; reflexivity.
Qed.

(** The body of a reading loop followed by the packing of its results. *)
Lemma scan_body_safe {T S A} `{Codec T} (body : S -> T -> nat -> S)
    (bs : list byte) (s : S) (onerr : A) (pack : S -> A) w :
  body_safe report_scan snd
    (λ w, let '(r, w) := scan (Datatypes.S (length bs)) body bs s w in
          match r with
          | inr e => ((onerr, Some e), w)
          | inl s' => ((pack s', None), w)
          end) w.
Proof.
  destruct (scan_safe body (Datatypes.S (length bs)) bs s w)
    as (evs & H1 & H2 & H3 & H4); [lia|].
  unfold body_safe. cbv beta. exists evs. destruct (scan _ body bs s w) as [[s'|e] w1]; simpl in *; auto.
Qed.

Section file_safety.
Context `{CodecDef : Codec graph_Def} `{CodecRef : Codec graph_Ref}.
Context `{CodecUnit : Codec SourceUnit}.
Context `{SortRefs : Sorter graph_Ref refsByFileStartEnd_Less}.

Lemma writeDefs_loop_safe defs : forall o bw w,
  body_safe event_error sum_error (writeDefs_loop defs o bw) w.
Proof.
  induction defs as [|def defs IH]; intros o bw w.
  - exists []. simpl. auto.
  - unfold body_safe. cbn [writeDefs_loop].
    destruct (enc_Encode_trace def bw w) as [Htr Hop].
    destruct (enc_Encode def bw w) as [[[n bw1]|e] w0]; simpl in Htr, Hop.
    + destruct (IH (u64 (o + n)) bw1 w0) as (evs & H1 & H2 & H3 & H4).
      destruct (writeDefs_loop defs (u64 (o + n)) bw1 w0)
        as [[[ofs bw2]|e] w1]; simpl in *;
        exists (EvEncode None :: evs); (split; [|split; [|split]]);
        try (simpl; rewrite H1, <- app_assoc, Htr; reflexivity);
        try (constructor; [reflexivity|exact H2]);
        try congruence;
        rewrite first_reported_cons; exact H4.
    + exists [EvEncode (Some e)]. simpl. rewrite Htr. auto.
Qed.

Lemma writeRefs_loop_safe refs : forall i s w,
  body_safe event_error snd (writeRefs_loop i refs s) w.
Proof.
  induction refs as [|ref refs IH]; intros i s w.
  - exists []. simpl. auto.
  - unfold body_safe. cbn [writeRefs_loop].
    destruct (enc_Encode_trace ref (wr_bw s) w) as [Htr Hop].
    destruct (decide (wr_lastFile s ≠ Ref_File ref)) as [Hne|Heq];
      (destruct (enc_Encode ref (wr_bw s) w) as [[[n bw1]|e] w0];
       simpl in Htr, Hop;
       [ match goal with
         | |- context [writeRefs_loop ?i' refs ?s' w0] =>
             destruct (IH i' s' w0) as (evs & H1 & H2 & H3 & H4);
             exists (EvEncode None :: evs); (split; [|split; [|split]]);
             [ rewrite H1; simpl; rewrite <- app_assoc, Htr; reflexivity
             | constructor; [reflexivity|exact H2]
             | congruence
             | rewrite first_reported_cons; exact H4 ]
         end
       | exists [EvEncode (Some e)]; simpl; rewrite Htr; auto ]).
Qed.

Lemma writeDefs_safe defs : file_safe event_error (writeDefs defs).
Proof.
  apply (with_Create_safe event_error unitDefsFilename
           (λ e, ([], Some e))
           (λ f w,
              let '(r, w) := writeDefs_loop defs 0 [] w in
              match r with
              | inr e => (([], Some e), w)
              | inl (ofs, bw) =>
                  let '(err, w) := bufio_Flush f bw w in
                  match err with
                  | Some e => (([], Some e), w)
                  | None => ((ofs, None), w)
                  end
              end)); try reflexivity.
  intros f w. unfold body_safe. cbv beta.
  destruct (writeDefs_loop_safe defs 0 [] w) as (evs & H1 & H2 & H3 & H4).
  destruct (writeDefs_loop defs 0 [] w) as [[[ofs bw]|e] w0]; simpl in *.
  - destruct (bufio_Flush_trace f bw w0) as [Htr Hop].
    destruct (bufio_Flush f bw w0) as [err w1]; simpl in *.
    exists (evs ++ [EvFlush err]). split; [|split; [|split]].
    + destruct err; simpl; rewrite Htr, H1, rev_app_distr; reflexivity.
    + apply Forall_app. split; [exact H2|].
      destruct err; repeat constructor.
    + destruct err; simpl; congruence.
    + rewrite first_reported_app, <- H4, first_reported_cons.
      destruct err; reflexivity.
  - exists evs. auto.
Qed.

Lemma writeRefs_safe refs : file_safe event_error (writeRefs refs).
Proof.
  apply (with_Create_safe event_error unitRefsFilename
           (λ e, (∅, [], Some e))
           (λ f w,
              let refs := sort_Sort refs in
              let '((s, err), w) :=
                writeRefs_loop 0 refs
                  (mkWriteRefs 0 ∅ (replicate (length refs) 0) "" [] []) w in
              match err with
              | Some e => ((∅, wr_ofs s, Some e), w)
              | None =>
                  let fbr :=
                    if decide (wr_lastFile s ≠ "") then
                      <[wr_lastFile s := wr_lastFileByteRanges s]> (wr_fbr s)
                    else wr_fbr s in
                  let '(err, w) := bufio_Flush f (wr_bw s) w in
                  match err with
                  | Some e => ((∅, wr_ofs s, Some e), w)
                  | None => ((fbr, wr_ofs s, None), w)
                  end
              end)); try reflexivity.
  intros f w. unfold body_safe. cbv beta zeta.
  destruct (writeRefs_loop_safe (sort_Sort refs) 0
              (mkWriteRefs 0 ∅ (replicate (length (sort_Sort refs)) 0)
                 "" [] []) w) as (evs & H1 & H2 & H3 & H4).
  destruct (writeRefs_loop 0 (sort_Sort refs) _ w) as [[s [e|]] w0];
    simpl in *.
  - exists evs. auto.
  - destruct (bufio_Flush_trace f (wr_bw s) w0) as [Htr Hop].
    destruct (bufio_Flush f (wr_bw s) w0) as [err w1]; simpl in *.
    exists (evs ++ [EvFlush err]). split; [|split; [|split]].
    + destruct err; simpl; rewrite Htr, H1, rev_app_distr; reflexivity.
    + apply Forall_app. split; [exact H2|].
      destruct err; repeat constructor.
    + destruct err; simpl; congruence.
    + rewrite first_reported_app, <- H4, first_reported_cons.
      destruct err; reflexivity.
Qed.

Lemma report_scan_Open name h e :
  report_scan (EvOpen name h (Some e)) = Some e.
Proof. reflexivity. Qed.

Lemma Defs_safe fs : file_safe report_scan (Defs fs).
Proof.
  apply (with_Open_safe report_scan unitDefsFilename
           (λ e, ([], Some e))
           (λ f bs w,
              let '(r, w) := scan (S (length bs)) (Defs_body fs) bs [] w in
              match r with
              | inr e => (([], Some e), w)
              | inl defs => ((defs, None), w)
              end)); try reflexivity.
  intros f bs w.
  apply (scan_body_safe (Defs_body fs) bs [] [] (λ defs, defs)).
Qed.

Lemma Refs_safe fs : file_safe report_scan (Refs fs).
Proof.
  apply (with_Open_safe report_scan unitRefsFilename
           (λ e, ([], Some e))
           (λ f bs w,
              let '(r, w) := scan (S (length bs)) (Refs_body fs) bs [] w in
              match r with
              | inr e => (([], Some e), w)
              | inl refs => ((refs, None), w)
              end)); try reflexivity.
  intros f bs w.
  apply (scan_body_safe (Refs_body fs) bs [] [] (λ refs, refs)).
Qed.

Lemma readDefs_safe : file_safe report_scan readDefs.
Proof.
  apply (with_Open_safe report_scan unitDefsFilename
           (λ e, ([], [], Some e))
           (λ f bs w,
              let '(r, w) :=
                scan (S (length bs)) readDefs_body bs (0, [], []) w in
              match r with
              | inr e => (([], [], Some e), w)
              | inl (_, defs, ofs) => ((defs, ofs, None), w)
              end)); try reflexivity.
  intros f bs w. unfold body_safe. cbv beta.
  destruct (scan_safe readDefs_body (S (length bs)) bs (0, [], []) w)
    as (evs & H1 & H2 & H3 & H4); [lia|].
  exists evs.
  destruct (scan _ readDefs_body bs _ w) as [[[[n ds] os]|e] w1];
    simpl in *; auto.
Qed.

Lemma readRefs_safe : file_safe report_scan readRefs.
Proof.
  apply (with_Open_safe report_scan unitRefsFilename
           (λ e, ([], ∅, [], Some e))
           (λ f bs w,
              let '(r, w) :=
                scan (S (length bs)) readRefs_body bs
                     (mkReadRefs 0 ∅ "" [] []) w in
              match r with
              | inr e => (([], ∅, [], Some e), w)
              | inl s => ((rr_refs s, readRefs_finish s, rr_ofs s, None), w)
              end)); try reflexivity.
  intros f bs w.
  apply (scan_body_safe readRefs_body bs (mkReadRefs 0 ∅ "" [] [])
           ([], ∅, []) (λ s, (rr_refs s, readRefs_finish s, rr_ofs s))).
Qed.

Lemma openUnitFile_safe filename :
  file_safe report_openUnitFile (openUnitFile filename).
Proof.
  apply (with_Open_safe report_openUnitFile filename
           (λ e, (None,
                  Some (if decide (e = ErrNotExist) then errUnitNoInit
                        else e)))
           (λ f bs w,
              let '(r, w) := dec_Decode bs w in
              match r with
              | inr e => ((Some SourceUnit_zero, Some e), w)
              | inl (u, _, _) => ((Some u, None), w)
              end)); try reflexivity.
  - intros h e. destruct e; reflexivity.
  - intros f bs w. unfold body_safe. cbv beta.
    destruct (dec_Decode_trace bs w) as [Htr Hop].
    exists [EvDecode (sum_error (dec_Decode bs w).1)].
    destruct (dec_Decode bs w) as [[[[u n] rest]|e] w0]; simpl in *;
      repeat split; auto.
Qed.

(** C8. [writeDefs], [writeRefs], [Defs], [Refs], [readDefs],
    [readRefs] and [openUnitFile] are file-safe: on every exit path,
    whatever call fails, the handle that was opened is closed and no
    handle is left open; the error returned is the first failure of the
    call, so the error of [Close] is returned exactly when nothing
    failed before it and never replaces an earlier encode or decode
    error.  ([io.EOF] ends the reading loops without being an error;
    [openUnitFile] reports a missing file as [errUnitNoInit].) *)
Theorem handles_closed_first_error_kept :
  (forall defs, file_safe event_error (writeDefs defs)) /\
  (forall refs, file_safe event_error (writeRefs refs)) /\
  (forall fs, file_safe report_scan (Defs fs)) /\
  (forall fs, file_safe report_scan (Refs fs)) /\
  file_safe report_scan readDefs /\
  file_safe report_scan readRefs /\
  (forall filename, file_safe report_openUnitFile (openUnitFile filename)).
Proof.
  repeat split.
  - apply writeDefs_safe.
  - apply writeRefs_safe.
  - apply Defs_safe.
  - apply Refs_safe.
  - apply readDefs_safe.
  - apply readRefs_safe.
  - apply openUnitFile_safe.
Qed.

End file_safety.

(* ===================================================================== *)
(** ** The file byte ranges rebuilt by [readRefs] *)

(** C2 (the code departs from the claim).  Five refs, three in file "f1"
    and two in "f2", of encoded lengths 23, 31, 36, 25 and 29, are written
    by [writeRefs] and read back by [readRefs].  [writeRefs] returns, for
    each file, the start offset followed by the encoded lengths.
    [readRefs] returns the right start offsets and the right number of
    values, but its last value for "f1" is the offset 90 at which the next
    file starts instead of the length 36, and its last value for "f2" is
    119 instead of 29: the value it subtracts is the previous entry of the
    sequence, not the offset at which the previous ref starts. *)
Theorem readRefs_fileByteRanges_differ :
  let wr := @writeRefs RefCodecFacts.codec_Ref merge_Sorter
              sample_refs world0 in
  let rd := @readRefs RefCodecFacts.codec_Ref wr.2 in
  wr.1.2 = None /\ rd.1.2 = None /\
  rd.1.1.1.1 = sample_refs /\
  @encoded_lengths _ RefCodecFacts.codec_Ref sample_refs
    = [23; 31; 36; 25; 29]%nat /\
  wr.1.1.1 !! "f1" = Some [0; 23; 31; 36] /\
  wr.1.1.1 !! "f2" = Some [90; 25; 29] /\
  rd.1.1.1.2 !! "f1" = Some [0; 23; 31; 90] /\
  rd.1.1.1.2 !! "f2" = Some [90; 25; 119].
Proof. vm_compute. repeat split; reflexivity. Qed.

(** With the byte ranges rebuilt by [readRefs], [refsAtByteRanges] still
    decodes the refs of the file (the start and the number of values are
    right), but the range it asks a fetching VFS for is computed from the
    wrong lengths: bytes 0 to 144 for "f1" instead of 0 to 90, and bytes 90
    to 234 for "f2", past the end of the 144 bytes of ref.dat. *)
Lemma refsAtByteRanges_on_rebuilt_ranges :
  let w := (@writeRefs RefCodecFacts.codec_Ref merge_Sorter
              sample_refs world0).2 in
  let run br :=
    match @refsAtByteRanges RefCodecFacts.codec_Ref true [br] [] w with
    | Returns r =>
        (r.1, filter (λ ev, is_Fetch ev = true) (take 6 (trace r.2)))
    | Panics _ => (([], None), [])
    end in
  run [0; 23; 31; 36] = ((take 3 sample_refs, None), [EvFetch 0 90 None]) /\
  run [0; 23; 31; 90] = ((take 3 sample_refs, None), [EvFetch 0 144 None]) /\
  run [90; 25; 29] = ((drop 3 sample_refs, None), [EvFetch 90 144 None]) /\
  run [90; 25; 119] = ((drop 3 sample_refs, None), [EvFetch 90 234 None]).
Proof. vm_compute. repeat split; reflexivity. Qed.

(* ===================================================================== *)
(** ** fsMultiRepoStore.Repos *)

(** C9. Whenever the filters scope to more than one distinct repo (and
    scoping reports no error), [Repos] returns an empty result and a nil
    error and leaves the world as it found it: no call reaches the file
    system, nothing is listed, and none of the scoped repos is returned. *)
Theorem Repos_several_scoped_repos conf scopeRepos f w scope a b :
  scopeRepos f = (scope, None) ->
  a ∈ scope -> b ∈ scope -> a ≠ b ->
  Repos conf scopeRepos f w = Returns (([], None), w).
Proof.
  intros Hs Ha Hb Hab. unfold Repos. rewrite Hs.
  destruct scope as [|x [|y rest]]; [inversion Ha| |reflexivity].
  apply list_elem_of_singleton in Ha, Hb. congruence.
Qed.

Lemma Repos_several_scoped_repos_witness :
  Repos flat_RepoPaths scopeRepos_spec
        [ByRepos_filter ["a"; "b"]] world0
  = Returns (([], None), world0).
Proof.
  apply (Repos_several_scoped_repos flat_RepoPaths scopeRepos_spec
           [ByRepos_filter ["a"; "b"]] world0 ["a"; "b"] "a" "b").
  - reflexivity.
  - apply elem_of_cons. left. reflexivity.
  - apply elem_of_cons. right. apply elem_of_cons. left. reflexivity.
  - discriminate.
Defined.

(** C7 (the code departs from the claim).  A store keeps each repo under
    its own name and holds the repo "é" (bytes C3 A9).  With a filter
    scoping to that repo, the last byte A9 is turned into the rune A8,
    whose UTF-8 encoding is the two bytes C2 A8: [after] is C3 C2 A8 FF,
    which sorts after the path C3 A9 of the repo, the listing from [after]
    does not reach the repo, and [Repos] returns nothing.  For the repo
    "foo" in the same store [after] is "fon\xff" and [Repos] returns
    ["foo"]. *)
Theorem Repos_single_scope_misses_repo :
  let r := byte_string [195; 169] in
  let w := World {[ r := []; "foo" := [] ]} [] 0 [] [] in
  Repos_after flat_RepoPaths r = Returns (byte_string [195; 194; 168; 255]) /\
  str_ltb (vfs_Join (RepoToPath flat_RepoPaths r))
          (byte_string [195; 194; 168; 255]) = true /\
  (exists w', Repos flat_RepoPaths scopeRepos_spec [ByRepos_filter [r]] w
              = Returns (([], None), w')) /\
  Repos_after flat_RepoPaths "foo" = Returns ("fon" +:+ byte_string [255]) /\
  (exists w', Repos flat_RepoPaths scopeRepos_spec [ByRepos_filter ["foo"]] w
              = Returns ((["foo"], None), w')).
Proof.
  vm_compute. repeat split; try reflexivity; eexists; reflexivity.
Qed.

(* ===================================================================== *)
(** ** Merge sort as [sort.Sort] for units and as [sort.Strings] *)

Lemma unitID2s_Less_false a b :
  unitID2s_Less b a = false <->
  str_ltb (ID2_Name b) (ID2_Name a) = false /\
  (ID2_Name b = ID2_Name a -> str_ltb (ID2_Type b) (ID2_Type a) = false).
Proof.
  unfold unitID2s_Less. rewrite orb_false_iff, andb_false_iff.
  rewrite bool_decide_eq_false.
  destruct (decide (ID2_Name b = ID2_Name a)); tauto.
Qed.

Global Instance unitID2s_le_total : Total unitID2s_le.
Proof.
  intros a b. unfold unitID2s_le. rewrite !unitID2s_Less_false.
  destruct (str_ltb (ID2_Name b) (ID2_Name a)) eqn:E1.
  - right. split; [apply lex_ltb_asym; exact E1|].
    intros Hf. rewrite Hf, str_ltb_irrefl in E1. discriminate.
  - destruct (str_ltb (ID2_Name a) (ID2_Name b)) eqn:E2.
    + left. split; [reflexivity|].
      intros Hf. rewrite Hf, str_ltb_irrefl in E2. discriminate.
    + destruct (str_ltb (ID2_Type b) (ID2_Type a)) eqn:E3.
      * right. split; [reflexivity|]. intros _.
        apply lex_ltb_asym. exact E3.
      * left. split; [reflexivity|]. intros _. reflexivity.
Qed.

Global Instance unitID2s_le_trans : Transitive unitID2s_le.
Proof.
  intros a b c. unfold unitID2s_le. rewrite !unitID2s_Less_false.
  intros [H1 H1'] [H2 H2']. split.
  - unfold str_ltb in *. eapply lex_ltb_false_trans; eassumption.
  - intros Hf.
    assert (ID2_Name b = ID2_Name a) as Hba.
    { apply str_ltb_total; [exact H1|]. rewrite <- Hf. exact H2. }
    specialize (H1' Hba). specialize (H2' (eq_trans Hf (eq_sym Hba))).
    unfold str_ltb in *. eapply lex_ltb_false_trans; eassumption.
Qed.

Global Instance term_le_total : Total term_le.
Proof.
  intros a b. unfold term_le.
  destruct (lex_ltb b a) eqn:E; [right; apply lex_ltb_asym; exact E|].
  left. reflexivity.
Qed.

Global Instance term_le_trans : Transitive term_le.
Proof.
  intros a b c. unfold term_le. intros H1 H2.
  eapply lex_ltb_false_trans; eassumption.
Qed.

Definition merge_Sorter_units : Sorter unitID2s_Less :=
  {| sort_Sort := merge_sort unitID2s_le;
     sort_Sort_perm := merge_sort_Permutation unitID2s_le;
     sort_Sort_sorted := StronglySorted_merge_sort unitID2s_le |}.

Definition merge_Sorter_terms : Sorter lex_ltb :=
  {| sort_Sort := merge_sort term_le;
     sort_Sort_perm := merge_sort_Permutation term_le;
     sort_Sort_sorted := StronglySorted_merge_sort term_le |}.

(* ===================================================================== *)
(** ** defQueryTreeIndex: units beyond the limit, the empty index, the
       panic branches *)

(** C3 (the code departs from the claim).  A tree of 256 units "u000" to
    "u255", each with one def named "x" (unit [k] at offset [10 k + 1]).
    [Build] succeeds and keeps the first 255 units in (Name, Type) order;
    "u255" is not among them.  Still its posting is recorded, under unit
    number 0: the loop over [xs] visits every unit, and [unitNums[u]] of a
    unit that was dropped is the zero value.  The query "x" then returns
    for "u000" its own offset 1 and the offset 2551 of the dropped unit. *)
Theorem Build_dropped_unit_indexed_as_unit_0 :
  let built := @Build merge_Sorter_units merge_Sorter_terms
                 defQueryTreeIndex_zero (sample_units 256) mafsa_ok in
  let table := default (mkMafsaUnitTable None [] [] []) (mt built.2) in
  built.1 = None /\
  Ready built.2 = true /\
  length (ut_Units table) = 255%nat /\
  ut_Units table !! 0%nat = Some (sample_unit 0) /\
  bool_decide (sample_unit 255 ∈ ut_Units table) = false /\
  bool_decide (mkUnitOffsets 0 [2551] ∈ concat (ut_Values table)) = true /\
  match getByQuery ascii_ToLower built.2 (string_bytes "x") with
  | Returns (Some m) =>
      (size m, m !! sample_unit 255, m !! sample_unit 0)
  | _ => (O, None, None)
  end = (255%nat, None, Some [1; 2551]).
Proof. repeat split; vm_compute; reflexivity. Qed.

(** C5 (the code departs from the claim).  [Build] on a tree without
    terms (no unit, or units whose indexes are empty) succeeds, marks the
    index ready and stores a table whose tree pointer is nil; every query
    then stops with a nil pointer dereference inside [IndexedTraverse]
    instead of returning [found = false]. *)
Theorem getByQuery_empty_index_panics :
  forall unicode_ToLower q,
    let built := @Build merge_Sorter_units merge_Sorter_terms
                   defQueryTreeIndex_zero
                   [(sample_unit 0, unit_index []);
                    (sample_unit 1, mkDefQueryIndex
                                      (Some (mkMafsaTable None [])))]
                   mafsa_ok in
    built.1 = None /\ Ready built.2 = true /\
    getByQuery unicode_ToLower built.2 q = Panics panic_nil /\
    getByQuery unicode_ToLower
      (@Build merge_Sorter_units merge_Sorter_terms
         defQueryTreeIndex_zero [] mafsa_ok).2 q = Panics panic_nil.
Proof. intros f q. vm_compute. auto. Qed.

Section defQueryTreeIndex_panics.
Variable unicode_ToLower : rune -> rune.
Context `{SortUnits : Sorter ID2 unitID2s_Less}.
Context `{SortStrings : Sorter (list rune) lex_ltb}.

Lemma Build_keeps_table x xs env :
  (ready x = true -> mt x <> None) ->
  ready (Build x xs env).2 = true -> mt (Build x xs env).2 <> None.
Proof.
  intros Hx. unfold Build.
  destruct (Build_termToUOffs xs) as [m|msg]; simpl; [|exact Hx].
  destruct (sort_Sort (elements (dom m))) as [|t ts]; simpl;
    [discriminate|].
  destruct (env_marshal env) as [b [e|]]; simpl; [discriminate|].
  destruct (env_decode env) as [[e t']|]; simpl; discriminate.
Qed.

Lemma Read_keeps_table x env :
  (ready x = true -> mt x <> None) ->
  ready (Read x env).2 = true -> mt (Read x env).2 <> None.
Proof.
  intros Hx. unfold Read.
  destruct (re_ReadAll env) as [b [e|]]; simpl; [exact Hx|].
  destruct (re_Unmarshal env b) as [[[B Units] Values] err].
  destruct (match err with
            | Some e => _
            | None => _
            end) as [t err']. simpl. discriminate.
Qed.

Lemma reachable_ready_table x :
  reachable x -> ready x = true -> mt x <> None.
Proof.
  induction 1 as [|x xs env _ IH|x env _ IH].
  - discriminate.
  - apply Build_keeps_table. exact IH.
  - apply Read_keeps_table. exact IH.
Qed.

Lemma getByQuery_add_panic Units ps : forall acc msg,
  foldl (getByQuery_add Units) acc ps = Panics msg ->
  acc = Panics msg \/ msg = panic_index.
Proof.
  induction ps as [|p ps IH]; intros acc msg; simpl; [auto|].
  intros E. apply IH in E as [E|E]; [|auto].
  unfold getByQuery_add in E. destruct acc as [m|msg']; [|auto].
  destruct (decide (0 <= uo_Unit p)); [|injection E as <-; auto].
  destruct (Units !! _); [discriminate|]. injection E as <-. auto.
Qed.

(** C10. Querying an index whose table was never built or read
    ([mt == nil]) panics with "mafsaTable not built/read" instead of
    returning an error, and [Write] on such an index panics with "no
    mafsaTable to write".  For every index a program can hold, reached
    from the zero value by calls of [Build] and [Read], [Ready() = true]
    implies that the table is there, so that the panic branch of
    [getByQuery] is not taken. *)
Theorem getByQuery_panic_branch :
  (forall x q, mt x = None ->
     getByQuery unicode_ToLower x q = Panics panic_not_built) /\
  (forall x marshal write, mt x = None ->
     Write x marshal write = Panics panic_no_table) /\
  (forall x, reachable x -> Ready x = true ->
     mt x <> None /\
     forall q, getByQuery unicode_ToLower x q <> Panics panic_not_built).
Proof.
  split; [|split].
  - intros x q Hm. unfold getByQuery. rewrite Hm. reflexivity.
  - intros x marshal write Hm. unfold Write. rewrite Hm. reflexivity.
  - intros x Hreach Hready.
    pose proof (reachable_ready_table x Hreach Hready) as Hm.
    split; [exact Hm|]. intros q. unfold getByQuery.
    destruct (mt x) as [table|]; [|contradiction].
    destruct (ut_t table) as [t|]; [|discriminate].
    destruct (IndexedTraverse t _) as [[node i]|]; [|discriminate].
    destruct (Final node);
      (destruct (slice _ _ _) as [vs|]; [|discriminate]);
      (destruct (foldl _ _ _) as [m|msg] eqn:E; [discriminate|]);
      apply getByQuery_add_panic in E as [E| ->]; discriminate.
Qed.

End defQueryTreeIndex_panics.

(* ===================================================================== *)
(** ** The def-query tree: numbering and traversal *)

Lemma MinTreeNode_nested_ind (P : MinTreeNode -> Prop) :
  (forall f k es, Forall (λ e, P e.2) es -> P (Node f k es)) ->
  forall n, P n.
Proof.
  intros H. fix IH 1. intros [f k es]. apply H.
  induction es as [|[c child] es IHes]; constructor; [apply IH|exact IHes].
Qed.

Lemma number_node_Node f k es :
  number_node (Node f k es)
  = Node f (sum_weights ((λ e, (e.1, number_node e.2)) <$> es))
         ((λ e, (e.1, number_node e.2)) <$> es).
Proof.
  cbn [number_node].
  assert ((fix go (es0 : list (rune * MinTreeNode)) :=
             match es0 with
             | [] => []
             | (c, child) :: rest => (c, number_node child) :: go rest
             end) es = (λ e, (e.1, number_node e.2)) <$> es) as ->.
  { induction es as [|[c child] es IHes]; [reflexivity|].
    rewrite fmap_cons, <- IHes. reflexivity. }
  reflexivity.
Qed.

Lemma number_node_well_numbered n : well_numbered (number_node n).
Proof.
  induction n as [f k es IH] using MinTreeNode_nested_ind.
  rewrite number_node_Node. constructor.
  apply Forall_fmap. exact IH.
Qed.

Lemma well_numbered_Number n : well_numbered n -> 0 <= Number n.
Proof.
  induction n as [f k es IH] using MinTreeNode_nested_ind.
  inversion 1 as [f' es' Hes]; subst. simpl.
  clear H. induction es as [|[c child] es IHes]; simpl; [lia|].
  inversion IH as [|? ? Hc IH']; subst. inversion Hes as [|? ? Hc' Hes']; subst.
  specialize (IHes IH' Hes'). specialize (Hc Hc').
  unfold weight, sum_weights in *. simpl in *. destruct (Final child); simpl; lia.
Qed.

Lemma well_numbered_weight n : well_numbered n -> 0 <= weight n.
Proof.
  intros H. apply well_numbered_Number in H. unfold weight, b2z.
  destruct (Final n); lia.
Qed.

Lemma sum_weights_cons c child es :
  sum_weights ((c, child) :: es) = weight child + sum_weights es.
Proof. reflexivity. Qed.

Lemma sum_weights_nonneg es :
  Forall (λ e, well_numbered e.2) es -> 0 <= sum_weights es.
Proof.
  induction 1 as [|[c child] es Hc _ IH]; [unfold sum_weights; simpl; lia|].
  rewrite sum_weights_cons. apply well_numbered_weight in Hc. simpl in Hc. lia.
Qed.

Lemma words_before_bounds es c :
  Forall (λ e, well_numbered e.2) es ->
  0 <= words_before es c <= sum_weights es.
Proof.
  induction 1 as [|[c' child] es Hc _ IH]; cbn [words_before];
    [unfold sum_weights; simpl; lia|].
  rewrite sum_weights_cons. apply well_numbered_weight in Hc. simpl in Hc.
  destruct (c' <? c)%N; lia.
Qed.

(** Following an edge: the words before the child and the words of the
    child are among the words below the parent. *)
Lemma edge_lookup_words es c child :
  Forall (λ e, well_numbered e.2) es ->
  edge_lookup es c = Some child ->
  well_numbered child /\
  0 <= words_before es c /\
  words_before es c + weight child <= sum_weights es.
Proof.
  induction 1 as [|[c' ch] es Hc Hes IH]; cbn [edge_lookup words_before];
    [discriminate|].
  rewrite sum_weights_cons.
  pose proof (well_numbered_weight _ Hc) as Hw. simpl in Hw, Hc.
  pose proof (words_before_bounds es c Hes) as Hb.
  destruct (N.eqb_spec c' c) as [->|Hne].
  - intros [= <-]. rewrite N.ltb_irrefl. repeat split; [exact Hc|lia|lia].
  - intros E. destruct (IH E) as (H1 & H2 & H3).
    repeat split; [exact H1|destruct (c' <? c)%N; lia|destruct (c' <? c)%N; lia].
Qed.

Lemma well_numbered_Edges n :
  well_numbered n ->
  Forall (λ e, well_numbered e.2) (Edges n) /\ Number n = sum_weights (Edges n).
Proof. inversion 1; subst; simpl; auto. Qed.

(** The range of values a traversal result stands for: from
    [i - Final] up to [i + Number].  Walking further narrows it. *)
Lemma IndexedTraverse_from_narrows word : forall node index node' index',
  well_numbered node ->
  IndexedTraverse_from node word index = Some (node', index') ->
  well_numbered node' /\
  index - b2z (Final node) <= index' - b2z (Final node') /\
  index' + Number node' <= index + Number node.
Proof.
  induction word as [|c word IH]; intros node index node' index' Hwn; simpl.
  - intros [= <- <-]. repeat split; [exact Hwn|lia|lia].
  - destruct (edge_lookup (Edges node) c) as [child|] eqn:E; [|discriminate].
    intros Hrec.
    destruct (well_numbered_Edges node Hwn) as [Hes HN].
    destruct (edge_lookup_words _ _ _ Hes E) as (Hc & Hb & Hsum).
    destruct (IH _ _ _ _ Hc Hrec) as (H1 & H2 & H3).
    unfold weight in Hsum.
    repeat split; [exact H1| |lia].
    unfold b2z in *. destruct (Final node), (Final child), (Final node'); lia.
Qed.


(** *** The number of words of a built tree *)

Lemma count_final_Node f k es :
  count_final (Node f k es)
  = b2z f + foldr (λ e acc, count_final e.2 + acc) 0 es.
Proof.
  cbn [count_final]. f_equal.
  induction es as [|[c child] es IHes]; [reflexivity|].
  simpl. rewrite IHes. reflexivity.
Qed.

Lemma number_node_Final n : Final (number_node n) = Final n.
Proof. destruct n as [f k es]. rewrite number_node_Node. reflexivity. Qed.

Lemma number_node_weight n : weight (number_node n) = count_final n.
Proof.
  induction n as [f k es IH] using MinTreeNode_nested_ind.
  rewrite number_node_Node, count_final_Node. unfold weight. simpl.
  assert (sum_weights ((λ e, (e.1, number_node e.2)) <$> es)
          = foldr (λ e acc, count_final e.2 + acc) 0 es) as ->; [|lia].
  unfold sum_weights.
  induction IH as [|[c child] es Hc _ IHes]; [reflexivity|].
  rewrite fmap_cons. cbn [foldr snd] in *. rewrite IHes, Hc. reflexivity.
Qed.

Lemma count_final_alter_edge c (f : MinTreeNode -> MinTreeNode) es :
  (forall n, count_final (f n) <= count_final n + 1) ->
  foldr (λ e acc, count_final e.2 + acc) 0 (alter_edge c f es)
  <= foldr (λ e acc, count_final e.2 + acc) 0 es + 1.
Proof.
  intros Hf. induction es as [|[c' child] es IH]; simpl.
  - specialize (Hf empty_node). simpl in Hf. lia.
  - destruct (c =? c')%N; simpl; [specialize (Hf child); lia|].
    destruct (c <? c')%N; simpl; [|lia].
    specialize (Hf empty_node). simpl in Hf. lia.
Qed.

Lemma count_final_trie_insert word : forall n,
  count_final (trie_insert word n) <= count_final n + 1.
Proof.
  induction word as [|c word IH]; intros [f k es]; simpl trie_insert.
  - rewrite !count_final_Node. unfold b2z. destruct f; lia.
  - rewrite !count_final_Node.
    pose proof (count_final_alter_edge c (trie_insert word) es IH). lia.
Qed.

Lemma count_final_inserts terms : forall n,
  count_final (foldl (λ n term, trie_insert term n) n terms)
  <= count_final n + Z.of_nat (length terms).
Proof.
  induction terms as [|t terms IH]; intros n; simpl; [lia|].
  specialize (IH (trie_insert t n)).
  pose proof (count_final_trie_insert t n). lia.
Qed.

Lemma mafsa_tree_well_numbered terms :
  well_numbered (Root (mafsa_tree terms)).
Proof.
  unfold mafsa_tree. simpl.
  pose proof (number_node_well_numbered
                (foldl (λ n term, trie_insert term n) empty_node terms)) as H.
  destruct (number_node _) as [f k es]. inversion H; subst. simpl.
  constructor. assumption.
Qed.

Lemma mafsa_tree_Number terms :
  0 <= Number (Root (mafsa_tree terms)) <= Z.of_nat (length terms).
Proof.
  split; [apply well_numbered_Number, mafsa_tree_well_numbered|].
  unfold mafsa_tree. simpl.
  pose proof (number_node_weight
                (foldl (λ n term, trie_insert term n) empty_node terms)) as Hw.
  pose proof (count_final_inserts terms empty_node) as Hc.
  simpl in Hc. unfold weight, b2z in Hw.
  destruct (Final (number_node _)); lia.
Qed.

Lemma mafsa_tree_Final terms : Final (Root (mafsa_tree terms)) = false.
Proof. reflexivity. Qed.

(** Every traversal of a built tree stays within the terms of the tree. *)
Lemma IndexedTraverse_in_bounds terms word node index :
  IndexedTraverse (mafsa_tree terms) word = Some (node, index) ->
  0 <= index - b2z (Final node) /\
  index - b2z (Final node) <= index + Number node /\
  index + Number node <= Z.of_nat (length terms).
Proof.
  unfold IndexedTraverse. intros E.
  apply IndexedTraverse_from_narrows in E as (Hwn & Hlo & Hhi);
    [|apply mafsa_tree_well_numbered].
  rewrite mafsa_tree_Final in Hlo. simpl in Hlo.
  pose proof (mafsa_tree_Number terms).
  pose proof (well_numbered_Number _ Hwn).
  unfold b2z in *. destruct (Final node); lia.
Qed.

(* ===================================================================== *)
(** ** Query results of a built index *)


Lemma slice_seg {A} (l : list A) i j vs :
  slice l i j = Some vs ->
  vs = seg (Z.to_nat i) (Z.to_nat j) l /\
  0 <= i /\ i <= j /\ j <= Z.of_nat (length l).
Proof.
  unfold slice, seg. destruct (decide _) as [H|H]; [|discriminate].
  intros [= <-]. rewrite Z2Nat.inj_sub by lia. auto.
Qed.

Lemma slice_in_bounds {A} (l : list A) i j :
  0 <= i -> i <= j -> j <= Z.of_nat (length l) ->
  slice l i j = Some (seg (Z.to_nat i) (Z.to_nat j) l).
Proof.
  intros H1 H2 H3. unfold slice, seg.
  rewrite decide_True by lia. rewrite Z2Nat.inj_sub by lia. reflexivity.
Qed.








Lemma getByQuery_add_in_range Units ps : forall m,
  Forall (λ p, 0 <= uo_Unit p < Z.of_nat (length Units)) ps ->
  foldl (getByQuery_add Units) (Returns m) ps
  = Returns (foldl (getByQuery_put Units) m ps).
Proof.
  induction ps as [|p ps IH]; intros m Hps; simpl; [reflexivity|].
  inversion Hps as [|? ? Hp Hps']; subst.
  unfold getByQuery_put at 2. rewrite decide_True by lia.
  destruct (Units !! Z.to_nat (uo_Unit p)) as [u|] eqn:E.
  - apply IH. exact Hps'.
  - apply lookup_ge_None in E. lia.
Qed.

Section defQueryTreeIndex_queries.
Variable unicode_ToLower : rune -> rune.
Context `{SortUnits : Sorter ID2 unitID2s_Less}.
Context `{SortStrings : Sorter (list rune) lex_ltb}.

Lemma Build_unitNums_fold (units : list ID2) : forall (m : gmap ID2 Z) k,
  let step := λ (m : gmap ID2 Z) (u : ID2),
                <[u := Z.of_nat (size m) mod 256]> m in
  (size m <= k)%nat ->
  (forall u v, m !! u = Some v -> 0 <= v < Z.of_nat k) ->
  (size (foldl step m units) <= k + length units)%nat /\
  forall u v,
    foldl step m units !! u = Some v -> 0 <= v < Z.of_nat (k + length units).
Proof.
  induction units as [|a units IH]; intros m k step Hsize Hval; simpl.
  - rewrite Nat.add_0_r. auto.
  - replace (k + S (length units))%nat with (S k + length units)%nat by lia.
    apply IH; subst step; cbv beta.
    + destruct (m !! a) eqn:E.
      * rewrite map_size_insert_Some by eauto. lia.
      * rewrite map_size_insert_None by exact E. lia.
    + intros u v. destruct (decide (a = u)) as [->|Hne].
      * rewrite lookup_insert_eq. intros [= <-].
        assert (0 <= Z.of_nat (size m) mod 256 <= Z.of_nat (size m)).
        { split; [apply Z.mod_pos_bound; lia|apply Z.mod_le; lia]. }
        lia.
      * rewrite lookup_insert_ne by exact Hne. intros E.
        apply Hval in E. lia.
Qed.

Lemma Build_unitNums_range units u v :
  Build_unitNums units !! u = Some v -> 0 <= v < Z.of_nat (length units).
Proof.
  unfold Build_unitNums.
  destruct (Build_unitNums_fold units ∅ 0) as [_ H].
  - rewrite map_size_empty. lia.
  - intros u' v'. rewrite lookup_empty. discriminate.
  - apply H.
Qed.

Lemma Build_units_length xs :
  xs <> [] -> (0 < length (Build_units xs))%nat.
Proof.
  intros Hne. unfold Build_units.
  assert (length (sort_Sort xs.*1) = length xs) as Hl.
  { rewrite (Permutation_length (sort_Sort_perm xs.*1)).
    apply length_fmap. }
  destruct (decide (maxUnits < length (sort_Sort xs.*1))%nat) as [H|H].
  - rewrite length_take. unfold maxUnits in *. lia.
  - rewrite Hl. destruct xs; [contradiction|simpl; lia].
Qed.

Lemma postings_in_range_insert (n : nat)
    (m : gmap (list rune) (list unitOffsets)) (term : list rune)
    (p : unitOffsets) :
  postings_in_range n m -> 0 <= uo_Unit p < Z.of_nat n ->
  postings_in_range n (<[term := default [] (m !! term) ++ [p]]> m).
Proof.
  intros Hm Hp term' ps. destruct (decide (term = term')) as [->|Hne].
  - rewrite lookup_insert_eq. intros [= <-]. apply Forall_app. split.
    + destruct (m !! term') as [old|] eqn:E; simpl; [|constructor].
      apply (Hm term'). exact E.
    + repeat constructor; apply Hp.
  - rewrite lookup_insert_ne by exact Hne. apply Hm.
Qed.

Lemma traverse_in_range (n : nat) (Values : list (list Z)) (unit : Z) :
  0 <= unit < Z.of_nat n ->
  forall node term st st',
    postings_in_range n st.2 ->
    traverse Values unit term node st = Returns st' ->
    postings_in_range n st'.2.
Proof.
  intros Hunit node.
  induction node as [f k es IH] using MinTreeNode_nested_ind.
  intros term st st' Hst. cbn [traverse].
  set (st1 := if f then _ else _).
  assert (forall s, st1 = Returns s -> postings_in_range n s.2) as H1.
  { subst st1. destruct f; [|intros s [= <-]; exact Hst].
    destruct (Values !! st.1) as [v|]; [|discriminate].
    intros s [= <-]. simpl. apply postings_in_range_insert; [exact Hst|].
    simpl. exact Hunit. }
  clearbody st1. revert st1 H1.
  induction IH as [|[c child] es Hc _ IHes]; intros acc Hacc; simpl.
  - intros E. apply Hacc. exact E.
  - apply IHes. intros s. destruct acc as [s0|msg]; [|discriminate].
    apply Hc. apply Hacc. reflexivity.
Qed.

Lemma Build_unit_in_range (n : nat) (unitNums : gmap ID2 Z) acc uqx :
  (0 < n)%nat ->
  (forall u v, unitNums !! u = Some v -> 0 <= v < Z.of_nat n) ->
  (forall m, acc = Returns m -> postings_in_range n m) ->
  forall m, Build_unit unitNums acc uqx = Returns m -> postings_in_range n m.
Proof.
  intros Hn Hnums Hacc m. unfold Build_unit.
  destruct acc as [m0|msg]; [|discriminate].
  destruct (dq_mt uqx.2) as [qmt|]; [|discriminate].
  destruct (mt_t qmt) as [t|]; [|intros [= <-]; apply Hacc; reflexivity].
  destruct (traverse _ _ _ _ _) as [st|msg] eqn:E; [|discriminate].
  intros [= <-].
  eapply (traverse_in_range n) in E; [exact E| |apply Hacc; reflexivity].
  destruct (unitNums !! uqx.1) as [v|] eqn:Ev; simpl; [eauto|lia].
Qed.

Lemma Build_termToUOffs_in_range xs m :
  Build_termToUOffs xs = Returns m ->
  postings_in_range (length (Build_units xs)) m.
Proof.
  unfold Build_termToUOffs. destruct xs as [|x xs'] eqn:Exs.
  - simpl. intros [= <-] term ps. rewrite lookup_empty. discriminate.
  - rewrite <- Exs.
    assert (0 < length (Build_units xs))%nat as Hn.
    { apply Build_units_length. subst xs. discriminate. }
    clear Exs x xs'.
    set (n := length (Build_units xs)) in *.
    set (unitNums := Build_unitNums (Build_units xs)).
    assert (forall u v, unitNums !! u = Some v -> 0 <= v < Z.of_nat n) as Hnums.
    { intros u v. apply Build_unitNums_range. }
    clearbody unitNums n.
    assert (forall acc, (forall m0, acc = Returns m0 -> postings_in_range n m0) ->
              forall m, foldl (Build_unit unitNums) acc xs = Returns m ->
                        postings_in_range n m) as H.
    { induction xs as [|y ys IH]; intros acc Hacc m'; simpl.
      - apply Hacc.
      - apply IH. intros m0. apply Build_unit_in_range; assumption. }
    apply H. intros m0 [= <-] term ps. rewrite lookup_empty. discriminate.
Qed.

(** What a successful [Build] leaves: the empty table, or the tree of the
    sorted terms with their postings alongside. *)
Lemma Build_built x0 xs env x :
  Build x0 xs env = (None, x) ->
  x = mkDefQueryTreeIndex (Some (mkMafsaUnitTable None [] [] [])) true \/
  exists m terms b,
    Build_termToUOffs xs = Returns m /\
    x = mkDefQueryTreeIndex
          (Some (mkMafsaUnitTable (Some (mafsa_tree terms)) b (Build_units xs)
                   ((λ term, default [] (m !! term)) <$> terms)))
          true.
Proof.
  unfold Build. destruct (Build_termToUOffs xs) as [m|msg]; [|discriminate].
  destruct (sort_Sort (elements (dom m))) as [|t ts] eqn:Et.
  - intros [= <-]. left. reflexivity.
  - destruct (env_marshal env) as [b [e|]]; [discriminate|].
    destruct (env_decode env) as [[e t']|]; [discriminate|].
    intros [= <-]. right. exists m, (t :: ts), b. split; reflexivity.
Qed.

Lemma Values_in_range (n : nat) (m : gmap (list rune) (list unitOffsets))
    (terms : list (list rune)) vs :
  postings_in_range n m ->
  vs ⊆ (λ term, default [] (m !! term)) <$> terms ->
  Forall (λ p, 0 <= uo_Unit p < Z.of_nat n) (concat vs).
Proof.
  intros Hm Hvs. apply Forall_concat. apply List.Forall_forall.
  intros ps Hps. apply list_elem_of_In in Hps. apply Hvs in Hps. apply list_elem_of_fmap in Hps as (term & -> & _).
  destruct (m !! term) as [ps|] eqn:E; simpl; [|constructor].
  apply (Hm term). exact E.
Qed.

Lemma seg_subseteq {A} (l : list A) a b : seg a b l ⊆ l.
Proof.
  unfold seg. intros x Hx.
  apply subseteq_take in Hx. apply subseteq_drop in Hx. exact Hx.
Qed.

(** The table of a non-empty built index, and what [getByQuery] returns on
    it: not found when the traversal finds no node, and otherwise the
    postings [Values[i - Final : i + Number]] gathered by unit, each
    posting delta-decoded. *)
Lemma getByQuery_built m terms b xs q :
  Build_termToUOffs xs = Returns m ->
  let Values := (λ term, default [] (m !! term)) <$> terms in
  let x := mkDefQueryTreeIndex
             (Some (mkMafsaUnitTable (Some (mafsa_tree terms)) b
                      (Build_units xs) Values)) true in
  getByQuery unicode_ToLower x q
  = match IndexedTraverse (mafsa_tree terms)
                          (strings_ToLower unicode_ToLower q) with
    | None => Returns None
    | Some (node, i) =>
        Returns (Some (foldl (getByQuery_put (Build_units xs)) ∅
                         (concat (seg (Z.to_nat (i - b2z (Final node)))
                                      (Z.to_nat (i + Number node)) Values))))
    end.
Proof.
  intros Hm Values x. unfold getByQuery. simpl.
  destruct (IndexedTraverse _ _) as [[node i]|] eqn:E; [|reflexivity].
  destruct (IndexedTraverse_in_bounds _ _ _ _ E) as (Hlo & Hle & Hhi).
  assert (Z.of_nat (length Values) = Z.of_nat (length terms)) as Hlen.
  { subst Values. rewrite length_fmap. reflexivity. }
  assert (slice Values (i - b2z (Final node)) (i + Number node)
          = Some (seg (Z.to_nat (i - b2z (Final node)))
                      (Z.to_nat (i + Number node)) Values)) as Hs.
  { apply slice_in_bounds; lia. }
  assert ((let '(i0, nn) :=
             if Final node then (i - 1, Number node + 1)
             else (i, Number node) in
           slice Values i0 (i0 + nn))
          = Some (seg (Z.to_nat (i - b2z (Final node)))
                      (Z.to_nat (i + Number node)) Values)) as Hs'.
  { rewrite <- Hs. unfold b2z. destruct (Final node); f_equal; lia. }
  destruct (Final node); simpl in Hs' |- *; rewrite Hs';
    (rewrite getByQuery_add_in_range; [reflexivity|]);
    (eapply Values_in_range;
     [apply Build_termToUOffs_in_range; exact Hm|apply seg_subseteq]).
Qed.

(** On an index that [Build] made from at least one term every query
    returns. *)
Lemma getByQuery_built_returns x0 xs env x q :
  Build x0 xs env = (None, x) ->
  x <> mkDefQueryTreeIndex (Some (mkMafsaUnitTable None [] [] [])) true ->
  exists r, getByQuery unicode_ToLower x q = Returns r.
Proof.
  intros HB Hne. apply Build_built in HB as [->|(m & terms & b & Hm & ->)];
    [contradiction|].
  rewrite (getByQuery_built m terms b xs q Hm).
  destruct (IndexedTraverse _ _) as [[node i]|]; eauto.
Qed.


End defQueryTreeIndex_queries.

Lemma getByQuery_panic_branch_witness :
  let x := (@Build merge_Sorter_units merge_Sorter_terms
              defQueryTreeIndex_zero sample_tree_units mafsa_ok).2 in
  mt x <> None /\
  getByQuery ascii_ToLower x (string_bytes "quux") <> Panics panic_not_built.
Proof.
  intros x.
  destruct (@getByQuery_panic_branch ascii_ToLower merge_Sorter_units
              merge_Sorter_terms) as (_ & _ & H).
  destruct (H x) as [Hm Hq].
  - apply reachable_Build. apply reachable_zero.
  - reflexivity.
  - split; [exact Hm|apply Hq].
Defined.

(* ===================================================================== *)
(** ** The lexical predecessor computed by [Repos] *)

Lemma list_ascii_of_string_app a b :
  String.list_ascii_of_string (a +:+ b)
  = String.list_ascii_of_string a ++ String.list_ascii_of_string b.
Proof.
  induction a as [|c a IH]; [reflexivity|]. simpl. rewrite IH. reflexivity.
Qed.

Lemma string_bytes_app a b :
  string_bytes (a +:+ b) = string_bytes a ++ string_bytes b.
Proof.
  unfold string_bytes. rewrite list_ascii_of_string_app. apply fmap_app.
Qed.

Lemma lex_ltb_app pre a b : lex_ltb (pre ++ a) (pre ++ b) = lex_ltb a b.
Proof.
  induction pre as [|x pre IH]; [reflexivity|]. simpl.
  rewrite N.ltb_irrefl, N.eqb_refl. exact IH.
Qed.

(** When the last byte of the component is an ASCII character other than
    NUL (or the byte 0x80), the string [Repos] builds from it sorts strictly
    before the component, as the comment in [Repos] intends. *)
Lemma Repos_lastComp_sorts_before front c :
  (1 <= N_of_ascii c <= 128)%N ->
  exists after,
    Repos_lastComp (front +:+ String c EmptyString) = Returns after /\
    after = front +:+ byte_string [Z.of_N (N_of_ascii c) - 1]
                  +:+ byte_string [255] /\
    str_ltb after (front +:+ String c EmptyString) = true.
Proof.
  intros Hc. unfold Repos_lastComp.
  rewrite list_ascii_of_string_app. simpl. rewrite rev_unit, rev_involutive.
  rewrite String.string_of_list_ascii_of_string.
  assert (utf8_encode (Z.of_N (N_of_ascii c) - 1)
          = byte_string [Z.of_N (N_of_ascii c) - 1]) as ->.
  { unfold utf8_encode. rewrite decide_False by lia.
    rewrite decide_True by lia. reflexivity. }
  eexists. split; [reflexivity|]. split; [reflexivity|].
  unfold str_ltb. rewrite !string_bytes_app, lex_ltb_app.
  unfold string_bytes, byte_string. simpl.
  rewrite N_ascii_embedding by lia.
  assert (N.ltb (Z.to_N (Z.of_N (N_of_ascii c) - 1)) (N_of_ascii c) = true)
    as ->; [apply N.ltb_lt; lia|reflexivity].
Qed.

(* ===================================================================== *)
(** ** Further properties of the unit store *)

Lemma filter_snoc_select {A} (sel : A -> bool) (l : list A) (v : A) :
  filter (λ d, sel d = true) (l ++ [v])
  = if sel v then filter (λ d, sel d = true) l ++ [v]
    else filter (λ d, sel d = true) l.
Proof.
  rewrite list.filter_app, filter_cons, filter_nil.
  destruct (sel v) eqn:E.
  - rewrite decide_True by reflexivity. reflexivity.
  - rewrite decide_False by discriminate. apply app_nil_r.
Qed.

(** A reading loop that keeps the selected records does the same I/O as
    the loop that keeps them all, and ends with the selected ones among
    those. *)
Lemma scan_select {T} `{Codec T} (sel : T -> bool) fuel :
  forall rest acc w,
    scan fuel (λ l v (_ : nat), if sel v then l ++ [v] else l) rest
         (filter (λ d, sel d = true) acc) w
    = match scan fuel (λ l v (_ : nat), l ++ [v]) rest acc w with
      | (inl l, w') => (inl (filter (λ d, sel d = true) l), w')
      | (inr e, w') => (inr e, w')
      end.
Proof.
  induction fuel as [|fuel IH]; intros rest acc w; [reflexivity|].
  cbn [scan].
  destruct (dec_Decode rest w) as [[[[v n] rest']|e] w0].
  - rewrite <- IH. rewrite filter_snoc_select. reflexivity.
  - destruct e; reflexivity.
Qed.

Section fsUnitStore_filters.
Context `{CodecDef : Codec graph_Def} `{CodecRef : Codec graph_Ref}.

(** Filters only select: in every world, whatever the files hold and
    whichever call fails, [Defs(fs)] makes the calls [Defs()] makes, returns
    the same error and, of the defs [Defs()] returns, those that every
    filter selects, in the same order; likewise [Refs(fs)]. *)
Theorem Defs_Refs_filters_select w :
  (forall fs,
     Defs fs w
     = ((filter (λ d, SelectDef fs d = true) (Defs [] w).1.1,
         (Defs [] w).1.2), (Defs [] w).2)) /\
  (forall fs,
     Refs fs w
     = ((filter (λ r, SelectRef fs r = true) (Refs [] w).1.1,
         (Refs [] w).1.2), (Refs [] w).2)).
Proof.
  split; intros fs.
  - pose proof (scan_select (SelectDef fs)) as E.
    unfold Defs.
    destruct (vfs_Open unitDefsFilename w) as [[[f bs]|e] w0]; [|reflexivity].
    unfold deferred_Close.
    change (Defs_body fs)
      with (λ l v (_ : nat), if SelectDef fs v then l ++ [v] else l).
    change (Defs_body [])
      with (λ (l : list graph_Def) v (_ : nat), l ++ [v]).
    specialize (E (S (length bs)) bs [] w0). rewrite filter_nil in E.
    destruct (scan (S (length bs)) (λ (l : list graph_Def) v (_ : nat), l ++ [v])
                bs [] w0) as [[l|e] w1] eqn:ES;
      rewrite E; cbn [fst snd];
      destruct (file_Close f w1) as [err2 w2]; reflexivity.
  - pose proof (scan_select (SelectRef fs)) as E.
    unfold Refs.
    destruct (vfs_Open unitRefsFilename w) as [[[f bs]|e] w0]; [|reflexivity].
    unfold deferred_Close.
    change (Refs_body fs)
      with (λ l v (_ : nat), if SelectRef fs v then l ++ [v] else l).
    change (Refs_body [])
      with (λ (l : list graph_Ref) v (_ : nat), l ++ [v]).
    specialize (E (S (length bs)) bs [] w0). rewrite filter_nil in E.
    destruct (scan (S (length bs)) (λ (l : list graph_Ref) v (_ : nat), l ++ [v])
                bs [] w0) as [[l|e] w1] eqn:ES;
      rewrite E; cbn [fst snd];
      destruct (file_Close f w1) as [err2 w2]; reflexivity.
Qed.

End fsUnitStore_filters.

(* ===================================================================== *)
(** ** What a call changes in the store, on every path *)

Lemma next_fault_files w : files (next_fault w).2 = files w.
Proof. unfold next_fault. destruct (faults w); reflexivity. Qed.

Lemma enc_Encode_files {T} `{Codec T} (v : T) bw w :
  files (enc_Encode v bw w).2 = files w.
Proof.
  unfold enc_Encode, next_fault.
  destruct (faults w) as [|[c|] l]; reflexivity.
Qed.

Lemma file_Close_files f w : files (file_Close f w).2 = files w.
Proof.
  unfold file_Close, next_fault. destruct (faults w) as [|[c|] l]; reflexivity.
Qed.

Lemma bufio_Flush_files f bw w name :
  name <> fname f ->
  files (bufio_Flush f bw w).2 !! name = files w !! name.
Proof.
  intros Hne. unfold bufio_Flush, next_fault.
  destruct (faults w) as [|[c|] l]; simpl; try reflexivity;
    apply lookup_insert_ne; congruence.
Qed.

Lemma vfs_Create_files name0 w name :
  name <> name0 ->
  files (vfs_Create name0 w).2 !! name = files w !! name /\
  forall f, (vfs_Create name0 w).1 = inl f -> fname f = name0.
Proof.
  intros Hne. unfold vfs_Create, next_fault.
  destruct (faults w) as [|[c|] l]; simpl;
    (split; [try reflexivity; apply lookup_insert_ne; congruence|]);
    intros f [= <-]; try reflexivity.
Qed.

Lemma deferred_Close_files {A} f
    (body : world -> (A * option error) * world) w :
  files (deferred_Close f body w).2 = files (body w).2.
Proof.
  unfold deferred_Close. destruct (body w) as [[a err] w1].
  pose proof (file_Close_files f w1) as E.
  destruct (file_Close f w1) as [err2 w2]. exact E.
Qed.

Section unit_store_frame.
Context `{CodecDef : Codec graph_Def} `{CodecRef : Codec graph_Ref}.
Context `{SortRefs : Sorter graph_Ref refsByFileStartEnd_Less}.
Variable cleanForImport :
  graph_Output -> string -> string -> string -> graph_Output.

Lemma writeDefs_loop_files defs : forall o bw w,
  files (writeDefs_loop defs o bw w).2 = files w.
Proof.
  induction defs as [|def defs IH]; intros o bw w; [reflexivity|].
  cbn [writeDefs_loop].
  pose proof (enc_Encode_files def bw w) as E.
  destruct (enc_Encode def bw w) as [[[n bw1]|e] w1]; [|exact E].
  specialize (IH (u64 (o + n)) bw1 w1).
  destruct (writeDefs_loop defs (u64 (o + n)) bw1 w1) as [r w2].
  simpl in *. congruence.
Qed.

Lemma writeRefs_loop_files refs : forall i s w,
  files (writeRefs_loop i refs s w).2 = files w.
Proof.
  induction refs as [|ref refs IH]; intros i s w; [reflexivity|].
  cbn [writeRefs_loop].
  pose proof (enc_Encode_files ref (wr_bw s) w) as E.
  destruct (decide (wr_lastFile s ≠ Ref_File ref)) as [Hne|Heq];
    (destruct (enc_Encode ref (wr_bw s) w) as [[[n bw1]|e] w1];
     [rewrite IH; exact E|exact E]).
Qed.

Lemma writeDefs_frame defs w name :
  name <> unitDefsFilename ->
  files (writeDefs defs w).2 !! name = files w !! name.
Proof.
  intros Hne. unfold writeDefs.
  destruct (vfs_Create_files unitDefsFilename w name Hne) as [EC Hf].
  destruct (vfs_Create unitDefsFilename w) as [[f|e] w0]; [|exact EC].
  rewrite deferred_Close_files.
  pose proof (writeDefs_loop_files defs 0 [] w0) as EL.
  destruct (writeDefs_loop defs 0 [] w0) as [[[ofs bw]|e] w1];
    simpl in *; [|congruence].
  pose proof (bufio_Flush_files f bw w1 name) as EF.
  rewrite (Hf f eq_refl) in EF. specialize (EF Hne).
  destruct (bufio_Flush f bw w1) as [[e|] w2]; simpl in *; congruence.
Qed.

Lemma writeRefs_frame refs w name :
  name <> unitRefsFilename ->
  files (writeRefs refs w).2 !! name = files w !! name.
Proof.
  intros Hne. unfold writeRefs.
  destruct (vfs_Create_files unitRefsFilename w name Hne) as [EC Hf].
  destruct (vfs_Create unitRefsFilename w) as [[f|e] w0]; [|exact EC].
  rewrite deferred_Close_files. cbv zeta.
  pose proof (writeRefs_loop_files (sort_Sort refs) 0
                (mkWriteRefs 0 ∅ (replicate (length (sort_Sort refs)) 0)
                   "" [] []) w0) as EL.
  destruct (writeRefs_loop 0 (sort_Sort refs) _ w0) as [[s [e|]] w1];
    simpl in *; [congruence|].
  pose proof (bufio_Flush_files f (wr_bw s) w1 name) as EF.
  rewrite (Hf f eq_refl) in EF. specialize (EF Hne).
  destruct (bufio_Flush f (wr_bw s) w1) as [[e|] w2]; simpl in *; congruence.
Qed.

(** [Import] writes def.dat and ref.dat and nothing else: on every path,
    whichever call fails, every other file of the store is as it was.
    When writing def.dat fails, that error is returned and ref.dat is not
    touched either. *)
Theorem Import_changes_only_its_files G w :
  (forall name, name <> unitDefsFilename -> name <> unitRefsFilename ->
     files (Import cleanForImport G w).2 !! name = files w !! name) /\
  (forall e,
     (writeDefs (Output_Defs (cleanForImport G "" "" "")) w).1.2 = Some e ->
     (Import cleanForImport G w).1 = Some e /\
     files (Import cleanForImport G w).2 !! unitRefsFilename
       = files w !! unitRefsFilename).
Proof.
  unfold Import. split.
  - intros name Hd Hr.
    pose proof (writeDefs_frame (Output_Defs (cleanForImport G "" "" "")) w
                  name Hd) as ED.
    destruct (writeDefs _ w) as [[ofs [e|]] w0]; simpl in *; [exact ED|].
    pose proof (writeRefs_frame (Output_Refs (cleanForImport G "" "" "")) w0
                  name Hr) as ER.
    destruct (writeRefs _ w0) as [[[fbr ofs'] [e|]] w1]; simpl in *;
      congruence.
  - intros e.
    pose proof (writeDefs_frame (Output_Defs (cleanForImport G "" "" "")) w
                  unitRefsFilename) as ED.
    destruct (writeDefs _ w) as [[ofs [e'|]] w0]; simpl in *;
      [|discriminate].
    intros [= ->]. split; [reflexivity|]. apply ED. discriminate.
Qed.

End unit_store_frame.

(* ===================================================================== *)
(** ** Reading a store that holds no data file *)

Section unit_store_uninitialized.
Context `{CodecDef : Codec graph_Def} `{CodecRef : Codec graph_Ref}.

Lemma vfs_Open_missing name w :
  files w !! name = None ->
  exists e w', vfs_Open name w = (inr e, w') /\
               (head (faults w) = None \/ head (faults w) = Some None ->
                e = ErrNotExist).
Proof.
  intros Hn. unfold vfs_Open, next_fault.
  destruct (faults w) as [|[c|] l]; simpl; rewrite ?Hn;
    eexists _, _; (split; [reflexivity|]);
    intros [H|H]; try reflexivity; discriminate.
Qed.

(** Before anything was imported the unit store has no def.dat and no
    ref.dat: no read operation succeeds then and none returns a record,
    whatever the VFS does; when the VFS itself reports no failure on
    opening, the error is the one of a file that does not exist. *)
Theorem reads_without_data_files_fail fetcher w :
  files w !! unitDefsFilename = None ->
  files w !! unitRefsFilename = None ->
  exists e1 e2,
    (head (faults w) = None \/ head (faults w) = Some None ->
     e1 = ErrNotExist /\ e2 = ErrNotExist) /\
    (forall fs, (Defs fs w).1 = ([], Some e1)) /\
    (forall fs, (Refs fs w).1 = ([], Some e2)) /\
    (readDefs w).1 = ([], [], Some e1) /\
    (readRefs w).1 = ([], ∅, [], Some e2) /\
    (forall ofs fs, (defsAtOffsets fetcher ofs fs w).1 = ([], Some e1)) /\
    (forall ofs fs, (refsAtOffsets fetcher ofs fs w).1 = ([], Some e2)) /\
    (forall brs fs, exists w',
       refsAtByteRanges fetcher brs fs w = Returns (([], Some e2), w')).
Proof.
  intros Hd Hr.
  destruct (vfs_Open_missing _ _ Hd) as (e1 & w1 & E1 & H1).
  destruct (vfs_Open_missing _ _ Hr) as (e2 & w2 & E2 & H2).
  exists e1, e2. split; [intros H; split; auto|].
  unfold Defs, Refs, readDefs, readRefs, defsAtOffsets, refsAtOffsets,
    refsAtByteRanges.
  rewrite E1, E2. repeat split; eauto.
Qed.

End unit_store_uninitialized.

(* ===================================================================== *)
(** ** Handles and errors of composed operations *)

Lemma closes_opened_app evs1 evs2 :
  closes_opened evs1 -> closes_opened evs2 -> closes_opened (evs1 ++ evs2).
Proof.
  induction evs1 as [|ev evs1 IH]; intros H1 H2; [exact H2|].
  simpl in *. destruct H1 as [Hev H1]. split; [|auto].
  destruct (opened_handle ev); [|exact I].
  destruct Hev as [r Hr]. exists r. apply elem_of_app. left. exact Hr.
Qed.

(** Two file-safe operations run one after the other, the second only
    when the first reported no error, make a file-safe operation. *)
Lemma file_safe_seq {A B C} report
    (op1 : world -> (A * option error) * world)
    (op2 : world -> (B * option error) * world)
    (c1 : A -> C) (c2 : A -> B -> C) :
  file_safe report op1 -> file_safe report op2 ->
  file_safe report
    (λ w, let '((a, err), w1) := op1 w in
          match err with
          | Some e => ((c1 a, Some e), w1)
          | None => let '((b, err2), w2) := op2 w1 in ((c2 a b, err2), w2)
          end).
Proof.
  intros H1 H2 w.
  destruct (H1 w) as (evs1 & T1 & C1 & O1 & E1).
  destruct (op1 w) as [[a [e|]] w1]; simpl in *.
  - exists evs1. auto.
  - destruct (H2 w1) as (evs2 & T2 & C2 & O2 & E2).
    destruct (op2 w1) as [[b err2] w2]; simpl in *.
    exists (evs1 ++ evs2). split; [|split; [|split]].
    + rewrite T2, T1, rev_app_distr, <- app_assoc. reflexivity.
    + apply closes_opened_app; assumption.
    + auto.
    + rewrite first_reported_app, <- E1. exact E2.
Qed.

Section Import_safety.
Context `{CodecDef : Codec graph_Def} `{CodecRef : Codec graph_Ref}.
Context `{SortRefs : Sorter graph_Ref refsByFileStartEnd_Less}.
Variable cleanForImport :
  graph_Output -> string -> string -> string -> graph_Output.

(** [fsUnitStore.Import] as a whole is file-safe: it opens def.dat and,
    when that went well, ref.dat; it closes each handle before it returns,
    on every path, leaves no handle open, and the error it returns is the
    first failure among all the calls it made. *)
Theorem Import_handles_closed_first_error_kept G :
  file_safe event_error
    (λ w, ((tt, (Import cleanForImport G w).1),
           (Import cleanForImport G w).2)).
Proof.
  intros w.
  destruct (file_safe_seq event_error
              (writeDefs (Output_Defs (cleanForImport G "" "" "")))
              (writeRefs (Output_Refs (cleanForImport G "" "" "")))
              (λ _, tt) (λ _ _, tt)
              (writeDefs_safe _) (writeRefs_safe _) w)
    as (evs & T & C & O & E).
  exists evs. unfold Import.
  destruct (writeDefs _ w) as [[ofs [e|]] w0]; simpl in *; [auto|].
  destruct (writeRefs _ w0) as [[[fbr ofs'] [e|]] w1]; simpl in *; auto.
Qed.

End Import_safety.

(* ===================================================================== *)
(** ** Offsets locate records *)

Lemma data_of_app {T} `{Codec T} (a b : list T) :
  data_of (a ++ b) = data_of a ++ data_of b.
Proof. unfold data_of. rewrite fmap_app, concat_app. reflexivity. Qed.

(** In a data file the record number [i] starts right after the records
    before it. *)
Lemma data_of_drop_record {T} `{Codec T} (vs : list T) i v :
  vs !! i = Some v ->
  drop (length (data_of (take i vs))) (data_of vs)
  = encode v ++ data_of (drop (S i) vs).
Proof.
  intros Hv.
  rewrite <- (take_drop_middle vs i v Hv) at 2.
  rewrite data_of_app, data_of_cons, drop_app_length. reflexivity.
Qed.

Lemma record_starts_locates {T} `{Codec T} (vs : list T) i v o :
  vs !! i = Some v ->
  record_starts 0 (encoded_lengths vs) !! i = Some o ->
  0 <= o /\
  drop (Z.to_nat o) (data_of vs) = encode v ++ data_of (drop (S i) vs).
Proof.
  intros Hv Ho.
  rewrite record_starts_lookup in Ho.
  - injection Ho as <-.
    rewrite encoded_lengths_take, <- data_of_length.
    split; [lia|]. rewrite Z.add_0_l, Nat2Z.id.
    apply data_of_drop_record. exact Hv.
  - unfold encoded_lengths. rewrite length_fmap.
    apply lookup_lt_Some in Hv. exact Hv.
Qed.

Lemma rangeReader_ok fetcher bs start n w rest w' :
  rangeReader fetcher bs start n w = (inl rest, w') ->
  0 <= start /\ rest = drop (Z.to_nat start) bs /\ files w' = files w.
Proof.
  unfold rangeReader, next_fault.
  destruct w as [fl oh nh [|[c|] [|[c'|] l]] tr]; destruct fetcher; simpl;
    try discriminate;
    (destruct (decide (start < 0)); [discriminate|]);
    intros [= <- <-]; simpl; repeat split; try lia; reflexivity.
Qed.

Lemma rangeReader_nofault fetcher bs start n w :
  faults w = [] -> 0 <= start ->
  exists w', rangeReader fetcher bs start n w
             = (inl (drop (Z.to_nat start) bs), w') /\
             faults w' = [] /\ files w' = files w.
Proof.
  intros Hf Hs. unfold rangeReader, next_fault.
  destruct fetcher; rewrite Hf; simpl; rewrite ?Hf; simpl;
    rewrite decide_False by lia; eexists; repeat split; simpl; auto.
Qed.

(** A record [v] is located at [o] in [bs] when its encoding starts
    there. *)
Definition located {T} `{Codec T} (bs : list byte) (od : Z * T) : Prop :=
  0 <= od.1 /\ exists rest, drop (Z.to_nat od.1) bs = encode od.2 ++ rest.

Section at_offsets.
Context `{CodecDef : Codec graph_Def} `{CodecRef : Codec graph_Ref}.
Context `{SortRefs : Sorter graph_Ref refsByFileStartEnd_Less}.

Lemma defsAtOffsets_loop_ok fetcher bs fs (sel : list (Z * graph_Def)) :
  Forall (located bs) sel ->
  forall acc w r w',
    defsAtOffsets_loop fetcher bs sel.*1 fs acc w = (inl r, w') ->
    r = acc ++ filter (λ d, SelectDef fs d = true) sel.*2.
Proof.
  induction 1 as [|[o v] sel [Ho [rest Hrest]] _ IH]; intros acc w r w'.
  - simpl. intros [= <- <-]. rewrite app_nil_r. reflexivity.
  - rewrite !fmap_cons. cbn [defsAtOffsets_loop fst snd] in *.
    destruct (rangeReader fetcher bs o 5000 w) as [[rd|e] w0] eqn:ER;
      [|discriminate].
    apply rangeReader_ok in ER as (_ & -> & _). rewrite Hrest.
    destruct (dec_Decode (encode v ++ rest) w0) as [[[[d n] rest']|e] w1]
      eqn:ED; [|discriminate].
    apply dec_Decode_ok in ED as [ED _]. rewrite decode_encode in ED.
    injection ED as <- _. intros E. apply IH in E. subst r.
    rewrite filter_cons.
    destruct (SelectDef fs v) eqn:Es.
    + rewrite decide_True by reflexivity. rewrite <- app_assoc. reflexivity.
    + rewrite decide_False by discriminate. reflexivity.
Qed.

Lemma defsAtOffsets_loop_nofault fetcher bs fs (sel : list (Z * graph_Def)) :
  Forall (located bs) sel ->
  forall acc w, faults w = [] ->
    exists w',
      defsAtOffsets_loop fetcher bs sel.*1 fs acc w
      = (inl (acc ++ filter (λ d, SelectDef fs d = true) sel.*2), w') /\
      faults w' = [].
Proof.
  induction 1 as [|[o v] sel [Ho [rest Hrest]] _ IH]; intros acc w Hf.
  - simpl. rewrite app_nil_r. eauto.
  - rewrite !fmap_cons. cbn [defsAtOffsets_loop fst snd] in *.
    destruct (rangeReader_nofault fetcher bs o 5000 w Hf Ho)
      as (w0 & -> & Hf0 & _).
    rewrite Hrest.
    destruct (dec_Decode (encode v ++ rest) w0) as [r1 w1] eqn:ED.
    apply dec_Decode_cases in ED as (_ & _ & _ & Hn).
    destruct (Hn Hf0) as [-> Hf1]. rewrite decode_result_encoded.
    destruct (IH (if SelectDef fs v then acc ++ [v] else acc) w1 Hf1)
      as (w' & -> & Hf'). exists w'. split; [|exact Hf'].
    rewrite filter_cons.
    destruct (SelectDef fs v) eqn:Es.
    + rewrite decide_True by reflexivity. rewrite <- app_assoc. reflexivity.
    + rewrite decide_False by discriminate. reflexivity.
Qed.

Lemma refsAtOffsets_loop_ok fetcher bs fs (sel : list (Z * graph_Ref)) :
  Forall (located bs) sel ->
  forall acc w r w',
    refsAtOffsets_loop fetcher bs sel.*1 fs acc w = (inl r, w') ->
    r = acc ++ filter (λ d, SelectRef fs d = true) sel.*2.
Proof.
  induction 1 as [|[o v] sel [Ho [rest Hrest]] _ IH]; intros acc w r w'.
  - simpl. intros [= <- <-]. rewrite app_nil_r. reflexivity.
  - rewrite !fmap_cons. cbn [refsAtOffsets_loop fst snd] in *.
    destruct (rangeReader fetcher bs o 500 w) as [[rd|e] w0] eqn:ER;
      [|discriminate].
    apply rangeReader_ok in ER as (_ & -> & _). rewrite Hrest.
    destruct (dec_Decode (encode v ++ rest) w0) as [[[[d n] rest']|e] w1]
      eqn:ED; [|discriminate].
    apply dec_Decode_ok in ED as [ED _]. rewrite decode_encode in ED.
    injection ED as <- _. intros E. apply IH in E. subst r.
    rewrite filter_cons.
    destruct (SelectRef fs v) eqn:Es.
    + rewrite decide_True by reflexivity. rewrite <- app_assoc. reflexivity.
    + rewrite decide_False by discriminate. reflexivity.
Qed.

Lemma refsAtOffsets_loop_nofault fetcher bs fs (sel : list (Z * graph_Ref)) :
  Forall (located bs) sel ->
  forall acc w, faults w = [] ->
    exists w',
      refsAtOffsets_loop fetcher bs sel.*1 fs acc w
      = (inl (acc ++ filter (λ d, SelectRef fs d = true) sel.*2), w') /\
      faults w' = [].
Proof.
  induction 1 as [|[o v] sel [Ho [rest Hrest]] _ IH]; intros acc w Hf.
  - simpl. rewrite app_nil_r. eauto.
  - rewrite !fmap_cons. cbn [refsAtOffsets_loop fst snd] in *.
    destruct (rangeReader_nofault fetcher bs o 500 w Hf Ho)
      as (w0 & -> & Hf0 & _).
    rewrite Hrest.
    destruct (dec_Decode (encode v ++ rest) w0) as [r1 w1] eqn:ED.
    apply dec_Decode_cases in ED as (_ & _ & _ & Hn).
    destruct (Hn Hf0) as [-> Hf1]. rewrite decode_result_encoded.
    destruct (IH (if SelectRef fs v then acc ++ [v] else acc) w1 Hf1)
      as (w' & -> & Hf'). exists w'. split; [|exact Hf'].
    rewrite filter_cons.
    destruct (SelectRef fs v) eqn:Es.
    + rewrite decide_True by reflexivity. rewrite <- app_assoc. reflexivity.
    + rewrite decide_False by discriminate. reflexivity.
Qed.

(** The records at the positions [idx] of a data file, with the offsets
    [ofs] of all its records. *)
Lemma offsets_located {T} `{Codec T} (vs : list T) (idx : list nat) :
  exists sel : list (Z * T),
    sel.*1 = omap (λ i, record_starts 0 (encoded_lengths vs) !! i) idx /\
    sel.*2 = omap (λ i, vs !! i) idx /\
    Forall (located (data_of vs)) sel.
Proof.
  induction idx as [|i idx (sel & E1 & E2 & Hsel)].
  - exists []. repeat split; constructor.
  - cbn [omap list_omap].
    destruct (vs !! i) as [v|] eqn:Ev.
    + assert (i < length (encoded_lengths vs))%nat as Hi.
      { unfold encoded_lengths. rewrite length_fmap.
        apply lookup_lt_Some in Ev. exact Ev. }
      destruct (record_starts 0 (encoded_lengths vs) !! i) as [o|] eqn:Eo.
      * exists ((o, v) :: sel). rewrite !fmap_cons, E1, E2.
        split; [reflexivity|]. split; [reflexivity|].
        constructor; [|exact Hsel].
        destruct (record_starts_locates vs i v o Ev Eo) as [Ho Hd].
        split; [exact Ho|]. eexists. exact Hd.
      * apply lookup_ge_None in Eo. rewrite record_starts_length in Eo. lia.
    + assert (record_starts 0 (encoded_lengths vs) !! i = None) as ->.
      { apply lookup_ge_None. rewrite record_starts_length.
        unfold encoded_lengths. rewrite length_fmap.
        apply lookup_ge_None in Ev. exact Ev. }
      exists sel. auto.
Qed.

(** The offsets [writeDefs] returns locate the defs it wrote: for any
    choice [idx] of positions, in any order and with repetitions,
    [defsAtOffsets] called with the offsets [ofs[i]] of these positions
    returns the defs [defs[i]] that every filter selects, in the order of
    the request; on a VFS that does not fail it does return. *)
Theorem defsAtOffsets_finds_written_defs fetcher defs w ofs w1 :
  writeDefs defs w = ((ofs, None), w1) ->
  Z.of_nat (length (data_of defs)) < 2 ^ 63 ->
  forall (idx : list nat) fs w2,
    files w2 !! unitDefsFilename = files w1 !! unitDefsFilename ->
    let found :=
      filter (λ d, SelectDef fs d = true) (omap (λ i, defs !! i) idx) in
    (forall r w3,
       defsAtOffsets fetcher (omap (λ i, ofs !! i) idx) fs w2
         = ((r, None), w3) -> r = found) /\
    (faults w2 = [] ->
     exists w3, defsAtOffsets fetcher (omap (λ i, ofs !! i) idx) fs w2
                = ((found, None), w3)).
Proof.
  intros EW Hb idx fs w2 Hsame found.
  apply writeDefs_ok in EW as [-> Hfile]; [|exact Hb].
  rewrite Hfile in Hsame.
  destruct (offsets_located defs idx) as (sel & <- & E2 & Hsel).
  subst found. rewrite <- E2. unfold defsAtOffsets. split.
  - intros r w3.
    destruct (vfs_Open unitDefsFilename w2) as [[[f bs]|e] w0] eqn:EO;
      [|discriminate].
    apply vfs_Open_ok in EO as [Hbs _]. rewrite Hsame in Hbs.
    injection Hbs as <-. intros E.
    apply deferred_Close_ok in E as (w4 & E & _).
    destruct (defsAtOffsets_loop _ _ _ _ _ w0) as [[ds|e] w5] eqn:EL;
      [|discriminate].
    injection E as <- _.
    apply (defsAtOffsets_loop_ok _ _ _ _ Hsel) in EL. exact EL.
  - intros Hf.
    destruct (vfs_Open_nofault _ _ _ Hf Hsame) as (f & w0 & -> & Hf0 & _).
    destruct (defsAtOffsets_loop_nofault fetcher (data_of defs) fs sel Hsel
                [] w0 Hf0) as (w5 & EL & Hf5).
    unfold deferred_Close. rewrite EL.
    destruct (file_Close f w5) as [err2 w6] eqn:EC.
    apply file_Close_frame in EC as [_ Hn]. destruct (Hn Hf5) as [-> _].
    eauto.
Qed.


(** The offsets [writeRefs] fills in, one slot per ref. *)
Lemma writeRefs_loop_ofs refs : forall i s w s' w',
  writeRefs_loop i refs s w = ((s', None), w') ->
  0 <= wr_o s ->
  wr_o s + Z.of_nat (length (data_of refs)) < 2 ^ 63 ->
  (i + length refs <= length (wr_ofs s))%nat ->
  wr_o s' = wr_o s + Z.of_nat (length (data_of refs)) /\
  wr_ofs s' = take i (wr_ofs s)
              ++ record_starts (wr_o s) (encoded_lengths refs)
              ++ drop (i + length refs) (wr_ofs s).
Proof.
  induction refs as [|ref refs IH]; intros i s w s' w'.
  - simpl. intros [= <- <-] _ _ _. rewrite Nat.add_0_r, take_drop.
    split; [lia|reflexivity].
  - cbn [writeRefs_loop]. rewrite data_of_cons, length_app.
    intros E Ho Hb Hlen. simpl in Hlen.
    assert (exists fbr lastFile lfbr n bw1 w1,
      enc_Encode ref (wr_bw s) w = (inl (n, bw1), w1) /\
      writeRefs_loop (S i) refs
        (mkWriteRefs (u64 (wr_o s + n)) fbr
           (<[i := int64 (wr_o s)]> (wr_ofs s)) lastFile lfbr bw1) w1
      = ((s', None), w')) as (fbr & lastFile & lfbr & n & bw1 & w1 & EE & EL).
    { destruct (decide (wr_lastFile s ≠ Ref_File ref)) as [Hne|Heq];
        (destruct (enc_Encode ref (wr_bw s) w) as [[[n bw1]|e] w1] eqn:EE;
         [|discriminate]); eauto 10. }
    clear E. apply enc_Encode_ok in EE as (-> & _ & _ & _).
    rewrite u64_small in EL by lia.
    apply IH in EL; cbn [wr_o wr_ofs] in *;
      [|lia|lia|rewrite length_insert; lia].
    destruct EL as [-> ->]. split; [lia|].
    rewrite int64_small by lia.
    rewrite take_insert_lt by lia.
    rewrite drop_insert_lt by lia.
    unfold encoded_lengths. rewrite fmap_cons. cbn [record_starts].
    assert (is_Some (wr_ofs s !! i)) as [x Hx].
    { apply lookup_lt_is_Some. lia. }
    rewrite (take_S_r _ _ _ Hx).
    rewrite insert_app_r_alt by (rewrite length_take; lia).
    rewrite length_take, Nat.min_l by lia. rewrite Nat.sub_diag.
    simpl. rewrite <- app_assoc. simpl.
    replace (i + S (length refs))%nat with (S (i + length refs))%nat by lia.
    reflexivity.
Qed.

(** What a successful [writeRefs] leaves and returns: the file holds the
    sorted refs and [ofs[i]] is the offset at which the [i]-th of them
    starts. *)
Lemma writeRefs_ok refs w fbr ofs w' :
  writeRefs refs w = ((fbr, ofs, None), w') ->
  Z.of_nat (length (data_of (sort_Sort refs))) < 2 ^ 63 ->
  ofs = record_starts 0 (encoded_lengths (sort_Sort refs)) /\
  files w' !! unitRefsFilename = Some (data_of (sort_Sort refs)).
Proof.
  intros E Hb. split.
  - revert E. unfold writeRefs.
    destruct (vfs_Create unitRefsFilename w) as [[f|e] w0] eqn:EC;
      [|discriminate].
    intros E. apply deferred_Close_ok in E as (w1 & E & _).
    destruct (writeRefs_loop 0 (sort_Sort refs) _ w0) as [[s [e|]] w2] eqn:EL;
      [discriminate|].
    destruct (bufio_Flush f (wr_bw s) w2) as [[e|] w3] eqn:EF;
      [discriminate|].
    injection E as _ <- _.
    apply writeRefs_loop_ofs in EL; cbn [wr_o wr_ofs] in *;
      [|lia|lia|rewrite length_replicate; lia].
    destruct EL as [_ ->].
    rewrite take_0, drop_ge by (rewrite length_replicate; lia).
    rewrite app_nil_r. reflexivity.
  - apply writeRefs_files in E. rewrite E. apply lookup_insert_eq.
Qed.

Lemma readRefs_fold refs : forall s,
  0 <= rr_o s ->
  rr_o s + Z.of_nat (length (data_of refs)) < 2 ^ 63 ->
  let s' := fold_left (λ s v, readRefs_body s v (length (encode v))) refs s in
  rr_o s' = rr_o s + Z.of_nat (length (data_of refs)) /\
  rr_refs s' = rr_refs s ++ refs /\
  rr_ofs s' = rr_ofs s ++ record_starts (rr_o s) (encoded_lengths refs).
Proof.
  induction refs as [|ref refs IH]; intros s Ho Hb.
  - simpl. rewrite !app_nil_r. repeat split. lia.
  - rewrite data_of_cons, length_app in Hb. cbn [fold_left].
    set (s1 := readRefs_body s ref (length (encode ref))).
    assert (rr_o s1 = rr_o s + Z.of_nat (length (encode ref))) as Ho1.
    { subst s1. unfold readRefs_body. cbn [rr_o].
      rewrite (int64_small (Z.of_nat _)) by lia. apply int64_small. lia. }
    assert (rr_refs s1 = rr_refs s ++ [ref]) as Hr1 by reflexivity.
    assert (rr_ofs s1 = rr_ofs s ++ [rr_o s]) as Hf1 by reflexivity.
    destruct (IH s1) as (E1 & E2 & E3); [lia|lia|].
    cbv zeta. rewrite E1, E2, E3, Ho1, Hr1, Hf1.
    rewrite data_of_cons, length_app.
    unfold encoded_lengths. rewrite fmap_cons. cbn [record_starts].
    rewrite <- !app_assoc. repeat split. lia.
Qed.

(** [readRefs] rebuilds the offsets [writeRefs] computed: on the ref.dat
    that [writeRefs] wrote, [readRefs] returns the refs in their sorted
    order and the same [ofs] as [writeRefs], one offset per ref, each the
    size of the records before it; on a VFS that does not fail it does
    return.  (The byte ranges it rebuilds are another matter.) *)
Theorem readRefs_writeRefs_offsets refs w fbr ofs w1 :
  writeRefs refs w = ((fbr, ofs, None), w1) ->
  Z.of_nat (length (data_of (sort_Sort refs))) < 2 ^ 63 ->
  length ofs = length refs /\
  (forall i, (i < length refs)%nat ->
     ofs !! i = Some (Z.of_nat (length (data_of (take i (sort_Sort refs)))))) /\
  forall w2, files w2 !! unitRefsFilename = files w1 !! unitRefsFilename ->
    (forall refs_r fbrs_r ofs_r w3,
       readRefs w2 = ((refs_r, fbrs_r, ofs_r, None), w3) ->
       refs_r = sort_Sort refs /\ ofs_r = ofs) /\
    (faults w2 = [] ->
     exists fbrs_r w3,
       readRefs w2 = ((sort_Sort refs, fbrs_r, ofs, None), w3)).
Proof.
  intros EW Hb. apply writeRefs_ok in EW as [-> Hfile]; [|exact Hb].
  assert (length (sort_Sort refs) = length refs) as Hlen.
  { apply Permutation_length, sort_Sort_perm. }
  split.
  { rewrite record_starts_length. unfold encoded_lengths.
    rewrite length_fmap. exact Hlen. }
  split.
  { intros i Hi. rewrite record_starts_lookup.
    - rewrite encoded_lengths_take, <- data_of_length. reflexivity.
    - unfold encoded_lengths. rewrite length_fmap. lia. }
  intros w2 Hsame. rewrite Hfile in Hsame.
  pose proof (readRefs_fold (sort_Sort refs) (mkReadRefs 0 ∅ "" [] []))
    as Hfold.
  cbn [rr_o rr_refs rr_ofs] in Hfold.
  destruct Hfold as (_ & Hr & Ho); [lia|lia|]. simpl in Hr, Ho.
  unfold readRefs. split.
  - intros refs_r fbrs_r ofs_r w3.
    destruct (vfs_Open unitRefsFilename w2) as [[[f bs]|e] w0] eqn:EO;
      [|discriminate].
    apply vfs_Open_ok in EO as [Hbs _]. rewrite Hsame in Hbs.
    injection Hbs as <-. intros E.
    apply deferred_Close_ok in E as (w4 & E & _).
    destruct (scan _ _ _ _ w0) as [[s|e] w5] eqn:ES; [|discriminate].
    injection E as <- _ <- _.
    apply scan_encoded in ES; [|unfold data_of; lia].
    subst s. split; assumption.
  - intros Hf.
    destruct (vfs_Open_nofault _ _ _ Hf Hsame) as (f & w0 & -> & Hf0 & _).
    destruct (scan_encoded_nofault readRefs_body (sort_Sort refs)
                (S (length (data_of (sort_Sort refs))))
                (mkReadRefs 0 ∅ "" [] []) w0)
      as (w5 & ES & Hf5 & _); [unfold data_of; lia|assumption|].
    unfold deferred_Close. unfold data_of in *. rewrite ES.
    destruct (file_Close f w5) as [err2 w6] eqn:EC.
    apply file_Close_frame in EC as [_ Hn]. destruct (Hn Hf5) as [-> _].
    rewrite Hr, Ho. eauto.
Qed.

(** The offsets [writeRefs] returns locate the refs it wrote, in their
    sorted order: for any choice [idx] of positions, [refsAtOffsets] called
    with the offsets [ofs[i]] returns the refs at these positions of the
    sorted sequence that every filter selects, in the order of the
    request; on a VFS that does not fail it does return. *)
Theorem refsAtOffsets_finds_written_refs fetcher refs w fbr ofs w1 :
  writeRefs refs w = ((fbr, ofs, None), w1) ->
  Z.of_nat (length (data_of (sort_Sort refs))) < 2 ^ 63 ->
  forall (idx : list nat) fs w2,
    files w2 !! unitRefsFilename = files w1 !! unitRefsFilename ->
    let found :=
      filter (λ r, SelectRef fs r = true)
             (omap (λ i, sort_Sort refs !! i) idx) in
    (forall r w3,
       refsAtOffsets fetcher (omap (λ i, ofs !! i) idx) fs w2
         = ((r, None), w3) -> r = found) /\
    (faults w2 = [] ->
     exists w3, refsAtOffsets fetcher (omap (λ i, ofs !! i) idx) fs w2
                = ((found, None), w3)).
Proof.
  intros EW Hb idx fs w2 Hsame found.
  apply writeRefs_ok in EW as [-> Hfile]; [|exact Hb].
  rewrite Hfile in Hsame.
  destruct (offsets_located (sort_Sort refs) idx) as (sel & <- & E2 & Hsel).
  subst found. rewrite <- E2. unfold refsAtOffsets. split.
  - intros r w3.
    destruct (vfs_Open unitRefsFilename w2) as [[[f bs]|e] w0] eqn:EO;
      [|discriminate].
    apply vfs_Open_ok in EO as [Hbs _]. rewrite Hsame in Hbs.
    injection Hbs as <-. intros E.
    apply deferred_Close_ok in E as (w4 & E & _).
    destruct (refsAtOffsets_loop _ _ _ _ _ w0) as [[ds|e] w5] eqn:EL;
      [|discriminate].
    injection E as <- _.
    apply (refsAtOffsets_loop_ok _ _ _ _ Hsel) in EL. exact EL.
  - intros Hf.
    destruct (vfs_Open_nofault _ _ _ Hf Hsame) as (f & w0 & -> & Hf0 & _).
    destruct (refsAtOffsets_loop_nofault fetcher (data_of (sort_Sort refs))
                fs sel Hsel [] w0 Hf0) as (w5 & EL & Hf5).
    unfold deferred_Close. rewrite EL.
    destruct (file_Close f w5) as [err2 w6] eqn:EC.
    apply file_Close_frame in EC as [_ Hn]. destruct (Hn Hf5) as [-> _].
    eauto.
Qed.


Lemma defsAtOffsets_loop_app fetcher bs fs ofs1 ofs2 : forall acc w,
  defsAtOffsets_loop fetcher bs (ofs1 ++ ofs2) fs acc w
  = match defsAtOffsets_loop fetcher bs ofs1 fs acc w with
    | (inl acc', w') => defsAtOffsets_loop fetcher bs ofs2 fs acc' w'
    | (inr e, w') => (inr e, w')
    end.
Proof.
  induction ofs1 as [|o ofs1 IH]; intros acc w; [reflexivity|].
  cbn [app defsAtOffsets_loop].
  destruct (rangeReader fetcher bs o 5000 w) as [[rd|e] w0]; [|reflexivity].
  destruct (dec_Decode rd w0) as [[[[d n] rest']|e] w1]; [|reflexivity].
  apply IH.
Qed.

Lemma refsAtOffsets_loop_app fetcher bs fs ofs1 ofs2 : forall acc w,
  refsAtOffsets_loop fetcher bs (ofs1 ++ ofs2) fs acc w
  = match refsAtOffsets_loop fetcher bs ofs1 fs acc w with
    | (inl acc', w') => refsAtOffsets_loop fetcher bs ofs2 fs acc' w'
    | (inr e, w') => (inr e, w')
    end.
Proof.
  induction ofs1 as [|o ofs1 IH]; intros acc w; [reflexivity|].
  cbn [app refsAtOffsets_loop].
  destruct (rangeReader fetcher bs o 500 w) as [[rd|e] w0]; [|reflexivity].
  destruct (dec_Decode rd w0) as [[[[d n] rest']|e] w1]; [|reflexivity].
  apply IH.
Qed.

(** Reading at the end of the data, no fault striking, is [io.EOF]. *)
Lemma dec_Decode_past_end {T} `{Codec T} (bs : list byte) o w :
  faults w = [] -> Z.of_nat (length bs) <= o ->
  exists w', @dec_Decode T _ (drop (Z.to_nat o) bs) w = (inr EOF, w').
Proof.
  intros Hf Ho. rewrite drop_ge by lia.
  destruct (@dec_Decode T _ [] w) as [r w'] eqn:E.
  apply dec_Decode_cases in E as (_ & _ & _ & Hn).
  destruct (Hn Hf) as [-> _]. rewrite decode_result_nil. eauto.
Qed.

(** In [Defs] and [Refs] the end of the data ends the loop; in
    [defsAtOffsets] and [refsAtOffsets] it is an error.  An offset at or
    past the end of the data file makes the call fail with [io.EOF], and
    none of the records read for the offsets before it is returned. *)
Theorem offset_past_the_end_is_EOF fetcher w bsd bsr :
  files w !! unitDefsFilename = Some bsd ->
  files w !! unitRefsFilename = Some bsr ->
  faults w = [] ->
  (forall (sel : list (Z * graph_Def)) o more fs,
     Forall (located bsd) sel -> Z.of_nat (length bsd) <= o ->
     (defsAtOffsets fetcher (sel.*1 ++ o :: more) fs w).1
     = ([], Some EOF)) /\
  (forall (sel : list (Z * graph_Ref)) o more fs,
     Forall (located bsr) sel -> Z.of_nat (length bsr) <= o ->
     (refsAtOffsets fetcher (sel.*1 ++ o :: more) fs w).1
     = ([], Some EOF)).
Proof.
  intros Hd Hr Hf. split; intros sel o more fs Hsel Ho.
  - unfold defsAtOffsets.
    destruct (vfs_Open_nofault _ _ _ Hf Hd) as (f & w0 & -> & Hf0 & _).
    unfold deferred_Close. rewrite defsAtOffsets_loop_app.
    destruct (defsAtOffsets_loop_nofault fetcher bsd fs sel Hsel [] w0 Hf0)
      as (w1 & -> & Hf1).
    cbn [defsAtOffsets_loop].
    destruct (rangeReader_nofault fetcher bsd o 5000 w1 Hf1)
      as (w2 & -> & Hf2 & _); [lia|].
    destruct (@dec_Decode_past_end graph_Def _ bsd o w2 Hf2 Ho) as [w3 ->].
    destruct (file_Close f w3) as [err2 w4]. reflexivity.
  - unfold refsAtOffsets.
    destruct (vfs_Open_nofault _ _ _ Hf Hr) as (f & w0 & -> & Hf0 & _).
    unfold deferred_Close. rewrite refsAtOffsets_loop_app.
    destruct (refsAtOffsets_loop_nofault fetcher bsr fs sel Hsel [] w0 Hf0)
      as (w1 & -> & Hf1).
    cbn [refsAtOffsets_loop].
    destruct (rangeReader_nofault fetcher bsr o 500 w1 Hf1)
      as (w2 & -> & Hf2 & _); [lia|].
    destruct (@dec_Decode_past_end graph_Ref _ bsr o w2 Hf2 Ho) as [w3 ->].
    destruct (file_Close f w3) as [err2 w4]. reflexivity.
Qed.

End at_offsets.

(* ===================================================================== *)
(** ** The byte ranges of [writeRefs] *)

Lemma str_ltb_trichotomy a b :
  a <> b -> str_ltb b a = false -> str_ltb a b = true.
Proof.
  intros Hne H. destruct (str_ltb a b) eqn:E; [reflexivity|].
  exfalso. apply Hne. apply str_ltb_total; assumption.
Qed.

Lemma str_ltb_false_trans a b c :
  str_ltb b a = false -> str_ltb c b = false -> str_ltb c a = false.
Proof. unfold str_ltb. apply lex_ltb_false_trans. Qed.

Lemma sorted_refs_file_le (refs : list graph_Ref) :
  StronglySorted (λ a b, refsByFileStartEnd_Less b a = false) refs ->
  StronglySorted file_le refs.
Proof.
  induction 1 as [|x l _ IH Hx]; constructor; [exact IH|].
  eapply List.Forall_impl; [|exact Hx].
  intros y Hy. apply refsByFileStartEnd_Less_false in Hy as [Hy _]. exact Hy.
Qed.

Section file_order.
Context `{CodecRef : Codec graph_Ref}.

Lemma refs_before_snoc F pre r :
  refs_before F (pre ++ [r])
  = refs_before F pre ++ (if str_ltb (Ref_File r) F then [r] else []).
Proof.
  unfold refs_before. rewrite list.filter_app, filter_cons, filter_nil.
  destruct (str_ltb (Ref_File r) F).
  - rewrite decide_True by reflexivity. reflexivity.
  - rewrite decide_False by discriminate. reflexivity.
Qed.

Lemma file_refs_snoc F pre r :
  file_refs F (pre ++ [r])
  = file_refs F pre ++ (if decide (Ref_File r = F) then [r] else []).
Proof.
  unfold file_refs. rewrite list.filter_app, filter_cons, filter_nil.
  destruct (decide (Ref_File r = F)); reflexivity.
Qed.

Lemma range_of_snoc_other F pre r :
  Ref_File r <> F -> str_ltb (Ref_File r) F = false ->
  range_of F (pre ++ [r]) = range_of F pre.
Proof.
  intros Hne Hlt. unfold range_of.
  rewrite refs_before_snoc, file_refs_snoc, Hlt.
  rewrite decide_False by exact Hne. rewrite !app_nil_r. reflexivity.
Qed.

Lemma range_of_snoc_same pre r :
  range_of (Ref_File r) (pre ++ [r])
  = range_of (Ref_File r) pre ++ [Z.of_nat (length (encode r))].
Proof.
  unfold range_of.
  rewrite refs_before_snoc, file_refs_snoc, str_ltb_irrefl.
  rewrite decide_True by reflexivity. rewrite app_nil_r.
  unfold encoded_lengths. rewrite !fmap_app. reflexivity.
Qed.

Lemma last_file_snoc pre r : last_file (pre ++ [r]) = Ref_File r.
Proof. unfold last_file. rewrite last_snoc. reflexivity. Qed.

Lemma last_file_elem pre :
  pre <> [] -> exists l, l ∈ pre /\ Ref_File l = last_file pre.
Proof.
  intros Hne. destruct (list.last pre) as [l|] eqn:E.
  - exists l. split; [apply last_Some_elem_of; exact E|].
    unfold last_file. rewrite E. reflexivity.
  - apply last_None in E. contradiction.
Qed.

(** In file order a new file has no ref yet, and every ref written so far
    belongs to a file that sorts before it. *)
Lemma new_file_fresh pre r :
  StronglySorted file_le (pre ++ [r]) ->
  Ref_File r <> last_file pre ->
  Forall (λ x, str_ltb (Ref_File x) (Ref_File r) = true) pre.
Proof.
  intros Hs Hne. apply list.Forall_forall. intros x Hx.
  assert (str_ltb (Ref_File r) (Ref_File x) = false) as Hrx.
  { apply (StronglySorted_app_1_elem_of file_le pre [r] x r Hs Hx).
    apply list_elem_of_singleton. reflexivity. }
  apply str_ltb_trichotomy; [|exact Hrx].
  intros Heq. apply Hne.
  destruct (list.last pre) as [l|] eqn:E;
    [|apply last_None in E; subst; inversion Hx].
  unfold last_file. rewrite E. simpl.
  apply last_Some in E as [pre' ->].
  apply str_ltb_total.
  - apply (StronglySorted_app_1_elem_of file_le (pre' ++ [l]) [r] l r Hs).
    + apply elem_of_app. right. apply list_elem_of_singleton. reflexivity.
    + apply list_elem_of_singleton. reflexivity.
  - rewrite <- Heq.
    apply StronglySorted_app_1_l in Hs.
    apply elem_of_app in Hx as [Hx|Hx].
    + apply (StronglySorted_app_1_elem_of file_le pre' [l] x l Hs Hx).
      apply list_elem_of_singleton. reflexivity.
    + apply list_elem_of_singleton in Hx. subst x. apply str_ltb_irrefl.
Qed.

Lemma refs_before_all F pre :
  Forall (λ x, str_ltb (Ref_File x) F = true) pre -> refs_before F pre = pre.
Proof.
  unfold refs_before. induction 1 as [|x l Hx _ IH]; [reflexivity|].
  rewrite filter_cons_True by exact Hx. rewrite IH. reflexivity.
Qed.

Lemma file_refs_none F pre :
  Forall (λ x, str_ltb (Ref_File x) F = true) pre -> file_refs F pre = [].
Proof.
  unfold file_refs. induction 1 as [|x l Hx _ IH]; [reflexivity|].
  rewrite filter_cons_False; [exact IH|].
  intros Heq. rewrite Heq, str_ltb_irrefl in Hx. discriminate.
Qed.

Lemma elem_of_files_snoc F pre r :
  F ∈ Ref_File <$> (pre ++ [r]) <-> F ∈ Ref_File <$> pre \/ F = Ref_File r.
Proof.
  rewrite fmap_app, elem_of_app. simpl. rewrite list_elem_of_singleton.
  reflexivity.
Qed.

Lemma file_elem_le pre r F :
  StronglySorted file_le (pre ++ [r]) ->
  F ∈ Ref_File <$> pre -> str_ltb (Ref_File r) F = false.
Proof.
  intros Hs HF. apply list_elem_of_fmap in HF as (x & -> & Hx).
  apply (StronglySorted_app_1_elem_of file_le pre [r] x r Hs Hx).
  apply list_elem_of_singleton. reflexivity.
Qed.

(** One turn of the loop of [writeRefs] keeps the invariant. *)
Lemma writeRefs_inv_step pre r s :
  StronglySorted file_le (pre ++ [r]) ->
  Z.of_nat (length (data_of (pre ++ [r]))) < 2 ^ 63 ->
  writeRefs_inv pre s ->
  let o := wr_o s in
  let n := Z.of_nat (length (encode r)) in
  forall fbr lastFile lfbr ofs bw,
    (fbr, lastFile, lfbr)
    = (if decide (wr_lastFile s ≠ Ref_File r) then
         ((if decide (wr_lastFile s ≠ "") then
             <[wr_lastFile s := wr_lastFileByteRanges s]> (wr_fbr s)
           else wr_fbr s),
          Ref_File r, [int64 o])
       else (wr_fbr s, wr_lastFile s, wr_lastFileByteRanges s)) ->
    writeRefs_inv (pre ++ [r])
      (mkWriteRefs (u64 (o + n)) fbr ofs lastFile
         (lfbr ++ [int64 (u64 (u64 (o + n) - o))]) bw).
Proof.
  intros Hs Hb [Ho HL Hlfbr Hfbr] o n fbr lastFile lfbr ofs bw Hstep.
  rewrite data_of_app, length_app in Hb.
  assert (data_of [r] = encode r) as Hr1.
  { unfold data_of. simpl. apply app_nil_r. }
  rewrite Hr1 in Hb.
  assert (u64 (o + n) = o + n) as Ho'.
  { subst o n. rewrite Ho. apply u64_small. lia. }
  assert (int64 (u64 (u64 (o + n) - o)) = n) as Hn.
  { rewrite Ho'. replace (o + n - o) with n by lia.
    subst n. rewrite u64_small by lia. apply int64_small. lia. }
  assert (int64 o = o) as Hio.
  { subst o. rewrite Ho. apply int64_small. lia. }
  rewrite Hn, Ho'.
  destruct (decide (wr_lastFile s ≠ Ref_File r)) as [Hne|Heq].
  - (* a new file starts *)
    injection Hstep as -> -> ->.
    assert (Forall (λ x, str_ltb (Ref_File x) (Ref_File r) = true) pre)
      as Hfresh.
    { apply new_file_fresh; [exact Hs|]. rewrite <- HL. auto. }
    assert (Ref_File r ∉ Ref_File <$> pre) as Hnot.
    { intros Hin. apply list_elem_of_fmap in Hin as (x & Hx1 & Hx2).
      rewrite list.Forall_forall in Hfresh. specialize (Hfresh x Hx2).
      rewrite <- Hx1, str_ltb_irrefl in Hfresh. discriminate. }
    constructor; cbn [wr_o wr_lastFile wr_lastFileByteRanges wr_fbr].
    + rewrite data_of_app, length_app, Hr1. subst o n. lia.
    + rewrite last_file_snoc. reflexivity.
    + intros _. unfold range_of.
      rewrite refs_before_snoc, file_refs_snoc, str_ltb_irrefl.
      rewrite decide_True by reflexivity.
      rewrite refs_before_all, file_refs_none by exact Hfresh.
      rewrite app_nil_r, Hio. subst o n. rewrite Ho. reflexivity.
    + intros F.
      destruct (decide (F = wr_lastFile s)) as [->|HFL].
      * (* the file that just ended *)
        destruct (decide (wr_lastFile s ≠ "")) as [HL0|HL0].
        -- rewrite lookup_insert_eq, (Hlfbr HL0).
           assert (wr_lastFile s ∈ Ref_File <$> pre) as Hin.
           { destruct (last_file_elem pre) as (l & Hl & El).
             - intros ->. apply HL0. rewrite HL. reflexivity.
             - rewrite HL, <- El. apply list_elem_of_fmap. eauto. }
           rewrite decide_True.
           ++ f_equal. symmetry. apply range_of_snoc_other; [auto|].
              eapply file_elem_le; eassumption.
           ++ split; [exact HL0|]. split; [exact Hne|].
              apply elem_of_files_snoc. left. exact Hin.
        -- apply dec_stable in HL0. rewrite Hfbr.
           rewrite decide_False by (rewrite HL0; tauto).
           rewrite decide_False by (rewrite HL0; tauto). reflexivity.
      * assert ((if decide (wr_lastFile s ≠ "")
                 then <[wr_lastFile s := wr_lastFileByteRanges s]> (wr_fbr s)
                 else wr_fbr s) !! F = wr_fbr s !! F) as ->.
        { destruct (decide (wr_lastFile s ≠ "")); [|reflexivity].
          apply lookup_insert_ne. auto. }
        rewrite Hfbr.
        destruct (decide (F = Ref_File r)) as [->|HFR].
        -- rewrite decide_False by tauto.
           rewrite decide_False by tauto. reflexivity.
        -- destruct (decide (F ≠ "" /\ F ≠ wr_lastFile s
                             /\ F ∈ Ref_File <$> pre)) as [(H1 & H2 & H3)|Hn'].
           ++ rewrite decide_True.
              ** f_equal. symmetry. apply range_of_snoc_other; [auto|].
                 eapply file_elem_le; eassumption.
              ** split; [exact H1|]. split; [exact HFR|].
                 apply elem_of_files_snoc. left. exact H3.
           ++ rewrite decide_False; [reflexivity|].
              intros (H1 & H2 & H3). apply Hn'.
              split; [exact H1|]. split; [exact HFL|].
              apply elem_of_files_snoc in H3 as [H3|H3];
                [exact H3|contradiction].
  - (* one more ref of the same file *)
    apply dec_stable in Heq. injection Hstep as -> -> ->.
    constructor; cbn [wr_o wr_lastFile wr_lastFileByteRanges wr_fbr].
    + rewrite data_of_app, length_app, Hr1. subst o n. lia.
    + rewrite last_file_snoc. exact Heq.
    + intros HL0. rewrite (Hlfbr HL0), Heq. symmetry.
      apply range_of_snoc_same.
    + intros F. rewrite Hfbr.
      destruct (decide (F ≠ "" /\ F ≠ wr_lastFile s
                        /\ F ∈ Ref_File <$> pre)) as [(H1 & H2 & H3)|Hn'].
      * rewrite decide_True.
        -- f_equal. symmetry. apply range_of_snoc_other.
           ++ rewrite <- Heq. auto.
           ++ eapply file_elem_le; eassumption.
        -- split; [exact H1|]. split; [exact H2|].
           apply elem_of_files_snoc. left. exact H3.
      * rewrite decide_False; [reflexivity|].
        intros (H1 & H2 & H3). apply Hn'.
        split; [exact H1|]. split; [exact H2|].
        apply elem_of_files_snoc in H3 as [H3|H3]; [exact H3|].
        rewrite <- Heq in H3. contradiction.
Qed.


Lemma writeRefs_loop_inv suf : forall pre i s w s' w',
  StronglySorted file_le (pre ++ suf) ->
  Z.of_nat (length (data_of (pre ++ suf))) < 2 ^ 63 ->
  writeRefs_inv pre s ->
  writeRefs_loop i suf s w = ((s', None), w') ->
  writeRefs_inv (pre ++ suf) s'.
Proof.
  induction suf as [|r suf IH]; intros pre i s w s' w' Hs Hb Hinv.
  - simpl. intros [= <- <-]. rewrite app_nil_r. exact Hinv.
  - cbn [writeRefs_loop].
    replace (pre ++ r :: suf) with ((pre ++ [r]) ++ suf) in *
      by (rewrite <- app_assoc; reflexivity).
    assert (Z.of_nat (length (data_of (pre ++ [r]))) < 2 ^ 63) as Hb1.
    { rewrite (data_of_app (pre ++ [r])), length_app in Hb. lia. }
    pose proof (writeRefs_inv_step pre r s
                  (StronglySorted_app_1_l _ _ _ Hs) Hb1 Hinv) as Hstep.
    cbv zeta in Hstep.
    destruct (if decide (wr_lastFile s ≠ Ref_File r) then _ else _)
      as [[fbr lastFile] lfbr] eqn:Eif.
    destruct (enc_Encode r (wr_bw s) w) as [[[n bw1]|e] w1] eqn:EE;
      [|discriminate].
    apply enc_Encode_ok in EE as (-> & _ & _ & _).
    intros EL. eapply IH; [exact Hs|exact Hb| |exact EL].
    apply Hstep. reflexivity.
Qed.

Lemma sorted_files_perm (refs refs' : list graph_Ref) F :
  refs ≡ₚ refs' -> F ∈ Ref_File <$> refs <-> F ∈ Ref_File <$> refs'.
Proof. intros Hp. rewrite Hp. reflexivity. Qed.

Section writeRefs_ranges.
Context `{SortRefs : Sorter graph_Ref refsByFileStartEnd_Less}.

(** The range [writeRefs] returns for a file, from the invariant of its
    loop. *)
Lemma writeRefs_range_lookup refs w fbr ofs w1 :
  writeRefs refs w = ((fbr, ofs, None), w1) ->
  Z.of_nat (length (data_of (sort_Sort refs))) < 2 ^ 63 ->
  forall F,
    fbr !! F
    = if decide (F ≠ "" /\ F ∈ Ref_File <$> refs)
      then Some (range_of F (sort_Sort refs)) else None.
Proof.
  unfold writeRefs. intros E Hb F.
  destruct (vfs_Create unitRefsFilename w) as [[f|e] w0] eqn:EC;
    [|discriminate].
  apply deferred_Close_ok in E as (w2 & E & _). cbv zeta in E.
  destruct (writeRefs_loop 0 (sort_Sort refs) _ w0) as [[s [e|]] w3] eqn:EL;
    [discriminate|].
  destruct (bufio_Flush f (wr_bw s) w3) as [[e|] w4] eqn:EF;
    [discriminate|].
  injection E as <- _ _.
  apply (writeRefs_loop_inv (sort_Sort refs) []) in EL.
  - simpl in EL. destruct EL as [Ho HL Hlfbr Hfbr].
    assert (forall G, G ∈ Ref_File <$> sort_Sort refs
                      <-> G ∈ Ref_File <$> refs) as Hperm.
    { intros G. apply sorted_files_perm. apply sort_Sort_perm. }
    destruct (decide (wr_lastFile s ≠ "")) as [HL0|HL0].
    + destruct (decide (F = wr_lastFile s)) as [->|HFL].
      * rewrite lookup_insert_eq, (Hlfbr HL0).
        rewrite decide_True; [reflexivity|].
        split; [exact HL0|]. apply Hperm.
        destruct (last_file_elem (sort_Sort refs)) as (l & Hl & El).
        { intros Hnil. apply HL0. rewrite HL, Hnil. reflexivity. }
        rewrite HL, <- El. apply list_elem_of_fmap. eauto.
      * rewrite lookup_insert_ne by auto. rewrite Hfbr.
        destruct (decide (F ≠ "" /\ F ≠ wr_lastFile s
                          /\ F ∈ Ref_File <$> sort_Sort refs))
          as [(H1 & H2 & H3)|Hn'].
        -- rewrite decide_True; [reflexivity|].
           split; [exact H1|]. apply Hperm. exact H3.
        -- rewrite decide_False; [reflexivity|].
           intros [H1 H3]. apply Hn'. split; [exact H1|].
           split; [exact HFL|]. apply Hperm. exact H3.
    + apply dec_stable in HL0. rewrite Hfbr.
      destruct (decide (F ≠ "" /\ F ≠ wr_lastFile s
                        /\ F ∈ Ref_File <$> sort_Sort refs))
        as [(H1 & H2 & H3)|Hn'].
      * rewrite decide_True; [reflexivity|].
        split; [exact H1|]. apply Hperm. exact H3.
      * rewrite decide_False; [reflexivity|].
        intros [H1 H3]. apply Hn'. split; [exact H1|].
        split; [rewrite HL0; exact H1|]. apply Hperm. exact H3.
  - simpl. apply sorted_refs_file_le. apply sort_Sort_sorted.
  - simpl. exact Hb.
  - constructor; simpl; try reflexivity.
    + intros H. contradiction.
    + intros G. rewrite lookup_empty.
      rewrite decide_False; [reflexivity|].
      intros (_ & _ & H). inversion H.
Qed.

(** The byte ranges [writeRefs] returns: a file has a range exactly when
    its name is not empty and some ref belongs to it, and the range is the
    offset at which the first ref of the file starts followed by the
    encoded length of each of its refs, in their sorted order.  Refs whose
    [File] is empty are written but get no range. *)
Theorem writeRefs_fileByteRanges refs w fbr ofs w1 :
  writeRefs refs w = ((fbr, ofs, None), w1) ->
  Z.of_nat (length (data_of (sort_Sort refs))) < 2 ^ 63 ->
  forall F,
    fbr !! F
    = if decide (F ≠ "" /\ F ∈ Ref_File <$> refs)
      then Some (range_of F (sort_Sort refs)) else None.
Proof.
  intros EW Hb F.
  pose proof (writeRefs_range_lookup refs w fbr ofs w1 EW Hb F) as H.
  destruct (decide (F ≠ "" /\ F ∈ Ref_File <$> refs)); exact H.
Qed.

End writeRefs_ranges.

End file_order.

(* ===================================================================== *)
(** ** Byte ranges locate the refs of a file *)

Lemma filter_none {A} (P : A -> Prop) `{forall x, Decision (P x)}
    (l : list A) :
  Forall (λ x, ~ P x) l -> filter P l = [].
Proof.
  induction 1 as [|x l Hx _ IH]; [reflexivity|].
  rewrite filter_cons_False by exact Hx. exact IH.
Qed.

Section byte_ranges_locate.
Context `{CodecRef : Codec graph_Ref}.
Context `{SortRefs : Sorter graph_Ref refsByFileStartEnd_Less}.

(** In file order the refs of a file stand together, right after the refs
    of the files that sort before it. *)
Lemma file_sorted_split F (rs : list graph_Ref) :
  StronglySorted file_le rs ->
  exists aft, rs = refs_before F rs ++ file_refs F rs ++ aft.
Proof.
  induction 1 as [|x rs Hs [aft IH] Hx].
  - exists []. reflexivity.
  - unfold refs_before, file_refs in *. rewrite !filter_cons.
    destruct (str_ltb (Ref_File x) F) eqn:ExF.
    + rewrite decide_True by reflexivity.
      rewrite decide_False.
      * exists aft. simpl. f_equal. exact IH.
      * intros Heq. rewrite Heq, str_ltb_irrefl in ExF. discriminate.
    + rewrite decide_False by discriminate.
      assert (filter (λ r, str_ltb (Ref_File r) F = true) rs = []) as Hb.
      { apply filter_none. apply list.Forall_forall. intros y Hy Hlt.
        rewrite list.Forall_forall in Hx. specialize (Hx y Hy).
        unfold file_le in Hx.
        rewrite (str_ltb_false_trans _ _ _ ExF Hx) in Hlt. discriminate. }
      rewrite Hb in *. simpl in *.
      destruct (decide (Ref_File x = F)) as [HxF|HxF].
      * exists aft. simpl. f_equal. exact IH.
      * assert (filter (λ r, Ref_File r = F) rs = []) as Hm.
        { apply filter_none. apply list.Forall_forall. intros y Hy Heq.
          rewrite list.Forall_forall in Hx. specialize (Hx y Hy).
          unfold file_le in Hx. rewrite Heq in Hx.
          rewrite (str_ltb_trichotomy F (Ref_File x)) in Hx;
            [discriminate|auto|exact ExF]. }
        rewrite Hm. exists (x :: rs). reflexivity.
Qed.

(** A byte range [br] locates the refs [vs] in [bs]: it starts with the
    offset at which the encoding of [vs] begins and has one length for
    each of them. *)
Definition range_located (bs : list byte)
    (bv : byteRanges * list graph_Ref) : Prop :=
  exists start lens rest,
    bv.1 = start :: lens /\ 0 <= start /\ length lens = length bv.2 /\
    drop (Z.to_nat start) bs = data_of bv.2 ++ rest.

Lemma refsAtByteRanges_decode_ok fs (vs : list graph_Ref) :
  forall rest acc w r w',
    refsAtByteRanges_decode (length vs) fs (data_of vs ++ rest) acc w
      = (inl r, w') ->
    r = acc ++ filter (λ d, SelectRef fs d = true) vs.
Proof.
  induction vs as [|v vs IH]; intros rest acc w r w'.
  - simpl. intros [= <- <-]. rewrite app_nil_r. reflexivity.
  - rewrite data_of_cons, <- app_assoc. cbn [length refsAtByteRanges_decode].
    destruct (dec_Decode _ w) as [[[[d n] rest']|e] w1] eqn:ED;
      [|discriminate].
    apply dec_Decode_ok in ED as [ED ->]. rewrite decode_encode in ED.
    injection ED as <- <-. rewrite drop_app_length.
    intros E. apply IH in E. subst r.
    rewrite filter_cons.
    destruct (SelectRef fs v) eqn:Es.
    + rewrite decide_True by reflexivity. rewrite <- app_assoc. reflexivity.
    + rewrite decide_False by discriminate. reflexivity.
Qed.

Lemma refsAtByteRanges_decode_nofault fs (vs : list graph_Ref) :
  forall rest acc w, faults w = [] ->
    exists w',
      refsAtByteRanges_decode (length vs) fs (data_of vs ++ rest) acc w
      = (inl (acc ++ filter (λ d, SelectRef fs d = true) vs), w') /\
      faults w' = [].
Proof.
  induction vs as [|v vs IH]; intros rest acc w Hf.
  - simpl. rewrite app_nil_r. eauto.
  - rewrite data_of_cons, <- app_assoc. cbn [length refsAtByteRanges_decode].
    destruct (dec_Decode _ w) as [r1 w1] eqn:ED.
    apply dec_Decode_cases in ED as (_ & _ & _ & Hn).
    destruct (Hn Hf) as [-> Hf1]. rewrite decode_result_encoded.
    destruct (IH rest (if SelectRef fs v then acc ++ [v] else acc) w1 Hf1)
      as (w' & -> & Hf'). exists w'. split; [|exact Hf'].
    rewrite filter_cons.
    destruct (SelectRef fs v) eqn:Es.
    + rewrite decide_True by reflexivity. rewrite <- app_assoc. reflexivity.
    + rewrite decide_False by discriminate. reflexivity.
Qed.

Lemma refsAtByteRanges_loop_ok fetcher bs fs
    (sel : list (byteRanges * list graph_Ref)) :
  Forall (range_located bs) sel ->
  forall acc w r w',
    refsAtByteRanges_loop fetcher bs sel.*1 fs acc w = (inl r, w') ->
    r = acc ++ filter (λ d, SelectRef fs d = true) (concat sel.*2).
Proof.
  induction 1 as [|[br vs] sel (start & lens & rest & Hbr & Hs & Hl & Hd) _ IH];
    intros acc w r w'.
  - simpl. intros [= <- <-]. rewrite app_nil_r. reflexivity.
  - rewrite !fmap_cons. cbn [refsAtByteRanges_loop fst snd concat] in *.
    subst br. cbn [skipn head default from_option]. unfold id.
    rewrite !drop_0.
    destruct (rangeReader fetcher bs start
                (foldl (λ n b, int64 (n + b)) 0 lens) w) as [[rd|e] w0] eqn:ER;
      [|discriminate].
    apply rangeReader_ok in ER as (_ & -> & _). rewrite Hd, Hl.
    destruct (refsAtByteRanges_decode _ _ _ _ w0) as [[acc'|e] w1] eqn:EDec;
      [|discriminate].
    apply refsAtByteRanges_decode_ok in EDec. subst acc'.
    intros E. apply IH in E. subst r.
    rewrite list.filter_app, app_assoc. reflexivity.
Qed.

Lemma refsAtByteRanges_loop_nofault fetcher bs fs
    (sel : list (byteRanges * list graph_Ref)) :
  Forall (range_located bs) sel ->
  forall acc w, faults w = [] ->
    exists w',
      refsAtByteRanges_loop fetcher bs sel.*1 fs acc w
      = (inl (acc ++ filter (λ d, SelectRef fs d = true) (concat sel.*2)), w')
      /\ faults w' = [].
Proof.
  induction 1 as [|[br vs] sel (start & lens & rest & Hbr & Hs & Hl & Hd) _ IH];
    intros acc w Hf.
  - simpl. rewrite app_nil_r. eauto.
  - rewrite !fmap_cons. cbn [refsAtByteRanges_loop fst snd concat] in *.
    subst br. cbn [skipn head default from_option]. unfold id.
    rewrite !drop_0.
    destruct (rangeReader_nofault fetcher bs start
                (foldl (λ n b, int64 (n + b)) 0 lens) w Hf Hs)
      as (w0 & -> & Hf0 & _).
    rewrite Hd, Hl.
    destruct (refsAtByteRanges_decode_nofault fs vs rest acc w0 Hf0)
      as (w1 & -> & Hf1).
    destruct (IH (acc ++ filter (λ d, SelectRef fs d = true) vs) w1 Hf1)
      as (w' & -> & Hf').
    exists w'. split; [|exact Hf'].
    rewrite list.filter_app, app_assoc. reflexivity.
Qed.

Lemma range_of_located (rs : list graph_Ref) F :
  StronglySorted file_le rs ->
  range_located (data_of rs) (range_of F rs, file_refs F rs).
Proof.
  intros Hs. destruct (file_sorted_split F rs Hs) as [aft Hsplit].
  exists (Z.of_nat (length (data_of (refs_before F rs)))),
         (Z.of_nat <$> encoded_lengths (file_refs F rs)),
         (data_of aft).
  cbn [fst snd]. split; [reflexivity|]. split; [lia|]. split.
  - unfold encoded_lengths. rewrite !length_fmap. reflexivity.
  - rewrite Nat2Z.id. rewrite Hsplit at 2.
    rewrite !data_of_app, drop_app_length. reflexivity.
Qed.

(** The byte ranges [writeRefs] returns locate the refs of each file: for
    any list [Fs] of file names, [refsAtByteRanges] called with the ranges
    of those of them that have one returns the refs of these files that
    every filter selects, file after file in the order of the request and
    within a file in sorted order; it does not panic, and on a VFS that
    does not fail it returns. *)
Theorem refsAtByteRanges_finds_refs_of_files fetcher refs w fbr ofs w1 :
  writeRefs refs w = ((fbr, ofs, None), w1) ->
  Z.of_nat (length (data_of (sort_Sort refs))) < 2 ^ 63 ->
  forall (Fs : list string) fs w2,
    files w2 !! unitRefsFilename = files w1 !! unitRefsFilename ->
    let found :=
      filter (λ r, SelectRef fs r = true)
        (concat ((λ F, file_refs F (sort_Sort refs))
                   <$> filter (λ F, F ≠ "") Fs)) in
    (exists r, refsAtByteRanges fetcher (omap (λ F, fbr !! F) Fs) fs w2
               = Returns r) /\
    (forall r w3,
       refsAtByteRanges fetcher (omap (λ F, fbr !! F) Fs) fs w2
         = Returns ((r, None), w3) -> r = found) /\
    (faults w2 = [] ->
     exists w3, refsAtByteRanges fetcher (omap (λ F, fbr !! F) Fs) fs w2
                = Returns ((found, None), w3)).
Proof.
  intros EW Hb Fs fs w2 Hsame found.
  pose proof (writeRefs_range_lookup refs w fbr ofs w1 EW Hb) as Hfbr.
  apply writeRefs_ok in EW as [_ Hfile]; [|exact Hb].
  rewrite Hfile in Hsame.
  assert (StronglySorted file_le (sort_Sort refs)) as Hsorted.
  { apply sorted_refs_file_le, sort_Sort_sorted. }
  assert (exists sel : list (byteRanges * list graph_Ref),
            sel.*1 = omap (λ F, fbr !! F) Fs /\
            concat sel.*2
            = concat ((λ F, file_refs F (sort_Sort refs))
                        <$> filter (λ F, F ≠ "") Fs) /\
            Forall (range_located (data_of (sort_Sort refs))) sel)
    as (sel & E1 & E2 & Hsel).
  { clear found. induction Fs as [|F Fs (sel & E1 & E2 & Hsel)].
    - exists []. repeat split; constructor.
    - cbn [omap list_omap]. rewrite filter_cons, Hfbr.
      destruct (decide (F ≠ "" /\ F ∈ Ref_File <$> refs)) as [[H1 H2]|Hn].
      + exists ((range_of F (sort_Sort refs), file_refs F (sort_Sort refs))
                  :: sel).
        rewrite decide_True by exact H1.
        rewrite !fmap_cons, E1. cbn [concat fst snd]. rewrite E2.
        repeat split. constructor; [|exact Hsel].
        apply range_of_located. exact Hsorted.
      + exists sel. split; [exact E1|]. split; [|exact Hsel].
        rewrite E2. destruct (decide (F ≠ "")) as [H1|H1]; [|reflexivity].
        rewrite fmap_cons. cbn [concat].
        assert (file_refs F (sort_Sort refs) = []) as ->; [|reflexivity].
        apply filter_none. apply list.Forall_forall. intros y Hy Heq.
        apply Hn. split; [exact H1|].
        rewrite <- (sort_Sort_perm refs). rewrite <- Heq.
        apply list_elem_of_fmap. eauto. }
  subst found. rewrite <- E1, <- E2.
  assert (bool_decide (Exists (λ br : list Z, br = []) sel.*1) = false)
    as Hnopanic.
  { apply bool_decide_eq_false. rewrite list.Exists_exists.
    intros (br & Hin & ->).
    apply list_elem_of_fmap in Hin as ([br vs] & Hbr & Hin).
    rewrite list.Forall_forall in Hsel.
    destruct (Hsel _ Hin) as (start & lens & rest & Hbr' & _).
    simpl in *. congruence. }
  unfold refsAtByteRanges. rewrite Hnopanic. split; [|split].
  - destruct (vfs_Open unitRefsFilename w2) as [[[f bs]|e] w0]; eauto.
  - intros r w3.
    destruct (vfs_Open unitRefsFilename w2) as [[[f bs]|e] w0] eqn:EO;
      [|discriminate].
    apply vfs_Open_ok in EO as [Hbs _]. rewrite Hsame in Hbs.
    injection Hbs as <-. intros [= E].
    apply deferred_Close_ok in E as (w4 & E & _).
    destruct (refsAtByteRanges_loop _ _ _ _ _ w0) as [[ds|e] w5] eqn:EL;
      [|discriminate].
    injection E as <- _.
    apply (refsAtByteRanges_loop_ok _ _ _ _ Hsel) in EL. exact EL.
  - intros Hf.
    destruct (vfs_Open_nofault _ _ _ Hf Hsame) as (f & w0 & -> & Hf0 & _).
    destruct (refsAtByteRanges_loop_nofault fetcher
                (data_of (sort_Sort refs)) fs sel Hsel [] w0 Hf0)
      as (w5 & EL & Hf5).
    unfold deferred_Close. rewrite EL.
    destruct (file_Close f w5) as [err2 w6] eqn:EC.
    apply file_Close_frame in EC as [_ Hn]. destruct (Hn Hf5) as [-> _].
    eauto.
Qed.

End byte_ranges_locate.

(* ===================================================================== *)
(** ** Handles and errors of the positioned reads *)

Lemma body_safe_bind {A B} report
    (run1 : world -> (A + error) * world)
    (run2 : A -> world -> (B + error) * world) w :
  body_safe report sum_error run1 w ->
  (forall a w', body_safe report sum_error (run2 a) w') ->
  body_safe report sum_error
    (λ w, let '(r, w1) := run1 w in
          match r with
          | inl a => run2 a w1
          | inr e => (inr e, w1)
          end) w.
Proof.
  intros (evs1 & T1 & Q1 & O1 & E1) H2. unfold body_safe. cbv beta.
  destruct (run1 w) as [[a|e] w1]; simpl in *.
  - destruct (H2 a w1) as (evs2 & T2 & Q2 & O2 & E2).
    exists (evs1 ++ evs2). split; [|split; [|split]].
    + rewrite T2, T1, rev_app_distr, <- app_assoc. reflexivity.
    + apply Forall_app. split; assumption.
    + congruence.
    + rewrite first_reported_app, <- E1. exact E2.
  - exists evs1. auto.
Qed.

Lemma dec_Decode_safe {T} `{Codec T} rest w :
  body_safe event_error sum_error (@dec_Decode T _ rest) w.
Proof.
  destruct (dec_Decode_trace rest w) as [Htr Hop].
  exists [EvDecode (sum_error (dec_Decode rest w).1)].
  destruct (dec_Decode rest w) as [[[[v n] rest']|e] w0]; simpl in *;
    repeat split; auto.
Qed.

Lemma rangeReader_safe fetcher bs start n w :
  body_safe event_error sum_error (rangeReader fetcher bs start n) w.
Proof.
  unfold body_safe, rangeReader, next_fault.
  destruct w as [fl oh nh [|[c|] [|[c'|] l]] tr]; destruct fetcher; simpl;
    try (destruct (decide (start < 0)); simpl);
    try (eexists [_]; simpl; repeat split; auto; fail);
    try (eexists [_; _]; simpl; repeat split; auto; fail).
Qed.

Lemma body_safe_ext {R} report (err_of : R -> option error)
    (run run' : world -> R * world) w :
  run w = run' w -> body_safe report err_of run' w ->
  body_safe report err_of run w.
Proof. unfold body_safe. intros ->. auto. Qed.

Lemma body_safe_pure {A} report (a : A) w :
  body_safe report sum_error (λ w, (inl a, w)) w.
Proof. exists []. simpl. auto. Qed.

Section positioned_reads.
Context `{CodecDef : Codec graph_Def} `{CodecRef : Codec graph_Ref}.

Lemma defsAtOffsets_loop_safe fetcher bs fs ofs : forall acc w,
  body_safe event_error sum_error
    (defsAtOffsets_loop fetcher bs ofs fs acc) w.
Proof.
  induction ofs as [|o ofs IH]; intros acc w; [apply body_safe_pure|].
  apply (body_safe_bind event_error (rangeReader fetcher bs o 5000)
           (λ rest w,
              let '(r, w) := dec_Decode rest w in
              match r with
              | inr e => (inr e, w)
              | inl (def, _, _) =>
                  defsAtOffsets_loop fetcher bs ofs fs
                    (if SelectDef fs def then acc ++ [def] else acc) w
              end)); [apply rangeReader_safe|].
  intros rest w'.
  eapply body_safe_ext;
    [|apply (body_safe_bind event_error (dec_Decode rest)
               (λ (x : graph_Def * nat * list byte) w,
                  defsAtOffsets_loop fetcher bs ofs fs
                    (if SelectDef fs x.1.1 then acc ++ [x.1.1] else acc) w));
      [apply dec_Decode_safe|intros [[d n] r] w''; apply IH]].
  cbv beta. destruct (dec_Decode rest w') as [[[[d n] r]|e] w1]; reflexivity.
Qed.

Lemma refsAtOffsets_loop_safe fetcher bs fs ofs : forall acc w,
  body_safe event_error sum_error
    (refsAtOffsets_loop fetcher bs ofs fs acc) w.
Proof.
  induction ofs as [|o ofs IH]; intros acc w; [apply body_safe_pure|].
  apply (body_safe_bind event_error (rangeReader fetcher bs o 500)
           (λ rest w,
              let '(r, w) := dec_Decode rest w in
              match r with
              | inr e => (inr e, w)
              | inl (ref, _, _) =>
                  refsAtOffsets_loop fetcher bs ofs fs
                    (if SelectRef fs ref then acc ++ [ref] else acc) w
              end)); [apply rangeReader_safe|].
  intros rest w'.
  eapply body_safe_ext;
    [|apply (body_safe_bind event_error (dec_Decode rest)
               (λ (x : graph_Ref * nat * list byte) w,
                  refsAtOffsets_loop fetcher bs ofs fs
                    (if SelectRef fs x.1.1 then acc ++ [x.1.1] else acc) w));
      [apply dec_Decode_safe|intros [[d n] r] w''; apply IH]].
  cbv beta. destruct (dec_Decode rest w') as [[[[d n] r]|e] w1]; reflexivity.
Qed.

Lemma refsAtByteRanges_decode_safe fs k : forall rest acc w,
  body_safe event_error sum_error (refsAtByteRanges_decode k fs rest acc) w.
Proof.
  induction k as [|k IH]; intros rest acc w; [apply body_safe_pure|].
  eapply body_safe_ext;
    [|apply (body_safe_bind event_error (dec_Decode rest)
               (λ (x : graph_Ref * nat * list byte) w,
                  refsAtByteRanges_decode k fs x.2
                    (if SelectRef fs x.1.1 then acc ++ [x.1.1] else acc) w));
      [apply dec_Decode_safe|intros [[d n] r] w''; apply IH]].
  cbn [refsAtByteRanges_decode].
  destruct (dec_Decode rest w) as [[[[d n] r]|e] w1]; reflexivity.
Qed.

Lemma refsAtByteRanges_loop_safe fetcher bs fs brs : forall acc w,
  body_safe event_error sum_error
    (refsAtByteRanges_loop fetcher bs brs fs acc) w.
Proof.
  induction brs as [|br brs IH]; intros acc w; [apply body_safe_pure|].
  apply (body_safe_bind event_error
           (rangeReader fetcher bs (default 0 (head br))
              (foldl (λ n b, int64 (n + b)) 0 (drop 1 br)))
           (λ rest w,
              let '(r, w) :=
                refsAtByteRanges_decode (length (drop 1 br)) fs rest acc w in
              match r with
              | inr e => (inr e, w)
              | inl refs' => refsAtByteRanges_loop fetcher bs brs fs refs' w
              end)); [apply rangeReader_safe|].
  intros rest w'.
  apply (body_safe_bind event_error
           (refsAtByteRanges_decode (length (drop 1 br)) fs rest acc)
           (λ refs' w, refsAtByteRanges_loop fetcher bs brs fs refs' w));
    [apply refsAtByteRanges_decode_safe|intros; apply IH].
Qed.

(** From a loop result to the results of the call. *)
Lemma loop_body_safe {A} (run : world -> (list A + error) * world) w :
  body_safe event_error sum_error run w ->
  body_safe event_error snd
    (λ w, let '(r, w) := run w in
          match r with
          | inr e => (([], Some e), w)
          | inl l => ((l, None), w)
          end) w.
Proof.
  intros (evs & H1 & H2 & H3 & H4). unfold body_safe. cbv beta.
  exists evs. destruct (run w) as [[l|e] w1]; simpl in *; auto.
Qed.

(** The reads at offsets and at byte ranges are file-safe as well: on
    every path, whichever fetch, seek or decode fails, the handle opened
    on the data file is closed, no handle is left open, and the error
    returned is the first failure of the call ([io.EOF] included, which is
    a failure here).  [refsAtByteRanges] is taken on byte ranges none of
    which is empty: on these it returns. *)
Theorem positioned_reads_handles_closed fetcher :
  (forall ofs fs, file_safe event_error (defsAtOffsets fetcher ofs fs)) /\
  (forall ofs fs, file_safe event_error (refsAtOffsets fetcher ofs fs)) /\
  (forall brs fs,
     Forall (λ br : list Z, br ≠ []) brs ->
     exists op,
       file_safe event_error op /\
       forall w, refsAtByteRanges fetcher brs fs w = Returns (op w)).
Proof.
  split; [|split].
  - intros ofs fs.
    apply (with_Open_safe event_error unitDefsFilename
             (λ e, ([], Some e))
             (λ f bs w,
                let '(r, w) := defsAtOffsets_loop fetcher bs ofs fs [] w in
                match r with
                | inr e => (([], Some e), w)
                | inl defs => ((defs, None), w)
                end)); try reflexivity.
    intros f bs w. apply loop_body_safe, defsAtOffsets_loop_safe.
  - intros ofs fs.
    apply (with_Open_safe event_error unitRefsFilename
             (λ e, ([], Some e))
             (λ f bs w,
                let '(r, w) := refsAtOffsets_loop fetcher bs ofs fs [] w in
                match r with
                | inr e => (([], Some e), w)
                | inl refs => ((refs, None), w)
                end)); try reflexivity.
    intros f bs w. apply loop_body_safe, refsAtOffsets_loop_safe.
  - intros brs fs Hbrs.
    exists (λ w, let '(r, w) := vfs_Open unitRefsFilename w in
                 match r with
                 | inr e => (([], Some e), w)
                 | inl (f, bs) =>
                     deferred_Close f (λ w,
                       let '(r, w) :=
                         refsAtByteRanges_loop fetcher bs brs fs [] w in
                       match r with
                       | inr e => (([], Some e), w)
                       | inl refs => ((refs, None), w)
                       end) w
                 end).
    split.
    + apply (with_Open_safe event_error unitRefsFilename
               (λ e, ([], Some e))
               (λ f bs w,
                  let '(r, w) :=
                    refsAtByteRanges_loop fetcher bs brs fs [] w in
                  match r with
                  | inr e => (([], Some e), w)
                  | inl refs => ((refs, None), w)
                  end)); try reflexivity.
      intros f bs w. apply loop_body_safe, refsAtByteRanges_loop_safe.
    + intros w. unfold refsAtByteRanges.
      destruct (vfs_Open unitRefsFilename w) as [[[f bs]|e] w0];
        [|reflexivity].
      rewrite bool_decide_eq_false_2; [reflexivity|].
      rewrite list.Exists_exists. intros (br & Hin & ->).
      rewrite list.Forall_forall in Hbrs. apply (Hbrs [] Hin). reflexivity.
Qed.

End positioned_reads.

(* ===================================================================== *)
(** ** The order of units; [Build] and its panics *)

(** [unitID2s.Less] is a strict total order on unit IDs, by name and then
    by type: no ID is less than itself, the relation is transitive, and of
    two different IDs exactly one is less than the other.  So the sorted
    order of a set of units is unique. *)
Theorem unitID2s_Less_strict_total_order :
  (forall a, unitID2s_Less a a = false) /\
  (forall a b c,
     unitID2s_Less a b = true -> unitID2s_Less b c = true ->
     unitID2s_Less a c = true) /\
  (forall a b, unitID2s_Less a b = true -> unitID2s_Less b a = false) /\
  (forall a b, a <> b ->
     unitID2s_Less a b = true \/ unitID2s_Less b a = true).
Proof.
  assert (forall a b, unitID2s_Less a b = false -> unitID2s_Less b a = false
                      -> a = b) as Hanti.
  { intros [ta na] [tb nb] H1 H2.
    apply unitID2s_Less_false in H1 as [H1 H1'].
    apply unitID2s_Less_false in H2 as [H2 H2']. simpl in *.
    assert (na = nb) as -> by (apply str_ltb_total; assumption).
    f_equal. apply str_ltb_total; auto. }
  assert (forall a b, unitID2s_Less a b = true -> unitID2s_Less b a = false)
    as Hasym.
  { intros a b Hab.
    pose proof (unitID2s_le_total a b) as [H|H]; unfold unitID2s_le in H;
      [exact H|congruence]. }
  split; [|split; [|split]].
  - intros a. apply unitID2s_Less_false. rewrite !str_ltb_irrefl. auto.
  - intros a b c Hab Hbc.
    destruct (unitID2s_Less a c) eqn:Hac; [reflexivity|].
    pose proof (unitID2s_le_trans c a b) as H. unfold unitID2s_le in H.
    rewrite H in Hbc; [discriminate|exact Hac|apply Hasym; exact Hab].
  - exact Hasym.
  - intros a b Hne.
    destruct (unitID2s_Less a b) eqn:Hab; [auto|].
    destruct (unitID2s_Less b a) eqn:Hba; [auto|].
    exfalso. apply Hne. apply Hanti; assumption.
Qed.

Global Instance unitID2s_le_antisymm : AntiSymm (=) unitID2s_le.
Proof.
  intros [ta na] [tb nb] H1 H2. unfold unitID2s_le in *.
  apply unitID2s_Less_false in H1 as [H1 H1'].
  apply unitID2s_Less_false in H2 as [H2 H2']. simpl in *.
  assert (na = nb) as -> by (apply str_ltb_total; assumption).
  f_equal. apply str_ltb_total; auto.
Qed.

Lemma foldl_Build_unit_Panics unitNums xs msg :
  foldl (Build_unit unitNums) (Panics msg) xs = Panics msg.
Proof. induction xs as [|x xs IH]; [reflexivity|exact IH]. Qed.

Section Build_units_props.
Context `{SortUnits : Sorter ID2 unitID2s_Less}.
Context `{SortStrings : Sorter (list rune) lex_ltb}.

(** [Build] recovers from a panic: when the index of some unit has no
    table (a nil pointer in Go) the traversal panics, [Build] returns the
    error made from the recovered panic, and the tree index is left as it
    was, table and readiness included. *)
Theorem Build_recovers_from_nil_unit_table x xs env u qx :
  (u, qx) ∈ xs -> dq_mt qx = None ->
  Build x xs env = (Some ErrRecovered, x).
Proof.
  intros Hin Hnil.
  assert (exists msg, Build_termToUOffs xs = Panics msg) as [msg E].
  { unfold Build_termToUOffs.
    generalize (Build_unitNums (Build_units xs)). intros nums.
    generalize (Returns ∅ : outcome (gmap (list N) (list unitOffsets))).
    induction xs as [|y ys IH]; intros acc; [inversion Hin|].
    apply elem_of_cons in Hin as [<-|Hin].
    - simpl. unfold Build_unit at 2. simpl. rewrite Hnil.
      destruct acc as [m|msg]; rewrite foldl_Build_unit_Panics; eauto.
    - simpl. apply IH. exact Hin. }
  unfold Build. rewrite E. reflexivity.
Qed.

End Build_units_props.

(* ===================================================================== *)
(** ** The words of the def-query tree *)

Lemma words_Node f k es :
  words (Node f k es) = (if f then [[]] else []) ++ edge_words es.
Proof.
  cbn [words]. f_equal. unfold edge_words.
  induction es as [|[c child] es IH]; [reflexivity|].
  rewrite fmap_cons. cbn [concat fst snd]. rewrite IH. reflexivity.
Qed.

Lemma edge_words_cons c child es :
  edge_words ((c, child) :: es) = ((c ::.) <$> words child) ++ edge_words es.
Proof. reflexivity. Qed.

Lemma edge_words_app es1 es2 :
  edge_words (es1 ++ es2) = edge_words es1 ++ edge_words es2.
Proof. unfold edge_words. rewrite fmap_app, concat_app. reflexivity. Qed.

Lemma elem_of_edge_words w es :
  w ∈ edge_words es <->
  exists c child w', (c, child) ∈ es /\ w' ∈ words child /\ w = c :: w'.
Proof.
  induction es as [|[c child] es IH].
  - split; [intros H; inversion H|].
    intros (c & child & w' & H & _). inversion H.
  - rewrite edge_words_cons, elem_of_app, IH, list_elem_of_fmap. split.
    + intros [(w' & -> & Hw')|(c' & child' & w' & He & Hw' & ->)].
      * exists c, child, w'. repeat split; [left|assumption].
      * exists c', child', w'. repeat split; [right; assumption|assumption].
    + intros (c' & child' & w' & He & Hw' & ->).
      apply elem_of_cons in He as [[= -> ->]|He]; [left; eauto|].
      right. eauto 10.
Qed.

Lemma words_number_node n : words (number_node n) = words n.
Proof.
  induction n as [f k es IH] using MinTreeNode_nested_ind.
  rewrite number_node_Node, !words_Node. f_equal.
  unfold edge_words. rewrite <- list_fmap_compose. f_equal.
  apply Forall_fmap_ext_1. eapply List.Forall_impl; [|exact IH].
  intros [c child] H. simpl in *. rewrite H. reflexivity.
Qed.

(** A well numbered node weighs as many words as it has. *)
Lemma well_numbered_words n :
  well_numbered n -> weight n = Z.of_nat (length (words n)).
Proof.
  induction n as [f k es IH] using MinTreeNode_nested_ind.
  inversion 1 as [f' es' Hes]; subst.
  rewrite words_Node, length_app. unfold weight. simpl.
  assert (sum_weights es = Z.of_nat (length (edge_words es))) as ->.
  { clear H. induction es as [|[c child] es IHes]; [reflexivity|].
    inversion IH as [|? ? Hc IH']; subst.
    inversion Hes as [|? ? Hc' Hes']; subst.
    rewrite sum_weights_cons, edge_words_cons, length_app, length_fmap.
    rewrite (IHes IH' Hes'). simpl in Hc. rewrite (Hc Hc'). lia. }
  destruct f; simpl; lia.
Qed.

Lemma sum_weights_words es :
  Forall (λ e, well_numbered e.2) es ->
  sum_weights es = Z.of_nat (length (edge_words es)).
Proof.
  induction 1 as [|[c child] es Hc _ IH]; [reflexivity|].
  rewrite sum_weights_cons, edge_words_cons, length_app, length_fmap, IH.
  simpl in Hc. rewrite (well_numbered_words _ Hc). lia.
Qed.

(** *** Inserting a word *)

Lemma elem_of_words_alter_edge c (f : MinTreeNode -> MinTreeNode) t es w :
  (forall n w', w' ∈ words (f n) <-> w' = t \/ w' ∈ words n) ->
  w ∈ edge_words (alter_edge c f es) <-> w = c :: t \/ w ∈ edge_words es.
Proof.
  intros Hf. induction es as [|[c' child] es IH].
  - cbn [alter_edge]. rewrite edge_words_cons, elem_of_app, list_elem_of_fmap.
    split.
    + intros [(w' & -> & Hw')|H]; [|inversion H].
      apply Hf in Hw' as [->|H]; [auto|inversion H].
    + intros [->|H]; [|inversion H]. left. exists t. split; [reflexivity|].
      apply Hf. auto.
  - cbn [alter_edge]. destruct (N.eqb_spec c c') as [->|Hne].
    + rewrite !edge_words_cons, !elem_of_app, !list_elem_of_fmap. split.
      * intros [(w' & -> & Hw')|H]; [|auto].
        apply Hf in Hw' as [->|H]; eauto.
      * intros [->|[(w' & -> & Hw')|H]]; [| |auto].
        -- left. exists t. split; [reflexivity|]. apply Hf. auto.
        -- left. exists w'. split; [reflexivity|]. apply Hf. auto.
    + destruct (c <? c')%N.
      * rewrite edge_words_cons, elem_of_app, list_elem_of_fmap. split.
        -- intros [(w' & -> & Hw')|H]; [|auto].
           apply Hf in Hw' as [->|H]; [auto|inversion H].
        -- intros [->|H]; [|auto]. left. exists t. split; [reflexivity|].
           apply Hf. auto.
      * rewrite !edge_words_cons, !elem_of_app, IH. tauto.
Qed.

Lemma elem_of_words_trie_insert t : forall n w,
  w ∈ words (trie_insert t n) <-> w = t \/ w ∈ words n.
Proof.
  induction t as [|c t IH]; intros [f k es] w; cbn [trie_insert Final Number Edges];
    rewrite !words_Node, !elem_of_app.
  - rewrite list_elem_of_singleton. destruct f.
    + rewrite list_elem_of_singleton. tauto.
    + split; [intros [H|H]; auto|intros [H|[H|H]]; auto; inversion H].
  - rewrite (elem_of_words_alter_edge c (trie_insert t) t es w IH). tauto.
Qed.

Lemma alter_edge_keys (P : rune -> Prop) c (f : MinTreeNode -> MinTreeNode) es :
  P c -> Forall (λ e, P e.1) es -> Forall (λ e, P e.1) (alter_edge c f es).
Proof.
  intros Hc. induction 1 as [|[c' child] es Hc' Hes IH]; cbn [alter_edge].
  - repeat constructor. exact Hc.
  - destruct (c =? c')%N; [constructor; assumption|].
    destruct (c <? c')%N; repeat constructor; assumption.
Qed.

Lemma alter_edge_sorted c (f : MinTreeNode -> MinTreeNode) es :
  StronglySorted (λ a b : rune * MinTreeNode, (a.1 < b.1)%N) es ->
  StronglySorted (λ a b : rune * MinTreeNode, (a.1 < b.1)%N)
                 (alter_edge c f es).
Proof.
  induction 1 as [|[c' child] es Hs IH Hall]; cbn [alter_edge].
  - repeat constructor.
  - destruct (N.eqb_spec c c') as [->|Hne].
    + constructor; assumption.
    + destruct (N.ltb_spec c c') as [Hlt|Hge].
      * constructor; [constructor; assumption|].
        constructor; [exact Hlt|].
        eapply List.Forall_impl; [|exact Hall]. simpl. intros e He. lia.
      * constructor; [exact IH|].
        apply (alter_edge_keys (λ k, (c' < k)%N)); [lia|exact Hall].
Qed.

Lemma alter_edge_children (Q : MinTreeNode -> Prop) c
    (f : MinTreeNode -> MinTreeNode) es :
  (forall n, n = empty_node \/ Q n -> Q (f n)) ->
  Forall (λ e, Q e.2) es -> Forall (λ e, Q e.2) (alter_edge c f es).
Proof.
  intros Hf. induction 1 as [|[c' child] es Hc' Hes IH]; cbn [alter_edge].
  - repeat constructor. apply Hf. auto.
  - destruct (c =? c')%N; [constructor; [apply Hf; auto|assumption]|].
    destruct (c <? c')%N; repeat constructor; try assumption.
    apply Hf. auto.
Qed.

Lemma trie_ok_empty : trie_ok empty_node.
Proof. constructor; constructor. Qed.

Lemma trie_ok_trie_insert t : forall n,
  trie_ok n -> trie_ok (trie_insert t n).
Proof.
  induction t as [|c t IH]; intros [f k es] Hn;
    inversion Hn as [f' k' es' Hs Hc]; subst; cbn [trie_insert Final Number Edges].
  - constructor; assumption.
  - constructor; [apply alter_edge_sorted; exact Hs|].
    apply (alter_edge_children (λ n, words n ≠ [] /\ trie_ok n));
      [|exact Hc].
    intros n Hn'. split.
    + intros E. assert (t ∈ words (trie_insert t n)) as Hin.
      { apply elem_of_words_trie_insert. auto. }
      rewrite E in Hin. inversion Hin.
    + apply IH. destruct Hn' as [->|[_ H]]; [apply trie_ok_empty|exact H].
Qed.

Lemma trie_ok_number_node n : trie_ok n -> trie_ok (number_node n).
Proof.
  induction n as [f k es IH] using MinTreeNode_nested_ind.
  inversion 1 as [f' k' es' Hs Hc]; subst.
  rewrite number_node_Node. constructor.
  - apply (StronglySorted_fmap _ (λ a b : rune * MinTreeNode, (a.1 < b.1)%N));
      [|exact Hs]. intros a b Hab. exact Hab.
  - apply Forall_fmap. rewrite list.Forall_forall in *.
    intros e He. destruct (Hc e He) as [H1 H2]. simpl. split.
    + rewrite words_number_node. exact H1.
    + apply IH; assumption.
Qed.

(** *** The words of a tree are in lexicographic order *)

Lemma edge_words_sorted es :
  StronglySorted (λ a b : rune * MinTreeNode, (a.1 < b.1)%N) es ->
  Forall (λ e, StronglySorted (λ a b, lex_ltb a b = true) (words e.2)) es ->
  StronglySorted (λ a b, lex_ltb a b = true) (edge_words es).
Proof.
  induction 1 as [|[c child] es Hs IH Hall]; intros Hw.
  - constructor.
  - inversion Hw as [|? ? Hc Hw']; subst. rewrite edge_words_cons.
    apply StronglySorted_app_2.
    + intros x1 x2 Hx1 Hx2.
      apply list_elem_of_fmap in Hx1 as (a & -> & _).
      apply elem_of_edge_words in Hx2 as (c2 & ch2 & b & He & _ & ->).
      rewrite list.Forall_forall in Hall. specialize (Hall _ He).
      simpl in *. apply N.ltb_lt in Hall. rewrite Hall. reflexivity.
    + apply (StronglySorted_fmap _ (λ a b, lex_ltb a b = true));
        [|exact Hc].
      intros a b Hab. simpl. rewrite N.ltb_irrefl, N.eqb_refl. exact Hab.
    + apply IH. exact Hw'.
Qed.

Lemma words_sorted n :
  trie_ok n -> StronglySorted (λ a b, lex_ltb a b = true) (words n).
Proof.
  induction n as [f k es IH] using MinTreeNode_nested_ind.
  inversion 1 as [f' k' es' Hs Hc]; subst. rewrite words_Node.
  assert (StronglySorted (λ a b, lex_ltb a b = true) (edge_words es)) as He.
  { apply edge_words_sorted; [exact Hs|].
    rewrite list.Forall_forall in *. intros e Hin.
    apply IH; [exact Hin|]. apply Hc. exact Hin. }
  destruct f; [|exact He].
  apply StronglySorted_app_2; [|repeat constructor|exact He].
  intros x1 x2 Hx1 Hx2. apply list_elem_of_singleton in Hx1. subst x1.
  apply elem_of_edge_words in Hx2 as (c2 & ch2 & b & _ & _ & ->).
  reflexivity.
Qed.

Lemma strictly_sorted_NoDup (l : list (list rune)) :
  StronglySorted (λ a b, lex_ltb a b = true) l -> NoDup l.
Proof.
  induction 1 as [|x l _ IH Hx]; constructor; [|exact IH].
  intros Hin. rewrite list.Forall_forall in Hx. specialize (Hx x Hin).
  rewrite lex_ltb_irrefl in Hx. discriminate.
Qed.

(** *** Walking a word *)

Lemma edge_lookup_split es c child :
  StronglySorted (λ a b : rune * MinTreeNode, (a.1 < b.1)%N) es ->
  edge_lookup es c = Some child ->
  exists es1 es2,
    es = es1 ++ (c, child) :: es2 /\
    Forall (λ e, (e.1 < c)%N) es1 /\ Forall (λ e, (c < e.1)%N) es2.
Proof.
  induction 1 as [|[c' ch] es Hs IH Hall]; cbn [edge_lookup]; [discriminate|].
  destruct (N.eqb_spec c' c) as [->|Hne].
  - intros [= <-]. exists [], es. repeat split; [constructor|exact Hall].
  - intros E. destruct (IH E) as (es1 & es2 & -> & H1 & H2).
    exists ((c', ch) :: es1), es2. repeat split; [|exact H2].
    constructor; [|exact H1].
    rewrite list.Forall_forall in Hall. apply (Hall (c, child)).
    apply elem_of_app. right. left.
Qed.

Lemma edge_lookup_None es c :
  edge_lookup es c = None -> Forall (λ e, e.1 ≠ c) es.
Proof.
  induction es as [|[c' ch] es IH]; cbn [edge_lookup]; [constructor|].
  destruct (N.eqb_spec c' c) as [->|Hne]; [discriminate|].
  intros E. constructor; [exact Hne|apply IH; exact E].
Qed.

Lemma words_before_split es1 c child es2 :
  Forall (λ e, (e.1 < c)%N) es1 -> Forall (λ e, (c < e.1)%N) es2 ->
  words_before (es1 ++ (c, child) :: es2) c = sum_weights es1.
Proof.
  intros H1 H2. induction H1 as [|[c1 ch1] es1 Hc1 _ IH].
  - cbn [app words_before]. rewrite N.ltb_irrefl.
    assert (words_before es2 c = 0) as ->; [|reflexivity].
    induction H2 as [|[c2 ch2] es2 Hc2 _ IH2]; [reflexivity|].
    cbn [words_before]. simpl in Hc2.
    rewrite (proj2 (N.ltb_ge c2 c)) by lia. rewrite IH2. reflexivity.
  - cbn [app words_before]. rewrite sum_weights_cons, IH. simpl in Hc1.
    rewrite (proj2 (N.ltb_lt c1 c)) by exact Hc1. reflexivity.
Qed.

Lemma no_prefix_edge_words c w es :
  Forall (λ e, e.1 ≠ c) es ->
  Forall (λ t, ~ (c :: w) `prefix_of` t) (edge_words es).
Proof.
  intros Hes. apply list.Forall_forall. intros t Ht Hp.
  apply elem_of_edge_words in Ht as (c' & ch & w' & He & _ & ->).
  apply prefix_cons_inv_1 in Hp. subst c'.
  rewrite list.Forall_forall in Hes. apply (Hes _ He). reflexivity.
Qed.

Lemma no_prefix_fmap_cons c w (l : list (list rune)) :
  Forall (λ t, ~ w `prefix_of` t) l ->
  Forall (λ t, ~ (c :: w) `prefix_of` t) ((c ::.) <$> l).
Proof.
  intros H. apply Forall_fmap. eapply List.Forall_impl; [|exact H].
  intros t Ht Hp. apply Ht. simpl in Hp.
  apply prefix_cons_inv_2 in Hp. exact Hp.
Qed.

(** Walking [w] from a node either fails, and then no word of the node
    starts with [w], or reaches a node whose words, with [w] in front, are
    the words of the start node that begin with [w]; they stand together,
    and the index returned tells how many words come before them. *)
Lemma IndexedTraverse_from_words w : forall n idx,
  trie_ok n -> well_numbered n ->
  match IndexedTraverse_from n w idx with
  | None => Forall (λ t, ~ w `prefix_of` t) (words n)
  | Some (node, i) =>
      exists bef aft,
        words n = bef ++ ((w ++.) <$> words node) ++ aft /\
        Forall (λ t, ~ w `prefix_of` t) bef /\
        Forall (λ t, ~ w `prefix_of` t) aft /\
        i - b2z (Final node) = idx - b2z (Final n) + Z.of_nat (length bef) /\
        well_numbered node /\ (w <> [] -> words node <> [])
  end.
Proof.
  induction w as [|c w IH]; intros n idx Hok Hwn.
  - cbn [IndexedTraverse_from]. exists [], [].
    rewrite app_nil_r. cbn [app length].
    split; [symmetry; apply list_fmap_id|].
    repeat split; try constructor; try lia; try assumption.
    intros H. contradiction.
  - cbn [IndexedTraverse_from]. destruct n as [f k es].
    inversion Hok as [f' k' es' Hs Hc]; subst.
    destruct (well_numbered_Edges _ Hwn) as [Hes _].
    cbn [Edges Final] in *.
    destruct (edge_lookup es c) as [child|] eqn:E.
    + destruct (edge_lookup_split es c child Hs E) as (es1 & es2 & -> & H1 & H2).
      apply Forall_app in Hes as [Hes1 Hes2].
      inversion Hes2 as [|? ? Hwc Hes2']; subst. simpl in Hwc.
      apply Forall_app in Hc as [Hc1 Hc2].
      inversion Hc2 as [|? ? [Hne Hokc] Hc2']; subst. simpl in Hne, Hokc.
      rewrite words_before_split by assumption.
      rewrite (sum_weights_words es1 Hes1).
      specialize (IH child
                    (idx + Z.of_nat (length (edge_words es1))
                     + b2z (Final child)) Hokc Hwc).
      rewrite words_Node, edge_words_app, edge_words_cons.
      assert (Forall (λ t, ~ (c :: w) `prefix_of` t)
                     ((if f then [[]] else []) ++ edge_words es1)) as Hbef.
      { apply Forall_app. split.
        - destruct f; repeat constructor. apply prefix_nil_not.
        - apply no_prefix_edge_words.
          eapply List.Forall_impl; [|exact H1]. simpl. intros e He. lia. }
      assert (Forall (λ t, ~ (c :: w) `prefix_of` t) (edge_words es2))
        as Haft.
      { apply no_prefix_edge_words.
        eapply List.Forall_impl; [|exact H2]. simpl. intros e He. lia. }
      destruct (IndexedTraverse_from child w _) as [[node i]|].
      * destruct IH as (bef' & aft' & Hw & Hb' & Ha' & Hi & Hwn' & Hne').
        exists (((if f then [[]] else []) ++ edge_words es1)
                  ++ ((c ::.) <$> bef')),
               (((c ::.) <$> aft') ++ edge_words es2).
        split; [|split; [|split; [|split; [|split]]]].
        -- rewrite Hw, !fmap_app, <- list_fmap_compose, <- !app_assoc.
           reflexivity.
        -- apply Forall_app. split; [exact Hbef|].
           apply no_prefix_fmap_cons. exact Hb'.
        -- apply Forall_app. split; [|exact Haft].
           apply no_prefix_fmap_cons. exact Ha'.
        -- rewrite Hi, !length_app, length_fmap.
           unfold b2z. destruct f; simpl; lia.
        -- exact Hwn'.
        -- intros _. destruct w as [|c' w'].
           ++ intros Hnil. apply Hne. rewrite Hw, Hnil.
              destruct bef' as [|t ?];
                [|inversion Hb' as [|? ? Ht _]; exfalso; apply Ht, prefix_nil].
              destruct aft' as [|t ?];
                [|inversion Ha' as [|? ? Ht _]; exfalso; apply Ht, prefix_nil].
              reflexivity.
           ++ apply Hne'. discriminate.
      * rewrite app_assoc. apply Forall_app. split; [exact Hbef|].
        apply Forall_app. split; [|exact Haft].
        apply no_prefix_fmap_cons. exact IH.
    + rewrite words_Node. apply Forall_app. split.
      * destruct f; repeat constructor. apply prefix_nil_not.
      * apply no_prefix_edge_words. apply edge_lookup_None. exact E.
Qed.

(** *** The words of a built tree are its terms *)

Lemma trie_ok_inserts terms : forall n,
  trie_ok n ->
  trie_ok (foldl (λ n term, trie_insert term n) n terms) /\
  forall w, w ∈ words (foldl (λ n term, trie_insert term n) n terms)
            <-> w ∈ terms \/ w ∈ words n.
Proof.
  induction terms as [|t terms IH]; intros n Hn; simpl.
  - split; [exact Hn|]. intros w. split; [auto|].
    intros [H|H]; [inversion H|exact H].
  - destruct (IH (trie_insert t n) (trie_ok_trie_insert t n Hn)) as [H1 H2].
    split; [exact H1|]. intros w. rewrite H2, elem_of_words_trie_insert.
    rewrite elem_of_cons. tauto.
Qed.

Lemma words_mafsa_tree (terms : list (list rune)) :
  StronglySorted (λ a b, lex_ltb b a = false) terms ->
  NoDup terms -> [] ∉ terms ->
  words (Root (mafsa_tree terms)) = terms /\ trie_ok (Root (mafsa_tree terms)).
Proof.
  intros Hsorted Hnd Hnil.
  destruct (trie_ok_inserts terms empty_node trie_ok_empty) as [Hok Hel].
  set (root0 := foldl (λ n term, trie_insert term n) empty_node terms) in *.
  pose proof (trie_ok_number_node root0 Hok) as Hok1.
  pose proof (words_number_node root0) as Hw1.
  unfold mafsa_tree. fold root0. cbn [Root].
  destruct (number_node root0) as [f k es] eqn:E1.
  cbn [Number Edges].
  assert (f = false) as ->.
  { destruct f; [|reflexivity]. exfalso. apply Hnil.
    assert ([] ∈ words root0) as Hin.
    { rewrite <- Hw1, words_Node. left. }
    apply Hel in Hin as [Hin|Hin]; [exact Hin|inversion Hin]. }
  split; [|exact Hok1].
  rewrite Hw1.
  apply (StronglySorted_unique_strong (λ a b, lex_ltb b a = false)).
  - intros x1 x2 _ _ H1 H2. apply lex_ltb_total; assumption.
  - pose proof (words_sorted root0 Hok) as Hs.
    clear -Hs. induction Hs as [|x l _ IH Hx]; constructor; [exact IH|].
    eapply List.Forall_impl; [|exact Hx].
    intros y Hy. apply lex_ltb_asym. exact Hy.
  - exact Hsorted.
  - apply NoDup_Permutation.
    + apply strictly_sorted_NoDup, words_sorted. exact Hok.
    + exact Hnd.
    + intros w. rewrite Hel. split; [intros [H|H]; [exact H|inversion H]|auto].
Qed.

Lemma seg_middle {A} (l1 l2 l3 : list A) :
  seg (length l1) (length l1 + length l2) (l1 ++ l2 ++ l3) = l2.
Proof.
  unfold seg. rewrite drop_app_length.
  replace (length l1 + length l2 - length l1)%nat with (length l2) by lia.
  apply take_app_length.
Qed.

Lemma filter_all {A} (P : A -> Prop) `{forall x, Decision (P x)}
    (l : list A) :
  Forall P l -> filter P l = l.
Proof.
  induction 1 as [|x l Hx _ IH]; [reflexivity|].
  rewrite filter_cons_True by exact Hx. rewrite IH. reflexivity.
Qed.

Lemma filter_no {A} (P : A -> Prop) `{forall x, Decision (P x)}
    (l : list A) :
  Forall (λ x, ~ P x) l -> filter P l = [].
Proof.
  induction 1 as [|x l Hx _ IH]; [reflexivity|].
  rewrite filter_cons_False by exact Hx. exact IH.
Qed.

Section getByQuery_terms.
Variable unicode_ToLower : rune -> rune.
Context `{SortUnits : Sorter ID2 unitID2s_Less}.
Context `{SortStrings : Sorter (list rune) lex_ltb}.

(** What a successful [Build] leaves when it collected at least one
    term. *)
Lemma Build_built_terms x0 xs env x m :
  Build x0 xs env = (None, x) ->
  Build_termToUOffs xs = Returns m -> m <> ∅ ->
  exists b,
    x = mkDefQueryTreeIndex
          (Some (mkMafsaUnitTable
                   (Some (mafsa_tree (sort_Sort (elements (dom m))))) b
                   (Build_units xs)
                   ((λ term, default [] (m !! term))
                      <$> sort_Sort (elements (dom m)))))
          true.
Proof.
  unfold Build. intros E Hm Hne. rewrite Hm in E.
  destruct (sort_Sort (elements (dom m))) as [|t ts] eqn:Et.
  - exfalso. apply Hne.
    assert (elements (dom m) = []) as Hel.
    { apply Permutation_nil. rewrite <- (sort_Sort_perm (elements (dom m))).
      rewrite Et. reflexivity. }
    apply elements_empty_inv in Hel. apply dom_empty_inv_L.
    apply leibniz_equiv. exact Hel.
  - destruct (env_marshal env) as [b [e|]]; [discriminate|].
    destruct (env_decode env) as [[e t']|]; [discriminate|].
    injection E as <-. exists b. reflexivity.
Qed.

(** What a query returns on a built index: a query is found exactly when
    some indexed term starts with the lower-cased query, and the result
    then gathers, unit by unit, the postings of exactly the terms that
    start with it, taken in the order of the terms.  (The index holds at
    least one term, and no unit indexes the empty name.) *)
Theorem getByQuery_returns_terms_with_prefix x0 xs env x m q :
  Build x0 xs env = (None, x) ->
  Build_termToUOffs xs = Returns m -> m <> ∅ -> m !! [] = None ->
  let matching :=
    filter (λ t, strings_ToLower unicode_ToLower q `prefix_of` t)
           (sort_Sort (elements (dom m))) in
  getByQuery unicode_ToLower x q
  = Returns
      (if decide (matching = []) then None
       else Some (foldl (getByQuery_put (Build_units xs)) ∅
                    (concat ((λ t, default [] (m !! t)) <$> matching)))).
Proof.
  intros HB Hm Hne Hnil matching.
  destruct (Build_built_terms x0 xs env x m HB Hm Hne) as [b ->].
  set (terms := sort_Sort (elements (dom m))) in *.
  rewrite (getByQuery_built unicode_ToLower m terms b xs q Hm).
  assert (terms <> []) as Hterms.
  { intros Hnil'. apply Hne.
    assert (elements (dom m) = []) as Hel.
    { apply Permutation_nil. rewrite <- (sort_Sort_perm (elements (dom m))).
      fold terms. rewrite Hnil'. reflexivity. }
    apply elements_empty_inv in Hel. apply dom_empty_inv_L.
    apply leibniz_equiv. exact Hel. }
  destruct (words_mafsa_tree terms) as [Hwords Hok].
  { apply sort_Sort_sorted. }
  { unfold terms. rewrite (sort_Sort_perm (elements (dom m))).
    apply NoDup_elements. }
  { unfold terms. rewrite (sort_Sort_perm (elements (dom m))).
    rewrite elem_of_elements, elem_of_dom, Hnil. intros [? H]. discriminate. }
  pose proof (IndexedTraverse_from_words
                (strings_ToLower unicode_ToLower q)
                (Root (mafsa_tree terms)) 0 Hok
                (mafsa_tree_well_numbered terms)) as Hwalk.
  unfold IndexedTraverse.
  destruct (IndexedTraverse_from _ _ 0) as [[node i]|].
  - destruct Hwalk as (bef & aft & Hw & Hb & Ha & Hi & Hwn & Hnode).
    rewrite Hwords in Hw. rewrite mafsa_tree_Final in Hi. simpl in Hi.
    set (lq := strings_ToLower unicode_ToLower q) in *.
    assert (matching = (lq ++.) <$> words node) as Hmatch.
    { subst matching. rewrite Hw, !list.filter_app.
      rewrite (filter_no _ bef Hb), (filter_no _ aft Ha), app_nil_r.
      simpl. apply filter_all. apply Forall_fmap.
      apply list.Forall_forall. intros t _. simpl. apply prefix_app_r.
      reflexivity. }
    assert (words node <> []) as Hnn.
    { destruct (decide (lq = [])) as [Hq|Hq]; [|auto].
      intros Hnil'. apply Hterms. rewrite Hw, Hnil'.
      rewrite Hq in Hb, Ha.
      destruct bef as [|t ?];
        [|inversion Hb as [|? ? Ht _]; exfalso; apply Ht, prefix_nil].
      destruct aft as [|t ?];
        [|inversion Ha as [|? ? Ht _]; exfalso; apply Ht, prefix_nil].
      reflexivity. }
    rewrite decide_False.
    2:{ rewrite Hmatch. intros H. apply fmap_nil_inv in H. auto. }
    do 3 f_equal.
    assert (Z.to_nat (i - b2z (Final node)) = length bef) as -> by lia.
    assert (Z.to_nat (i + Number node)
            = (length bef + length ((lq ++.) <$> words node))%nat) as ->.
    { pose proof (well_numbered_words node Hwn) as Hweight.
      unfold weight in Hweight. rewrite length_fmap. lia. }
    rewrite Hmatch, Hw, !fmap_app.
    rewrite <- (length_fmap (λ term, default [] (m !! term)) bef).
    rewrite <- (length_fmap (λ term, default [] (m !! term))
                  ((lq ++.) <$> words node)).
    f_equal. apply seg_middle.
  - rewrite Hwords in Hwalk. rewrite decide_True; [reflexivity|].
    subst matching. apply filter_no. exact Hwalk.
Qed.

End getByQuery_terms.

(* ===================================================================== *)
(** ** The name of a unit file and the unit read back from it *)

Lemma str_chars s : str (chars s) = s.
Proof. apply String.string_of_list_ascii_of_string. Qed.

Lemma chars_str l : chars (str l) = l.
Proof. apply String.list_ascii_of_string_of_list_ascii. Qed.

Lemma copy_element_no_slash e : forall rest out,
  Forall (λ c, is_slash c = false) e ->
  match rest with [] => True | c :: _ => is_slash c = true end ->
  copy_element (e ++ rest) out = (rest, out ++ e).
Proof.
  induction e as [|c e IH]; intros rest out He Hrest.
  - rewrite app_nil_r. destruct rest as [|c r]; [reflexivity|].
    simpl. rewrite Hrest. reflexivity.
  - inversion He as [|? ? Hc He']; subst. simpl. rewrite Hc.
    rewrite (IH rest (out ++ [c]) He' Hrest), <- app_assoc. reflexivity.
Qed.

Lemma join_slash_cons e elems :
  elems <> [] -> join_slash (e :: elems) = e ++ "/"%char :: join_slash elems.
Proof. destruct elems; [contradiction|reflexivity]. Qed.

Lemma join_slash_snoc elems e :
  elems <> [] -> join_slash (elems ++ [e]) = join_slash elems ++ "/"%char :: e.
Proof.
  induction elems as [|x elems IH]; [contradiction|]. intros _.
  destruct elems as [|y elems].
  - reflexivity.
  - change ((x :: y :: elems) ++ [e]) with (x :: ((y :: elems) ++ [e])).
    rewrite join_slash_cons by (destruct elems; discriminate).
    rewrite IH by discriminate.
    rewrite (join_slash_cons x (y :: elems)) by discriminate.
    rewrite <- app_assoc. reflexivity.
Qed.

Lemma length_join_slash elems :
  Forall plain_element elems -> elems <> [] ->
  (2 * length elems <= length (join_slash elems) + 1)%nat.
Proof.
  induction 1 as [|e elems (He & _) Hes IH]; [contradiction|]. intros _.
  destruct e as [|c e]; [contradiction|].
  destruct elems as [|y elems].
  - simpl. lia.
  - rewrite join_slash_cons by discriminate.
    specialize (IH ltac:(discriminate)).
    rewrite length_app. simpl in *. lia.
Qed.

(** On a path made of plain elements separated by single slashes, with or
    without a slash at its end, the loop of [Clean] copies the elements
    and their separators. *)
Lemma Clean_loop_plain elems : forall fuel out trail,
  Forall plain_element elems -> elems <> [] ->
  (trail = [] \/ trail = ["/"%char]) ->
  (2 * length elems + length trail <= fuel + 1)%nat ->
  Clean_loop fuel false (join_slash elems ++ trail) out 0
  = glue out (join_slash elems).
Proof.
  induction elems as [|e elems IH]; intros fuel out trail Hall Hne Htrail Hfuel;
    [contradiction|].
  inversion Hall as [|? ? (He & Hns & Hdot & Hdotdot) Hall']; subst.
  destruct fuel as [|fuel]; [simpl in Hfuel; destruct Htrail; subst; simpl in *; lia|].
  set (after := match elems with
                | [] => trail
                | _ :: _ => "/"%char :: join_slash elems ++ trail
                end).
  assert (join_slash (e :: elems) ++ trail = e ++ after) as Hrest.
  { subst after. destruct elems as [|y elems].
    - reflexivity.
    - rewrite join_slash_cons by discriminate. rewrite <- app_assoc.
      reflexivity. }
  assert (match after with [] => True | c :: _ => is_slash c = true end)
    as Hafter.
  { subst after. destruct elems; [|reflexivity].
    destruct Htrail as [->| ->]; [exact I|reflexivity]. }
  rewrite Hrest.
  destruct e as [|c e]; [contradiction|].
  inversion Hns as [|? ? Hc Hns']; subst.
  cbn [app Clean_loop]. rewrite Hc.
  (* neither "." nor ".." *)
  assert ((is_dot c
           && match e ++ after with
              | [] => true
              | c1 :: _ => is_slash c1
              end) = false) as ->.
  { destruct (is_dot c) eqn:Ed; [|reflexivity]. simpl.
    destruct e as [|c1 e].
    - exfalso. apply Hdot. f_equal.
      unfold is_dot in Ed. apply Ascii.eqb_eq in Ed. exact Ed.
    - inversion Hns' as [|? ? Hc1 _]; subst. exact Hc1. }
  assert ((is_dot c
           && match e ++ after with
              | c1 :: rest2 =>
                  is_dot c1
                  && match rest2 with
                     | [] => true
                     | c2 :: _ => is_slash c2
                     end
              | [] => false
              end) = false) as ->.
  { destruct (is_dot c) eqn:Ed; [|reflexivity]. simpl.
    destruct e as [|c1 e].
    - simpl. destruct after as [|a ?]; [reflexivity|].
      destruct (is_dot a) eqn:Ea; [|reflexivity].
      unfold is_dot, is_slash in *. apply Ascii.eqb_eq in Ea, Hafter.
      subst a. discriminate.
    - simpl. destruct (is_dot c1) eqn:Ed1; [|reflexivity]. simpl.
      inversion Hns' as [|? ? Hc1 Hns'']; subst.
      destruct e as [|c2 e].
      + exfalso. apply Hdotdot.
        unfold is_dot in *. apply Ascii.eqb_eq in Ed, Ed1. subst. reflexivity.
      + inversion Hns'' as [|? ? Hc2 _]; subst. exact Hc2. }
  cbn [andb orb negb].
  set (out1 := if negb (length out =? 0)%nat then out ++ ["/"%char] else out).
  change (c :: e ++ after) with ((c :: e) ++ after).
  rewrite (copy_element_no_slash (c :: e) after out1 Hns Hafter).
  assert (out1 ++ c :: e = glue out (c :: e)) as Hglue.
  { subst out1. destruct out as [|o out]; [reflexivity|].
    simpl. rewrite <- app_assoc. reflexivity. }
  rewrite Hglue.
  subst after. destruct elems as [|y elems].
  - (* the last element *)
    destruct Htrail as [->| ->].
    + destruct fuel; reflexivity.
    + destruct fuel as [|fuel]; [reflexivity|].
      cbn [Clean_loop]. change (is_slash "/") with true. cbn iota.
      destruct fuel; reflexivity.
  - destruct fuel as [|fuel]; [simpl in Hfuel; lia|].
    cbn [Clean_loop]. change (is_slash "/") with true. cbn iota.
    rewrite (IH fuel (glue out (c :: e)) trail Hall' ltac:(discriminate) Htrail)
      by (simpl in *; lia).
    rewrite (join_slash_cons (c :: e)) by discriminate.
    destruct out as [|o out]; simpl; [reflexivity|].
    rewrite <- app_assoc. reflexivity.
Qed.

Lemma join_slash_head elems :
  Forall plain_element elems -> elems <> [] ->
  exists c rest, join_slash elems = c :: rest /\ is_slash c = false.
Proof.
  intros Hall Hne. destruct elems as [|e elems]; [contradiction|].
  inversion Hall as [|? ? (He & Hns & _) _]; subst.
  destruct e as [|c e]; [contradiction|].
  inversion Hns as [|? ? Hc _]; subst.
  destruct elems; simpl; eauto.
Qed.

Lemma path_Clean_plain elems trail :
  Forall plain_element elems -> elems <> [] ->
  (trail = [] \/ trail = ["/"%char]) ->
  path_Clean (join_slash elems ++ trail) = join_slash elems.
Proof.
  intros Hall Hne Htrail.
  destruct (join_slash_head elems Hall Hne) as (c & rest & E & Hc).
  unfold path_Clean.
  pose proof (Clean_loop_plain elems (length (join_slash elems ++ trail))
                [] trail Hall Hne Htrail) as H.
  rewrite E in *. cbn [app] in *. rewrite Hc.
  rewrite H.
  - reflexivity.
  - pose proof (length_join_slash elems Hall Hne) as Hl. rewrite E in Hl.
    simpl in *. rewrite length_app. lia.
Qed.

Lemma split_last_slash_no_slash e :
  Forall (λ c, is_slash c = false) e -> split_last_slash e = None.
Proof.
  induction 1 as [|c e Hc _ IH]; [reflexivity|].
  simpl. rewrite IH, Hc. reflexivity.
Qed.

Lemma split_last_slash_app pre e :
  Forall (λ c, is_slash c = false) e ->
  split_last_slash (pre ++ "/"%char :: e) = Some (pre, e).
Proof.
  intros He. induction pre as [|c pre IH].
  - simpl. rewrite (split_last_slash_no_slash e He). reflexivity.
  - simpl. rewrite IH. reflexivity.
Qed.

Lemma strip_slashes_rev_no_slash pre e :
  e <> [] -> Forall (λ c, is_slash c = false) e ->
  rev (strip_slashes (rev (pre ++ e))) = pre ++ e.
Proof.
  intros Hne He. rewrite rev_app_distr.
  assert (strip_slashes (rev e ++ rev pre) = rev e ++ rev pre) as ->.
  { destruct (rev e) as [|c re] eqn:Er.
    - apply (f_equal (@rev _)) in Er. rewrite rev_involutive in Er.
      simpl in Er. contradiction.
    - assert (is_slash c = false) as Hc.
      { rewrite list.Forall_forall in He. apply He.
        apply list_elem_of_In, in_rev. rewrite Er. left. reflexivity. }
      simpl. rewrite Hc. reflexivity. }
  rewrite <- rev_app_distr, rev_involutive. reflexivity.
Qed.

Lemma path_Base_last pre e :
  e <> [] -> Forall (λ c, is_slash c = false) e ->
  path_Base (pre ++ "/"%char :: e) = e.
Proof.
  intros Hne He. unfold path_Base.
  destruct (pre ++ "/"%char :: e) as [|c l] eqn:E.
  { destruct pre; discriminate. }
  rewrite <- E.
  change (pre ++ "/"%char :: e) with (pre ++ ["/"%char] ++ e).
  rewrite app_assoc, (strip_slashes_rev_no_slash _ e Hne He).
  rewrite <- app_assoc. cbn [app].
  rewrite (split_last_slash_app pre e He).
  destruct e; [contradiction|reflexivity].
Qed.

Lemma path_Base_single e :
  e <> [] -> Forall (λ c, is_slash c = false) e -> path_Base e = e.
Proof.
  intros Hne He. unfold path_Base. destruct e as [|c l] eqn:E; [contradiction|].
  rewrite <- E in *.
  pose proof (strip_slashes_rev_no_slash [] e Hne He) as Hs. simpl in Hs.
  rewrite Hs, (split_last_slash_no_slash e He). rewrite E. reflexivity.
Qed.

Lemma strings_TrimSuffix_app s suffix :
  strings_TrimSuffix (s ++ suffix) suffix = s.
Proof.
  unfold strings_TrimSuffix, strings_HasSuffix.
  rewrite length_app.
  replace (length s + length suffix - length suffix)%nat with (length s)
    by lia.
  rewrite drop_app_length, take_app_length.
  rewrite bool_decide_eq_true_2 by lia.
  rewrite bool_decide_eq_true_2 by reflexivity. reflexivity.
Qed.

Lemma plain_unit_file (t : list ascii) :
  Forall (λ c, is_slash c = false) t ->
  plain_element (t ++ chars unitFileSuffix).
Proof.
  intros Ht. unfold plain_element. split; [|split; [|split]].
  - destruct t; discriminate.
  - apply Forall_app. split; [exact Ht|]. repeat constructor.
  - intros E. apply (f_equal length) in E. rewrite length_app in E.
    simpl in E. lia.
  - intros E. apply (f_equal length) in E. rewrite length_app in E.
    simpl in E. lia.
Qed.

Lemma path_Clean_dot_slash elems :
  Forall plain_element elems -> elems <> [] ->
  path_Clean ("."%char :: "/"%char :: join_slash elems) = join_slash elems.
Proof.
  intros Hall Hne.
  destruct (join_slash_head elems Hall Hne) as (c & rest & E & Hc).
  pose proof (Clean_loop_plain elems (length (join_slash elems)) [] []
                Hall Hne ltac:(auto)) as H.
  rewrite app_nil_r in H.
  pose proof (length_join_slash elems Hall Hne) as Hl.
  unfold path_Clean. change (is_slash ".") with false. cbn iota.
  cbn [length Clean_loop]. change (is_slash ".") with false.
  change (is_dot ".") with true. change (is_slash "/") with true.
  cbn [andb]. cbn iota. rewrite H by (simpl; lia).
  rewrite E. reflexivity.
Qed.

Section unit_files.
Variables (unitType unit : string) (elems : list (list ascii)).
Hypothesis Hall : Forall plain_element elems.
Hypothesis Ht0 : chars unitType <> [].
Hypothesis Ht : Forall (λ c, is_slash c = false) (chars unitType).

(** The name of the unit file, for a unit name of plain elements. *)
Lemma chars_unitFilename :
  chars unit = join_slash elems -> elems <> [] ->
  chars (unitFilename unitType unit)
  = chars unit ++ "/"%char :: chars unitType ++ chars unitFileSuffix.
Proof.
  intros Hunit Hne.
  pose proof (plain_unit_file (chars unitType) Ht) as Hplain.
  unfold unitFilename. rewrite chars_str. cbn [path_Join].
  destruct (join_slash_head elems Hall Hne) as (c & rest & E & _).
  rewrite Hunit, E. rewrite <- E.
  change (join_slash [join_slash elems;
                      chars unitType ++ chars unitFileSuffix])
    with (join_slash elems
            ++ "/"%char :: chars unitType ++ chars unitFileSuffix).
  rewrite <- (join_slash_snoc elems) by exact Hne.
  pose proof (path_Clean_plain
                (elems ++ [chars unitType ++ chars unitFileSuffix]) []) as H.
  rewrite app_nil_r in H. rewrite H.
  - reflexivity.
  - apply Forall_app. split; [exact Hall|].
    constructor; [exact Hplain|constructor].
  - destruct elems; discriminate.
  - auto.
Qed.

(** The name of the unit file for the unit names [""] and ["."]. *)
Lemma chars_unitFilename_top :
  chars unit = [] \/ chars unit = ["."%char] ->
  chars (unitFilename unitType unit) = chars unitType ++ chars unitFileSuffix.
Proof.
  intros Hunit.
  pose proof (plain_unit_file (chars unitType) Ht) as Hplain.
  assert (Forall plain_element [chars unitType ++ chars unitFileSuffix])
    as Hall1 by (constructor; [exact Hplain|constructor]).
  unfold unitFilename. rewrite chars_str.
  destruct Hunit as [-> | ->].
  - pose proof (path_Clean_plain
                  [chars unitType ++ chars unitFileSuffix] []) as H.
    rewrite app_nil_r in H. cbn [join_slash] in H.
    destruct (chars unitType) as [|t0 ts]; [contradiction|].
    cbn [path_Join app join_slash]. apply H; [exact Hall1|discriminate|auto].
  - cbn [path_Join join_slash app].
    apply (path_Clean_dot_slash [chars unitType ++ chars unitFileSuffix]);
      [exact Hall1|discriminate].
Qed.

(** The unit read from the name of a unit file in a directory. *)
Lemma unitFile_ID2_in_dir (unitFile : string) :
  chars unitFile
  = join_slash elems ++ "/"%char :: chars unitType ++ chars unitFileSuffix ->
  elems <> [] ->
  chars (unitStoreDir unitFile) = join_slash elems ++ "/"%char :: chars unitType
  /\ unitFile_ID2 unitFile = mkID2 unitType (str (join_slash elems)).
Proof.
  intros Hfile Hne.
  assert (chars (unitStoreDir unitFile)
          = join_slash elems ++ "/"%char :: chars unitType) as Hdir.
  { unfold unitStoreDir. rewrite chars_str, Hfile.
    change (join_slash elems
              ++ "/"%char :: chars unitType ++ chars unitFileSuffix)
      with (join_slash elems
              ++ ["/"%char] ++ chars unitType ++ chars unitFileSuffix).
    rewrite !app_assoc, strings_TrimSuffix_app, <- app_assoc. reflexivity. }
  split; [exact Hdir|].
  unfold unitFile_ID2. rewrite Hdir. f_equal.
  - rewrite path_Base_last by assumption. apply str_chars.
  - unfold path_Dir, path_Split.
    rewrite (split_last_slash_app (join_slash elems) (chars unitType) Ht).
    cbn [fst]. rewrite (path_Clean_plain elems ["/"%char]) by auto.
    reflexivity.
Qed.

(** The unit read from the name of a unit file at the top of the tree. *)
Lemma unitFile_ID2_top (unitFile : string) :
  chars unitFile = chars unitType ++ chars unitFileSuffix ->
  unitFile_ID2 unitFile = mkID2 unitType ".".
Proof.
  intros Hfile. unfold unitFile_ID2, unitStoreDir.
  rewrite chars_str, Hfile, strings_TrimSuffix_app. f_equal.
  - rewrite path_Base_single by assumption. apply str_chars.
  - unfold path_Dir, path_Split.
    rewrite (split_last_slash_no_slash _ Ht). reflexivity.
Qed.

End unit_files.

Lemma chars_append (a b : string) : chars (a +:+ b) = chars a ++ chars b.
Proof. apply list_ascii_of_string_app. Qed.

(** A unit is found again under its own ID.  For a unit whose name is
    made of plain path elements separated by single slashes (like
    "github.com/user/repo") and whose type is not empty and has no slash,
    the name of its unit file is [name/type.unit.json], its unit store is
    the directory [name/type], and [openAllUnitStores] reads the unit's own
    type and name back from the file name.  A unit with the empty name is
    read back with the name ["."]. *)
Theorem unitFile_ID2_of_unitFilename (unitType unit : string)
    (elems : list (list ascii)) :
  chars unit = join_slash elems -> elems <> [] ->
  Forall plain_element elems ->
  chars unitType <> [] ->
  Forall (λ c, is_slash c = false) (chars unitType) ->
  unitFilename unitType unit
    = (unit +:+ "/" +:+ unitType +:+ unitFileSuffix)%string /\
  unitStoreDir (unitFilename unitType unit)
    = (unit +:+ "/" +:+ unitType)%string /\
  unitFile_ID2 (unitFilename unitType unit) = mkID2 unitType unit /\
  unitFile_ID2 (unitFilename unitType "") = mkID2 unitType ".".
Proof.
  intros Hunit Hne Hall Ht0 Ht.
  pose proof (chars_unitFilename unitType unit elems Hall Ht Hunit Hne)
    as Hfile.
  pose proof Hfile as Hfile'. rewrite Hunit in Hfile'.
  destruct (unitFile_ID2_in_dir unitType elems Hall Ht0 Ht _ Hfile' Hne)
    as [Hdir Hid].
  split; [|split; [|split]].
  - rewrite <- (str_chars (unitFilename unitType unit)), Hfile.
    rewrite <- (str_chars (unit +:+ "/" +:+ unitType +:+ unitFileSuffix)).
    rewrite !chars_append. reflexivity.
  - rewrite <- (str_chars (unitStoreDir _)), Hdir, <- Hunit.
    rewrite <- (str_chars (unit +:+ "/" +:+ unitType)).
    rewrite !chars_append. reflexivity.
  - rewrite Hid, <- Hunit, str_chars. reflexivity.
  - apply (unitFile_ID2_top unitType Ht0 Ht).
    apply (chars_unitFilename_top unitType "" Ht0 Ht). left. reflexivity.
Qed.

(** [openAllUnitStores] opens, for each unit file, the directory beside
    it.  For a unit file [type.unit.json], at the top of the tree or in a
    directory whose path is made of plain elements, the unit read from the
    file name has that type and the path of the directory as its name
    (["."] at the top), and [unitFilename] of this unit, from which
    [openUnitStore] computes the directory of the store, is the name of
    the unit file again. *)
Theorem unitFilename_of_unitFile_ID2 (unitFile unitType : string)
    (elems : list (list ascii)) :
  chars unitFile
  = join_slash (elems ++ [chars unitType ++ chars unitFileSuffix]) ->
  Forall plain_element elems ->
  chars unitType <> [] ->
  Forall (λ c, is_slash c = false) (chars unitType) ->
  unitFile_ID2 unitFile
  = mkID2 unitType (match elems with
                    | [] => "."
                    | _ :: _ => str (join_slash elems)
                    end) /\
  unitFilename (ID2_Type (unitFile_ID2 unitFile))
               (ID2_Name (unitFile_ID2 unitFile)) = unitFile.
Proof.
  intros Hfile Hall Ht0 Ht.
  destruct elems as [|e elems'] eqn:Eelems.
  - cbn [app join_slash] in Hfile.
    rewrite (unitFile_ID2_top unitType Ht0 Ht unitFile Hfile).
    split; [reflexivity|]. cbn [ID2_Type ID2_Name].
    rewrite <- (str_chars (unitFilename unitType ".")).
    rewrite (chars_unitFilename_top unitType "." Ht0 Ht)
      by (right; reflexivity).
    rewrite <- Hfile. apply str_chars.
  - rewrite <- Eelems in *.
    assert (elems <> []) as Hne by (rewrite Eelems; discriminate).
    rewrite join_slash_snoc in Hfile by exact Hne.
    destruct (unitFile_ID2_in_dir unitType elems Hall Ht0 Ht _ Hfile Hne)
      as [_ Hid].
    rewrite Hid. rewrite Eelems at 1. rewrite <- Eelems.
    split; [reflexivity|]. cbn [ID2_Type ID2_Name].
    rewrite <- (str_chars (unitFilename unitType _)).
    rewrite (chars_unitFilename unitType (str (join_slash elems)) elems
               Hall Ht) by (auto using chars_str).
    rewrite chars_str, <- Hfile. apply str_chars.
Qed.

(* ===================================================================== *)
(** ** The units of a tree *)

Lemma unitFilenames_loop_spec steps : forall files,
  unitFilenames_loop steps files
  = match unitFilenames_loop steps [] with
    | (more, None) => (files ++ more, None)
    | (_, Some e) => ([], Some e)
    end.
Proof.
  induction steps as [|[e|regular name path] steps IH]; intros files.
  - simpl. rewrite app_nil_r. reflexivity.
  - reflexivity.
  - cbn [unitFilenames_loop].
    rewrite (IH (if regular && _ then files ++ [path] else files)).
    rewrite (IH (if regular && _ then [] ++ [path] else [])).
    destruct (unitFilenames_loop steps []) as [more [e|]]; [reflexivity|].
    destruct (regular && _); simpl; rewrite ?app_nil_r, <- ?app_assoc;
      reflexivity.
Qed.

(** The file names that [unitFilenames] returns are the paths of the
    regular files whose name ends in [.unit.json], in the order of the
    walk; an error at any step leaves nothing. *)
Lemma unitFilenames_paths steps :
  unitFilenames steps
  = match head (omap walk_error steps) with
    | Some e => ([], Some e)
    | None => (omap unit_file_path steps, None)
    end.
Proof.
  unfold unitFilenames.
  induction steps as [|[e|regular name path] steps IH].
  - reflexivity.
  - reflexivity.
  - cbn [unitFilenames_loop omap list_omap walk_error].
    rewrite unitFilenames_loop_spec, IH.
    destruct (head (omap walk_error steps)) as [e|]; [reflexivity|].
    unfold unit_file_path at 2.
    destruct regular; simpl; try reflexivity.
    destruct (strings_HasSuffix _ _); reflexivity.
Qed.

Section Units_props.
Context `{CodecUnit : Codec SourceUnit}.

Lemma openUnitFile_nofault filename w u rest :
  faults w = [] -> files w !! filename = Some (encode u ++ rest) ->
  exists w', openUnitFile filename w = ((Some u, None), w') /\
             faults w' = [] /\ files w' = files w.
Proof.
  intros Hf Hfile. unfold openUnitFile.
  destruct (vfs_Open_nofault filename w _ Hf Hfile)
    as (f & w1 & -> & Hf1 & Hfiles1).
  destruct (dec_Decode (encode u ++ rest) w1) as [r0 w2] eqn:E.
  pose proof E as E'.
  apply dec_Decode_cases in E' as (_ & Hfiles2 & _ & Hn).
  destruct (Hn Hf1) as [-> Hf2]. rewrite decode_result_encoded in E.
  destruct (deferred_Close_nofault f
              (λ w, let '(r, w) := dec_Decode (encode u ++ rest) w in
                    match r with
                    | inr e => ((Some SourceUnit_zero, Some e), w)
                    | inl (u, _, _) => ((Some u, None), w)
                    end) w1 (Some u) w2) as (w' & -> & Hf' & Hfiles').
  - rewrite E. reflexivity.
  - exact Hf2.
  - exists w'. repeat split; congruence.
Qed.

Lemma Units_loop_stored fs filenames : forall us units w,
  faults w = [] ->
  Forall2 (λ filename u,
             exists rest, files w !! filename = Some (encode u ++ rest))
          filenames us ->
  exists w', Units_loop fs filenames units w
             = ((units ++ filter (λ u, SelectUnit fs u = true) us, None), w')
             /\ faults w' = [] /\ files w' = files w.
Proof.
  induction filenames as [|filename filenames IH]; intros us units w Hf Hall.
  - inversion Hall; subst. exists w. simpl. rewrite app_nil_r. auto.
  - inversion Hall as [|? u ? us' [rest Hfile] Hall']; subst.
    cbn [Units_loop].
    destruct (openUnitFile_nofault filename w u rest Hf Hfile)
      as (w1 & -> & Hf1 & Hfiles1).
    destruct (IH us' (if SelectUnit fs u then units ++ [u] else units) w1 Hf1)
      as (w' & -> & Hf' & Hfiles').
    + eapply List.Forall2_impl; [|exact Hall'].
      intros a b [r Hr]. exists r. rewrite Hfiles1. exact Hr.
    + exists w'. split; [|split; congruence].
      rewrite filter_cons.
      destruct (SelectUnit fs u) eqn:Es.
      * rewrite decide_True by reflexivity.
        rewrite <- app_assoc. reflexivity.
      * rewrite decide_False by discriminate. reflexivity.
Qed.

(** [Units] returns the stored units.  When no step of the walk fails
    and each regular file it finds with a name ending in [.unit.json]
    starts with the encoding of a unit, [Units] returns, absent I/O
    faults, exactly those of these units that all the filters select, in
    the order of the walk, and changes no file. *)
Theorem Units_returns_stored_units steps fs w us :
  head (omap walk_error steps) = None ->
  faults w = [] ->
  Forall2 (λ filename u,
             exists rest, files w !! filename = Some (encode u ++ rest))
          (omap unit_file_path steps) us ->
  exists w', Units steps fs w
             = ((filter (λ u, SelectUnit fs u = true) us, None), w')
             /\ files w' = files w.
Proof.
  intros Hwalk Hf Hall. unfold Units.
  rewrite unitFilenames_paths, Hwalk.
  destruct (Units_loop_stored fs _ us [] w Hf Hall)
    as (w' & E & _ & Hfiles).
  exists w'. split; [exact E|exact Hfiles].
Qed.

Lemma Units_loop_safe fs filenames : forall units,
  file_safe report_openUnitFile (Units_loop fs filenames units).
Proof.
  induction filenames as [|filename filenames IH]; intros units w.
  - exists []. simpl. repeat split; auto.
  - cbn [Units_loop].
    destruct (openUnitFile_safe filename w) as (evs1 & T1 & C1 & O1 & E1).
    destruct (openUnitFile filename w) as [[u [e|]] w1]; simpl in *.
    + exists evs1. auto.
    + destruct (IH (match u with
                    | Some u => if SelectUnit fs u then units ++ [u]
                                else units
                    | None => units
                    end) w1) as (evs2 & T2 & C2 & O2 & E2).
      exists (evs1 ++ evs2). split; [|split; [|split]].
      * rewrite T2, T1, rev_app_distr, <- app_assoc. reflexivity.
      * apply closes_opened_app; assumption.
      * auto.
      * rewrite first_reported_app, <- E1. exact E2.
Qed.

(** [Units] is file-safe.  When the walk fails, [Units] returns the
    error of the walk and no unit, and opens no file.  Otherwise it opens
    the unit files one after the other, closes each handle before it
    opens the next, leaves none open even when it stops at the first unit
    file that cannot be read, and the error it returns is the first
    failure among its calls (a missing unit file as [errUnitNoInit]); with
    an error it returns no unit at all. *)
Theorem Units_handles_closed_all_or_nothing steps fs :
  match head (omap walk_error steps) with
  | Some e => forall w, Units steps fs w = (([], Some e), w)
  | None => file_safe report_openUnitFile (Units steps fs)
  end /\
  forall w, (Units steps fs w).1.2 <> None -> (Units steps fs w).1.1 = [].
Proof.
  split.
  - unfold Units. rewrite unitFilenames_paths.
    destruct (head (omap walk_error steps)) as [e|].
    + reflexivity.
    + apply Units_loop_safe.
  - intros w. unfold Units.
    destruct (unitFilenames steps) as [filenames [e|]]; [reflexivity|].
    assert (forall units w,
              (Units_loop fs filenames units w).1.2 <> None ->
              (Units_loop fs filenames units w).1.1 = []) as Hloop.
    { induction filenames as [|filename filenames IH]; intros units w0.
      - simpl. contradiction.
      - cbn [Units_loop].
        destruct (openUnitFile filename w0) as [[u [e|]] w1];
          [reflexivity|].
        apply IH. }
    apply Hloop.
Qed.

End Units_props.

(* ===================================================================== *)
(** ** [Build] and the iteration order of the map of unit indexes *)

Lemma lookup_append_postings (m1 m2 : gmap (list rune) (list unitOffsets)) (w : list rune) :
  append_postings m1 m2 !! w
  = union_with (λ a b, Some (a ++ b)) (m1 !! w) (m2 !! w).
Proof. apply lookup_union_with. Qed.

Lemma append_postings_default (m1 m2 : gmap (list rune) (list unitOffsets)) (w : list rune) :
  default [] (append_postings m1 m2 !! w)
  = default [] (m1 !! w) ++ default [] (m2 !! w).
Proof.
  rewrite lookup_append_postings.
  destruct (m1 !! w), (m2 !! w); simpl; rewrite ?app_nil_r; reflexivity.
Qed.

Lemma append_postings_empty_r (m : gmap (list rune) (list unitOffsets)) : append_postings m ∅ = m.
Proof.
  apply map_eq. intros w. rewrite lookup_append_postings, lookup_empty.
  destruct (m !! w); reflexivity.
Qed.

Lemma append_postings_empty_l (m : gmap (list rune) (list unitOffsets)) : append_postings ∅ m = m.
Proof.
  apply map_eq. intros w. rewrite lookup_append_postings, lookup_empty.
  destruct (m !! w); reflexivity.
Qed.

Lemma append_postings_assoc
    (m1 m2 m3 : gmap (list rune) (list unitOffsets)) :
  append_postings (append_postings m1 m2) m3
  = append_postings m1 (append_postings m2 m3).
Proof.
  apply map_eq. intros w. rewrite !lookup_append_postings.
  destruct (m1 !! w), (m2 !! w), (m3 !! w); simpl; rewrite ?app_assoc;
    reflexivity.
Qed.

Lemma append_postings_insert (m d : gmap (list rune) (list unitOffsets))
    (w : list rune) p :
  <[w := default [] (append_postings m d !! w) ++ [p]]> (append_postings m d)
  = append_postings m (<[w := default [] (d !! w) ++ [p]]> d).
Proof.
  apply map_eq. intros w'. destruct (decide (w = w')) as [<-|Hne].
  - rewrite lookup_insert_eq, !lookup_append_postings, lookup_insert_eq.
    destruct (m !! w), (d !! w); simpl; rewrite ?app_assoc; reflexivity.
  - rewrite lookup_insert_ne by exact Hne.
    rewrite !lookup_append_postings, lookup_insert_ne by exact Hne.
    reflexivity.
Qed.

Lemma dom_append_postings (m1 m2 : gmap (list rune) (list unitOffsets)) :
  dom (append_postings m1 m2) = dom m1 ∪ dom m2.
Proof.
  apply set_eq. intros w.
  rewrite elem_of_union, !elem_of_dom, lookup_append_postings.
  unfold is_Some.
  destruct (m1 !! w) as [a|], (m2 !! w) as [b|]; simpl; split;
    try (intros _; eauto; fail).
  - intros [x Hx]. discriminate.
  - intros [[x Hx]|[x Hx]]; discriminate.
Qed.

Lemma after_postings_assoc {I : Type}
    (m d : gmap (list rune) (list unitOffsets))
    (r : outcome (I * gmap (list rune) (list unitOffsets))) :
  after_postings (append_postings m d) r
  = after_postings m (after_postings d r).
Proof.
  destruct r as [[i d']|msg]; simpl; [|reflexivity].
  rewrite append_postings_assoc. reflexivity.
Qed.

(** A traversal adds its postings behind those it is given, and whether
    it panics does not depend on them. *)
Lemma traverse_frame Values unit node : forall term i m,
  traverse Values unit term node (i, m)
  = after_postings m (traverse Values unit term node (i, ∅)).
Proof.
  induction node as [f k es IH] using MinTreeNode_nested_ind.
  intros term i m. cbn [traverse fst snd].
  set (step := λ (acc : outcome (nat * gmap (list rune) (list unitOffsets)))
                 (e : rune * MinTreeNode),
                 match acc with
                 | Panics msg => Panics msg
                 | Returns st' =>
                     traverse Values unit (term ++ [e.1]) e.2 st'
                 end).
  assert (forall acc0, foldl step (after_postings m acc0) es
                       = after_postings m (foldl step acc0 es)) as Hfold.
  { clear -IH. subst step.
    induction IH as [|[c child] es Hc _ IHes]; intros acc0;
      [reflexivity|].
    cbn [foldl]. rewrite <- IHes. f_equal.
    destruct acc0 as [[i0 d]|msg]; [|reflexivity].
    cbn [after_postings fst snd] in *.
    rewrite (Hc (term ++ [c]) i0 (append_postings m d)).
    rewrite (Hc (term ++ [c]) i0 d).
    apply after_postings_assoc. }
  destruct f.
  - destruct (Values !! i) as [v|]; [|apply (Hfold (Panics _))].
    rewrite <- Hfold. f_equal. cbn [after_postings fst snd]. f_equal. f_equal.
    rewrite <- (append_postings_insert m ∅).
    rewrite append_postings_empty_r. reflexivity.
  - rewrite <- Hfold. cbn [after_postings fst snd].
    rewrite append_postings_empty_r. reflexivity.
Qed.

(** Every posting a traversal adds carries the number of its unit. *)
Lemma traverse_posting_units (Q : unitOffsets -> Prop) Values unit :
  (forall v, Q (mkUnitOffsets unit v)) ->
  forall node term st st',
    (forall w ps, st.2 !! w = Some ps -> Forall Q ps) ->
    traverse Values unit term node st = Returns st' ->
    forall w ps, st'.2 !! w = Some ps -> Forall Q ps.
Proof.
  intros Hunit node.
  induction node as [f k es IH] using MinTreeNode_nested_ind.
  intros term st st' Hst. cbn [traverse].
  set (st1 := if f then _ else _).
  assert (forall s, st1 = Returns s ->
            forall w ps, s.2 !! w = Some ps -> Forall Q ps) as H1.
  { subst st1. destruct f; [|intros s [= <-]; exact Hst].
    destruct (Values !! st.1) as [v|]; [|discriminate].
    intros s [= <-] w ps. simpl.
    destruct (decide (term = w)) as [->|Hne].
    - rewrite lookup_insert_eq. intros [= <-]. apply Forall_app. split.
      + destruct (st.2 !! w) as [old|] eqn:E; simpl; [|constructor].
        apply (Hst w). exact E.
      + repeat constructor. apply Hunit.
    - rewrite lookup_insert_ne by exact Hne. apply Hst. }
  clearbody st1. revert st1 H1.
  induction IH as [|[c child] es Hc _ IHes]; intros acc Hacc; simpl.
  - intros E. apply Hacc. exact E.
  - apply IHes. intros s. destruct acc as [s0|msg]; [|discriminate].
    apply Hc. apply Hacc. reflexivity.
Qed.

Lemma Build_unit_frame unitNums m uqx :
  Build_unit unitNums (Returns m) uqx
  = match Build_unit_alone unitNums uqx with
    | Panics msg => Panics msg
    | Returns d => Returns (append_postings m d)
    end.
Proof.
  unfold Build_unit_alone, Build_unit.
  destruct (dq_mt uqx.2) as [qmt|]; [|reflexivity].
  destruct (mt_t qmt) as [t|].
  - rewrite (traverse_frame _ _ _ [] O m).
    destruct (traverse _ _ _ _ (O, ∅)) as [[i d]|msg]; reflexivity.
  - rewrite append_postings_empty_r. reflexivity.
Qed.

Lemma Build_unit_alone_units unitNums uqx d (w : list rune) ps :
  Build_unit_alone unitNums uqx = Returns d -> d !! w = Some ps ->
  Forall (λ p, uo_Unit p = default 0 (unitNums !! uqx.1)) ps.
Proof.
  unfold Build_unit_alone, Build_unit.
  destruct (dq_mt uqx.2) as [qmt|]; [|discriminate].
  destruct (mt_t qmt) as [t|].
  - destruct (traverse _ _ _ _ _) as [st|msg] eqn:E; [|discriminate].
    intros [= <-].
    apply (traverse_posting_units
             (λ p, uo_Unit p = default 0 (unitNums !! uqx.1))
             (mt_Values qmt) (default 0 (unitNums !! uqx.1))
             (λ v, eq_refl) (Root t) [] (O, ∅) st); [|exact E].
    intros w' ps'. simpl. rewrite lookup_empty. discriminate.
  - intros [= <-]. rewrite lookup_empty. discriminate.
Qed.

Lemma unit_postings_units unitNums (w : list rune) uqx :
  Forall (λ p, uo_Unit p = default 0 (unitNums !! uqx.1))
         (unit_postings unitNums w uqx).
Proof.
  unfold unit_postings.
  destruct (Build_unit_alone unitNums uqx) as [d|msg] eqn:E; [|constructor].
  destruct (d !! w) as [ps|] eqn:Ew; simpl; [|constructor].
  eapply Build_unit_alone_units; eassumption.
Qed.

(** The loop of [Build] over the unit indexes: it panics exactly when the
    traversal of some unit index alone panics; otherwise the postings of a
    term are those of each unit for the term, in the order of the
    iteration, and the terms are those of all the units. *)
Lemma foldl_Build_unit_spec unitNums xs : forall m0,
  match foldl (Build_unit unitNums) (Returns m0) xs with
  | Panics _ =>
      Exists (λ x, forall d, Build_unit_alone unitNums x <> Returns d) xs
  | Returns m =>
      Forall (λ x, exists d, Build_unit_alone unitNums x = Returns d) xs /\
      (forall w, default [] (m !! w)
                 = default [] (m0 !! w)
                   ++ concat (unit_postings unitNums w <$> xs)) /\
      (forall w, w ∈ dom m <->
                 w ∈ dom m0 \/
                 exists x d, x ∈ xs /\
                             Build_unit_alone unitNums x = Returns d /\
                             w ∈ dom d)
  end.
Proof.
  induction xs as [|x xs IH]; intros m0.
  - simpl. split; [constructor|]. split.
    + intros w. rewrite app_nil_r. reflexivity.
    + intros w. split; [auto|]. intros [H|(x & d & Hx & _)]; [exact H|].
      inversion Hx.
  - cbn [foldl]. rewrite Build_unit_frame.
    destruct (Build_unit_alone unitNums x) as [d|msg] eqn:Ex.
    + specialize (IH (append_postings m0 d)).
      destruct (foldl _ _ xs) as [m|msg].
      * destruct IH as (Hall & Hlook & Hdom). split; [|split].
        -- constructor; eauto.
        -- intros w. rewrite Hlook, append_postings_default.
           rewrite fmap_cons. cbn [concat].
           unfold unit_postings at 2. rewrite Ex, <- !app_assoc.
           reflexivity.
        -- intros w. rewrite Hdom, dom_append_postings, elem_of_union.
           split.
           ++ intros [[H|H]|(y & dy & Hy & Ey & Hw)].
              ** auto.
              ** right. exists x, d. split; [left|]; auto.
              ** right. exists y, dy. split; [right|]; auto.
           ++ intros [H|(y & dy & Hy & Ey & Hw)]; [auto|].
              apply elem_of_cons in Hy as [->|Hy].
              ** rewrite Ex in Ey. injection Ey as <-. auto.
              ** right. eauto.
      * apply Exists_cons_tl. exact IH.
    + rewrite foldl_Build_unit_Panics. apply Exists_cons_hd.
      intros d. rewrite Ex. discriminate.
Qed.

Global Instance term_le_antisymm : AntiSymm (=) term_le.
Proof.
  intros a b H1 H2. unfold term_le in *. apply lex_ltb_total; assumption.
Qed.

(** [sort.Sort] is not stable, but on unit IDs and on terms the order is
    total, so whatever the algorithm the sorted list is the same. *)
Lemma sort_Sort_units_unique (S S' : Sorter unitID2s_Less) (l l' : list ID2) :
  l' ≡ₚ l -> @sort_Sort _ _ S' l' = @sort_Sort _ _ S l.
Proof.
  intros Hp. apply (StronglySorted_unique unitID2s_le).
  - apply (@sort_Sort_sorted _ _ S').
  - apply (@sort_Sort_sorted _ _ S).
  - rewrite (@sort_Sort_perm _ _ S'), (@sort_Sort_perm _ _ S). exact Hp.
Qed.

Lemma sort_Sort_terms_unique (S S' : Sorter lex_ltb) (l l' : list (list rune)) :
  l' ≡ₚ l -> @sort_Sort _ _ S' l' = @sort_Sort _ _ S l.
Proof.
  intros Hp. apply (StronglySorted_unique term_le).
  - apply (@sort_Sort_sorted _ _ S').
  - apply (@sort_Sort_sorted _ _ S).
  - rewrite (@sort_Sort_perm _ _ S'), (@sort_Sort_perm _ _ S). exact Hp.
Qed.

Lemma Build_units_perm (S S' : Sorter unitID2s_Less)
    (xs xs' : list (ID2 * defQueryIndex)) :
  xs' ≡ₚ xs -> @Build_units S' xs' = @Build_units S xs.
Proof.
  intros Hp. unfold Build_units.
  rewrite (sort_Sort_units_unique S S' xs.*1 xs'.*1); [reflexivity|].
  rewrite Hp. reflexivity.
Qed.

(** The number [Build] gives the unit at position [i] of the table is
    [i], as long as the table has at most 256 units. *)
Lemma Build_unitNums_lookup (l : list ID2) :
  NoDup l -> (length l <= 256)%nat ->
  size (Build_unitNums l) = length l /\
  (forall u, u ∈ dom (Build_unitNums l) <-> u ∈ l) /\
  forall i u, l !! i = Some u -> Build_unitNums l !! u = Some (Z.of_nat i).
Proof.
  induction l as [|a l IH] using rev_ind; intros Hnd Hlen.
  - unfold Build_unitNums. simpl. split; [apply map_size_empty|]. split.
    + intros u. rewrite dom_empty, elem_of_empty, elem_of_nil. tauto.
    + intros i u. rewrite lookup_nil. discriminate.
  - apply list.NoDup_app in Hnd as (Hnd & Hnot & _).
    rewrite length_app in Hlen. simpl in Hlen.
    destruct (IH Hnd ltac:(lia)) as (Hsize & Hdom & Hlook).
    assert (a ∉ l) as Ha.
    { intros Hin. apply (Hnot a Hin). left. }
    unfold Build_unitNums in *. rewrite foldl_snoc.
    set (nums := foldl _ ∅ l) in *.
    assert (nums !! a = None) as Hnone.
    { apply not_elem_of_dom. rewrite Hdom. exact Ha. }
    split; [|split].
    + rewrite map_size_insert_None by exact Hnone.
      rewrite length_app. simpl. lia.
    + intros u. rewrite dom_insert, elem_of_union, elem_of_singleton, Hdom.
      rewrite elem_of_app, list_elem_of_singleton. tauto.
    + intros i u Hi. apply lookup_app_Some in Hi as [Hi|[Hge Hi]].
      * rewrite lookup_insert_ne.
        -- apply Hlook. exact Hi.
        -- intros ->. apply Ha. eapply list_elem_of_lookup_2. exact Hi.
      * apply list_lookup_singleton_Some in Hi as [Hi ->].
        rewrite lookup_insert_eq. f_equal. rewrite Hsize.
        rewrite Z.mod_small by lia. f_equal. lia.
Qed.

Section Build_order.
Variable unicode_ToLower : rune -> rune.
Context `{SortUnits : Sorter ID2 unitID2s_Less}.
Context `{SortStrings : Sorter (list rune) lex_ltb}.

(** With at most 255 units every unit of the map is in the table, at the
    position that is its number. *)
Lemma Build_units_lookup_num (xs : list (ID2 * defQueryIndex)) x :
  NoDup xs.*1 -> (length xs <= maxUnits)%nat -> x ∈ xs ->
  Build_units xs
    !! Z.to_nat (default 0 (Build_unitNums (Build_units xs) !! x.1))
  = Some x.1.
Proof.
  intros Hnd Hlen Hx.
  assert (length (sort_Sort xs.*1) = length xs) as Hl.
  { rewrite (Permutation_length (sort_Sort_perm xs.*1)). apply length_fmap. }
  assert (Build_units xs = sort_Sort xs.*1) as ->.
  { unfold Build_units. rewrite decide_False by lia. reflexivity. }
  assert (NoDup (sort_Sort xs.*1)) as Hnd'.
  { rewrite (sort_Sort_perm xs.*1). exact Hnd. }
  assert (x.1 ∈ sort_Sort xs.*1) as Hin.
  { rewrite (sort_Sort_perm xs.*1). apply list_elem_of_fmap. eauto. }
  apply list_elem_of_lookup in Hin as [i Hi].
  destruct (Build_unitNums_lookup (sort_Sort xs.*1) Hnd') as (_ & _ & Hlook).
  { unfold maxUnits in Hlen. lia. }
  rewrite (Hlook i x.1 Hi). simpl. rewrite Nat2Z.id. exact Hi.
Qed.

Lemma postings_of_concat Units u (pss : list (list unitOffsets)) :
  postings_of Units u (concat pss) = concat (postings_of Units u <$> pss).
Proof.
  unfold postings_of. induction pss as [|ps pss IH]; [reflexivity|].
  rewrite fmap_cons. cbn [concat]. rewrite list.filter_app, IH. reflexivity.
Qed.

Lemma postings_of_unit Units u (ps : list unitOffsets) k :
  Forall (λ p, uo_Unit p = k) ps ->
  postings_of Units u ps
  = if decide (Units !! Z.to_nat k = Some u) then ps else [].
Proof.
  unfold postings_of. induction 1 as [|p ps Hp _ IH].
  - destruct (decide _); reflexivity.
  - rewrite filter_cons, IH, Hp. destruct (decide _); reflexivity.
Qed.

Lemma concat_fmap_filter {A B} (P : A -> Prop) `{forall x, Decision (P x)}
    (g : A -> list B) (xs : list A) :
  concat ((λ x, if decide (P x) then g x else []) <$> xs)
  = concat (g <$> filter P xs).
Proof.
  induction xs as [|x xs IH]; [reflexivity|].
  rewrite fmap_cons, filter_cons. cbn [concat]. rewrite IH.
  destruct (decide (P x)); reflexivity.
Qed.

Lemma filter_key_unique (xs : list (ID2 * defQueryIndex)) u :
  NoDup xs.*1 -> (length (filter (λ x, x.1 = u) xs) <= 1)%nat.
Proof.
  induction xs as [|x xs IH]; intros Hnd; [simpl; lia|].
  rewrite fmap_cons in Hnd. apply list.NoDup_cons in Hnd as [Hx Hnd].
  rewrite filter_cons. destruct (decide (x.1 = u)) as [Hu|Hu]; [|auto].
  destruct (filter (λ x, x.1 = u) xs) as [|y ys] eqn:E; [simpl; lia|].
  exfalso. apply Hx.
  assert (y ∈ filter (λ x, x.1 = u) xs) as Hy by (rewrite E; left).
  apply list_elem_of_filter in Hy as [Hy1 Hy2].
  rewrite Hu, <- Hy1. apply list_elem_of_fmap. eauto.
Qed.

Lemma perm_short {A} (l l' : list A) :
  l' ≡ₚ l -> (length l <= 1)%nat -> l' = l.
Proof.
  intros Hp Hl. destruct l as [|a [|b l]]; [| |simpl in Hl; lia].
  - apply Permutation_nil_r. exact Hp.
  - apply Permutation_singleton_r. exact Hp.
Qed.

(** The postings that [getByQuery] files under a unit come from the index
    of that unit alone, whatever place the unit has in the iteration. *)
Lemma postings_of_units (xs ys : list (ID2 * defQueryIndex)) u w :
  NoDup xs.*1 -> (length xs <= maxUnits)%nat -> ys ≡ₚ xs ->
  postings_of (Build_units xs) u
    (concat (unit_postings (Build_unitNums (Build_units xs)) w <$> ys))
  = concat (unit_postings (Build_unitNums (Build_units xs)) w
              <$> filter (λ x, x.1 = u) xs).
Proof.
  intros Hnd Hlen Hp.
  rewrite postings_of_concat, <- list_fmap_compose.
  rewrite <- (perm_short (filter (λ x, x.1 = u) xs)
                         (filter (λ x, x.1 = u) ys)).
  - rewrite <- concat_fmap_filter. f_equal.
    apply list_fmap_ext. intros i x Hx. cbn [compose].
    assert (x ∈ xs) as Hin.
    { rewrite <- Hp. eapply list_elem_of_lookup_2. exact Hx. }
    rewrite (postings_of_unit _ _ _ _ (unit_postings_units _ w x)).
    rewrite (Build_units_lookup_num xs x Hnd Hlen Hin).
    destruct (decide (x.1 = u)) as [->|Hne].
    + rewrite decide_True by reflexivity. reflexivity.
    + rewrite decide_False by congruence. reflexivity.
  - apply filter_Permutation. exact Hp.
  - apply filter_key_unique. exact Hnd.
Qed.

Lemma foldl_put_lookup Units (L : list unitOffsets) : forall m u,
  foldl (getByQuery_put Units) m L !! u
  = match postings_of Units u L with
    | [] => m !! u
    | ps =>
        Some (default [] (m !! u)
              ++ concat ((λ p, deltaDecode (uo_byteOffsets p)) <$> ps))
    end.
Proof.
  induction L as [|p L IH]; intros m u; [reflexivity|].
  cbn [foldl]. rewrite IH. unfold postings_of. rewrite filter_cons.
  fold (postings_of Units u L). unfold getByQuery_put at 1 2.
  destruct (Units !! Z.to_nat (uo_Unit p)) as [u'|] eqn:Eu.
  - destruct (decide (Some u' = Some u)) as [[= ->]|Hne].
    + rewrite lookup_insert_eq. cbn [default from_option id].
      destruct (postings_of Units u L) as [|p' ps'].
      * simpl. rewrite app_nil_r. reflexivity.
      * rewrite fmap_cons. cbn [concat]. rewrite <- !app_assoc.
        reflexivity.
    + rewrite lookup_insert_ne by congruence. reflexivity.
  - rewrite decide_False by discriminate. reflexivity.
Qed.

Lemma foldl_put_ext Units (L L' : list unitOffsets) m :
  (forall u, postings_of Units u L = postings_of Units u L') ->
  foldl (getByQuery_put Units) m L = foldl (getByQuery_put Units) m L'.
Proof.
  intros H. apply map_eq. intros u. rewrite !foldl_put_lookup, H.
  reflexivity.
Qed.

Lemma same_postings_concat Units (vs vs' : list (list unitOffsets)) :
  Forall2 (same_postings Units) vs vs' ->
  same_postings Units (concat vs) (concat vs').
Proof.
  induction 1 as [|ps ps' vs vs' (H1 & H2 & H3) _ (IH1 & IH2 & IH3)].
  - repeat split; constructor.
  - cbn [concat]. split; [|split].
    + apply Forall_app. auto.
    + apply Forall_app. auto.
    + intros u. unfold postings_of in *.
      rewrite !list.filter_app, H3, IH3. reflexivity.
Qed.

Lemma getByQuery_same_postings t b Units Values Values' r q :
  Forall2 (same_postings Units) Values Values' ->
  getByQuery unicode_ToLower
    (mkDefQueryTreeIndex (Some (mkMafsaUnitTable t b Units Values)) r) q
  = getByQuery unicode_ToLower
      (mkDefQueryTreeIndex (Some (mkMafsaUnitTable t b Units Values')) r) q.
Proof.
  intros HV. unfold getByQuery. cbn [mt ut_t ut_Values ut_Units].
  destruct t as [t|]; [|reflexivity].
  destruct (IndexedTraverse t _) as [[node i]|]; [|reflexivity].
  assert (forall a c, match slice Values a c with
                      | None => Panics panic_slice
                      | Some vs =>
                          match foldl (getByQuery_add Units) (Returns ∅)
                                      (concat vs) with
                          | Panics msg => Panics msg
                          | Returns uofMap => Returns (Some uofMap)
                          end
                      end
                      = match slice Values' a c with
                        | None => Panics panic_slice
                        | Some vs =>
                            match foldl (getByQuery_add Units) (Returns ∅)
                                        (concat vs) with
                            | Panics msg => Panics msg
                            | Returns uofMap => Returns (Some uofMap)
                            end
                        end) as Hs.
  { intros a c. unfold slice. rewrite <- (list.Forall2_length _ _ _ HV).
    destruct (decide _) as [Hin|Hout]; [|reflexivity].
    destruct (same_postings_concat Units
                (take (Z.to_nat (c - a)) (drop (Z.to_nat a) Values))
                (take (Z.to_nat (c - a)) (drop (Z.to_nat a) Values')))
      as (H1 & H2 & H3).
    { apply Forall2_take, Forall2_drop. exact HV. }
    rewrite !getByQuery_add_in_range by assumption.
    rewrite (foldl_put_ext Units _ _ ∅ H3). reflexivity. }
  destruct (Final node); apply Hs.
Qed.

(** [Build] does not depend on the order in which Go iterates over the
    map of unit indexes, nor on the sorting algorithm.  Run on the same
    unit indexes taken in another order, with other implementations of
    [sort.Sort] (the keys of a map are distinct, and the library calls
    answer alike), [Build] returns the same error and leaves an index
    with the same readiness, the same tree, the same bytes and the same
    table of units; the postings of a term may follow each other in
    another order, but with at most 255 units the index answers every
    query alike. *)
Theorem Build_independent_of_iteration_order
    (SortUnits' : Sorter unitID2s_Less) (SortStrings' : Sorter lex_ltb)
    x0 (xs xs' : list (ID2 * defQueryIndex)) env :
  NoDup xs.*1 -> xs' ≡ₚ xs ->
  (@Build SortUnits' SortStrings' x0 xs' env).1
    = (@Build SortUnits SortStrings x0 xs env).1 /\
  ready (@Build SortUnits' SortStrings' x0 xs' env).2
    = ready (@Build SortUnits SortStrings x0 xs env).2 /\
  (λ tb, (ut_t tb, ut_B tb, ut_Units tb))
    <$> mt (@Build SortUnits' SortStrings' x0 xs' env).2
    = (λ tb, (ut_t tb, ut_B tb, ut_Units tb))
        <$> mt (@Build SortUnits SortStrings x0 xs env).2 /\
  ((length xs <= maxUnits)%nat ->
   forall q,
     getByQuery unicode_ToLower
       (@Build SortUnits' SortStrings' x0 xs' env).2 q
     = getByQuery unicode_ToLower
         (@Build SortUnits SortStrings x0 xs env).2 q).
Proof.
  intros Hnd Hp.
  pose proof (Build_units_perm SortUnits SortUnits' xs xs' Hp) as HU.
  pose proof (@Build_termToUOffs_in_range SortUnits' xs') as Hr'.
  pose proof (@Build_termToUOffs_in_range SortUnits xs) as Hr.
  unfold Build, Build_termToUOffs in *. rewrite HU in *.
  set (nums := Build_unitNums (@Build_units SortUnits xs)) in *.
  pose proof (foldl_Build_unit_spec nums xs ∅) as Hxs.
  pose proof (foldl_Build_unit_spec nums xs' ∅) as Hxs'.
  destruct (foldl (Build_unit nums) (Returns ∅) xs) as [m|msg];
    destruct (foldl (Build_unit nums) (Returns ∅) xs') as [m'|msg'].
  - destruct Hxs as (_ & Hlook & Hdom). destruct Hxs' as (_ & Hlook' & Hdom').
    assert (dom m' = dom m) as Hd.
    { apply set_eq. intros w. rewrite Hdom, Hdom'.
      split; (intros [H|(x & d & Hx & Hrest)]; [auto|]); right;
        exists x, d; (split; [|exact Hrest]).
      - rewrite <- Hp. exact Hx.
      - rewrite Hp. exact Hx. }
    rewrite Hd.
    rewrite (sort_Sort_terms_unique SortStrings SortStrings'
               (elements (dom m)) (elements (dom m))) by reflexivity.
    set (terms := @sort_Sort _ _ SortStrings (elements (dom m))).
    assert ((length xs <= maxUnits)%nat ->
            Forall2 (same_postings (@Build_units SortUnits xs))
              ((λ term, default [] (m' !! term)) <$> terms)
              ((λ term, default [] (m !! term)) <$> terms)) as HV.
    { intros Hlen. apply Forall2_fmap, Forall_Forall2_diag.
      apply list.Forall_forall. intros w _. split; [|split].
      - destruct (m' !! w) as [ps|] eqn:E; [|constructor].
       
        exact (Hr' m' eq_refl w ps E).
      - destruct (m !! w) as [ps|] eqn:E; [|constructor].
        exact (Hr m eq_refl w ps E).
      - intros u. rewrite Hlook, Hlook', !lookup_empty.
        cbn [default from_option app]. unfold nums.
        rewrite (postings_of_units xs xs' u w Hnd Hlen Hp).
        rewrite (postings_of_units xs xs u w Hnd Hlen);
          reflexivity. }
    clearbody terms. destruct terms as [|term terms].
    { repeat split; reflexivity. }
    destruct (env_marshal env) as [b [e|]].
    { repeat split; reflexivity. }
    destruct (env_decode env) as [[e t]|]; cbn [fst snd ready mt fmap
      option_fmap option_map ut_t ut_B ut_Units];
      (split; [reflexivity|]); (split; [reflexivity|]);
      (split; [reflexivity|]); intros Hlen q;
      apply getByQuery_same_postings; apply HV; exact Hlen.
  - exfalso. destruct Hxs as (Hall & _).
    rewrite <- Hp in Hall. apply list.Exists_exists in Hxs' as (x & Hx & Hno).
    rewrite list.Forall_forall in Hall. destruct (Hall x Hx) as [d Hd].
    exact (Hno d Hd).
  - exfalso. destruct Hxs' as (Hall & _).
    rewrite Hp in Hall. apply list.Exists_exists in Hxs as (x & Hx & Hno).
    rewrite list.Forall_forall in Hall. destruct (Hall x Hx) as [d Hd].
    exact (Hno d Hd).
  - repeat split; reflexivity.
Qed.

End Build_order.

(* ===================================================================== *)
(** ** Queries given as Go strings *)






Section getByQuery_string_props.
Variable unicode_ToLower : rune -> rune.
Context `{SortUnits : Sorter ID2 unitID2s_Less}.
Context `{SortStrings : Sorter (list rune) lex_ltb}.


End getByQuery_string_props.



(* ===================================================================== *)
(** ** The properties on sample data *)

Lemma reads_without_data_files_fail_witness :
  files world0 !! unitDefsFilename = None /\
  (@Defs RefCodecFacts.codec_Def [] world0).1 = ([], Some ErrNotExist) /\
  (@readRefs RefCodecFacts.codec_Ref world0).1
    = ([], ∅, [], Some ErrNotExist).
Proof.
  split; [reflexivity|].
  destruct (@reads_without_data_files_fail RefCodecFacts.codec_Def
              RefCodecFacts.codec_Ref false world0 eq_refl eq_refl)
    as (e1 & e2 & He & HD & _ & _ & HR & _).
  destruct (He (or_introl eq_refl)) as [E1 E2].
  rewrite <- E1 at 1. rewrite <- E2. split; [apply HD|exact HR].
Defined.

Lemma defsAtOffsets_finds_written_defs_witness :
  let r := @writeDefs RefCodecFacts.codec_Def [def_p1; def_p2] world0 in
  r.1 = ([0; 22], None) /\
  exists w3,
    @defsAtOffsets RefCodecFacts.codec_Def false [22; 0] [] r.2
    = (([def_p2; def_p1], None), w3).
Proof.
  intros r. split; [vm_compute; reflexivity|].
  assert (@writeDefs RefCodecFacts.codec_Def [def_p1; def_p2] world0
          = ((r.1.1, None), r.2)) as EW by (vm_compute; reflexivity).
  assert (Z.of_nat (length (@data_of _ RefCodecFacts.codec_Def
                              [def_p1; def_p2])) < 2 ^ 63) as Hb
    by (vm_compute; reflexivity).
  destruct (@defsAtOffsets_finds_written_defs RefCodecFacts.codec_Def false
              [def_p1; def_p2] world0 r.1.1 r.2 EW Hb
              [1; 0]%nat [] r.2 eq_refl) as [_ H].
  destruct H as [w3 E]; [vm_compute; reflexivity|].
  exists w3. etransitivity; [|etransitivity; [exact E|]];
    vm_compute; reflexivity.
Defined.

Lemma readRefs_writeRefs_offsets_witness :
  let r := @writeRefs RefCodecFacts.codec_Ref merge_Sorter
             sample_refs world0 in
  r.1.1.2 = [0; 23; 54; 90; 115] /\
  exists fbrs w3,
    @readRefs RefCodecFacts.codec_Ref r.2
    = ((sample_refs, fbrs, [0; 23; 54; 90; 115], None), w3).
Proof.
  intros r. split; [vm_compute; reflexivity|].
  assert (@writeRefs RefCodecFacts.codec_Ref merge_Sorter sample_refs world0
          = ((r.1.1.1, r.1.1.2, None), r.2)) as EW
    by (vm_compute; reflexivity).
  assert (Z.of_nat (length (@data_of _ RefCodecFacts.codec_Ref
                              (@sort_Sort _ _ merge_Sorter sample_refs)))
          < 2 ^ 63) as Hb by (vm_compute; reflexivity).
  destruct (@readRefs_writeRefs_offsets RefCodecFacts.codec_Ref merge_Sorter
              sample_refs world0 r.1.1.1 r.1.1.2 r.2 EW Hb)
    as (_ & _ & H).
  destruct (H r.2 eq_refl) as [_ H'].
  destruct H' as (fbrs & w3 & E); [vm_compute; reflexivity|].
  exists fbrs, w3. rewrite E. vm_compute. reflexivity.
Defined.

Lemma refsAtOffsets_finds_written_refs_witness :
  let r := @writeRefs RefCodecFacts.codec_Ref merge_Sorter
             sample_refs world0 in
  exists w3,
    @refsAtOffsets RefCodecFacts.codec_Ref false [90; 23] [] r.2
    = (([ref_at "f2" 2 3; ref_at "f1" 5 6], None), w3).
Proof.
  intros r.
  assert (@writeRefs RefCodecFacts.codec_Ref merge_Sorter sample_refs world0
          = ((r.1.1.1, r.1.1.2, None), r.2)) as EW
    by (vm_compute; reflexivity).
  assert (Z.of_nat (length (@data_of _ RefCodecFacts.codec_Ref
                              (@sort_Sort _ _ merge_Sorter sample_refs)))
          < 2 ^ 63) as Hb by (vm_compute; reflexivity).
  destruct (@refsAtOffsets_finds_written_refs RefCodecFacts.codec_Ref
              merge_Sorter false sample_refs world0 r.1.1.1 r.1.1.2 r.2
              EW Hb [3; 1]%nat [] r.2 eq_refl) as [_ H].
  destruct H as [w3 E]; [vm_compute; reflexivity|].
  exists w3. etransitivity; [|etransitivity; [exact E|]];
    vm_compute; reflexivity.
Defined.

Lemma offset_past_the_end_is_EOF_witness :
  let w := (@Import RefCodecFacts.codec_Def RefCodecFacts.codec_Ref
              merge_Sorter cleanForImport_spec sample_output world0).2 in
  (@defsAtOffsets RefCodecFacts.codec_Def false [0; 1000; 23] [] w).1
    = ([], Some EOF) /\
  (@refsAtOffsets RefCodecFacts.codec_Ref true [200] [] w).1
    = ([], Some EOF).
Proof.
  intros w.
  assert (files w !! unitDefsFilename
          = Some (default [] (files w !! unitDefsFilename))) as Hd
    by (vm_compute; reflexivity).
  assert (files w !! unitRefsFilename
          = Some (default [] (files w !! unitRefsFilename))) as Hr
    by (vm_compute; reflexivity).
  assert (faults w = []) as Hf by reflexivity.
  destruct (@offset_past_the_end_is_EOF RefCodecFacts.codec_Def
              RefCodecFacts.codec_Ref false w _ _ Hd Hr Hf) as [HD _].
  destruct (@offset_past_the_end_is_EOF RefCodecFacts.codec_Def
              RefCodecFacts.codec_Ref true w _ _ Hd Hr Hf) as [_ HR].
  split.
  - apply (HD [(0, mkDef "" "" "" "" "p1" "n1" "" "f1" 0 3 true false)]
              1000 [23] []).
    + constructor; [|constructor]. split; [simpl; lia|].
      eexists. vm_compute. reflexivity.
    + vm_compute. discriminate.
  - apply (HR [] 200 [] []); [constructor|vm_compute; discriminate].
Defined.

Lemma writeRefs_fileByteRanges_witness :
  let r := @writeRefs RefCodecFacts.codec_Ref merge_Sorter
             (ref_at "" 0 1 :: sample_refs) world0 in
  r.1.1.1 !! "f2" = Some [107; 25; 29] /\ r.1.1.1 !! "" = None /\
  r.1.1.1 !! "f3" = None.
Proof.
  intros r.
  assert (@writeRefs RefCodecFacts.codec_Ref merge_Sorter
            (ref_at "" 0 1 :: sample_refs) world0
          = ((r.1.1.1, r.1.1.2, None), r.2)) as EW
    by (vm_compute; reflexivity).
  assert (Z.of_nat (length (@data_of _ RefCodecFacts.codec_Ref
                              (@sort_Sort _ _ merge_Sorter
                                 (ref_at "" 0 1 :: sample_refs))))
          < 2 ^ 63) as Hb by (vm_compute; reflexivity).
  pose proof (@writeRefs_fileByteRanges RefCodecFacts.codec_Ref merge_Sorter
                (ref_at "" 0 1 :: sample_refs) world0 r.1.1.1 r.1.1.2 r.2
                EW Hb) as H.
  rewrite !H. vm_compute. repeat split; reflexivity.
Defined.

Lemma refsAtByteRanges_finds_refs_of_files_witness :
  let r := @writeRefs RefCodecFacts.codec_Ref merge_Sorter
             sample_refs world0 in
  exists w3,
    @refsAtByteRanges RefCodecFacts.codec_Ref true
      (omap (λ F, r.1.1.1 !! F) ["f2"; "f3"; "f1"]) [] r.2
    = Returns
        (([ref_at "f2" 2 3; ref_at "f2" 4 5;
           ref_at "f1" 1 2; ref_at "f1" 5 6; ref_at "f1" 7 9], None), w3).
Proof.
  intros r.
  assert (@writeRefs RefCodecFacts.codec_Ref merge_Sorter sample_refs world0
          = ((r.1.1.1, r.1.1.2, None), r.2)) as EW
    by (vm_compute; reflexivity).
  assert (Z.of_nat (length (@data_of _ RefCodecFacts.codec_Ref
                              (@sort_Sort _ _ merge_Sorter sample_refs)))
          < 2 ^ 63) as Hb by (vm_compute; reflexivity).
  destruct (@refsAtByteRanges_finds_refs_of_files RefCodecFacts.codec_Ref
              merge_Sorter true sample_refs world0 r.1.1.1 r.1.1.2 r.2
              EW Hb ["f2"; "f3"; "f1"] [] r.2 eq_refl)
    as (_ & _ & H).
  destruct H as [w3 E]; [vm_compute; reflexivity|].
  exists w3. rewrite E. vm_compute. reflexivity.
Defined.

Lemma Build_recovers_from_nil_unit_table_witness :
  let x := (@Build merge_Sorter_units merge_Sorter_terms
              defQueryTreeIndex_zero sample_tree_units mafsa_ok).2 in
  @Build merge_Sorter_units merge_Sorter_terms x
    [(sample_unit 0, unit_index [("foo", [0])]);
     (sample_unit 1, mkDefQueryIndex None)] mafsa_ok
  = (Some ErrRecovered, x).
Proof.
  intros x.
  apply (@Build_recovers_from_nil_unit_table merge_Sorter_units
           merge_Sorter_terms x _ mafsa_ok (sample_unit 1)
           (mkDefQueryIndex None)).
  - right. left.
  - reflexivity.
Defined.

Lemma getByQuery_returns_terms_with_prefix_witness :
  let x := (@Build merge_Sorter_units merge_Sorter_terms
              defQueryTreeIndex_zero sample_tree_units mafsa_ok).2 in
  let found q :=
    match getByQuery ascii_ToLower x (string_bytes q) with
    | Returns (Some m') => Some (m' !! sample_unit 0, m' !! sample_unit 1)
    | _ => None
    end in
  found "Fo" = Some (Some [0; 10], Some [5]) /\
  found "foob" = Some (Some [10], None) /\
  found "Fox" = None.
Proof.
  intros x found.
  set (m := match @Build_termToUOffs merge_Sorter_units sample_tree_units with
            | Returns m => m
            | Panics _ => ∅
            end).
  assert (@Build merge_Sorter_units merge_Sorter_terms
            defQueryTreeIndex_zero sample_tree_units mafsa_ok = (None, x))
    as HB by (vm_compute; reflexivity).
  assert (@Build_termToUOffs merge_Sorter_units sample_tree_units = Returns m)
    as Hm by (vm_compute; reflexivity).
  assert (m <> ∅) as Hne.
  { intros E. apply (f_equal (λ m, m !! string_bytes "foo")) in E.
    vm_compute in E. discriminate. }
  assert (m !! [] = None) as Hnil by (vm_compute; reflexivity).
  pose proof (@getByQuery_returns_terms_with_prefix ascii_ToLower
                merge_Sorter_units merge_Sorter_terms defQueryTreeIndex_zero
                sample_tree_units mafsa_ok x m) as H.
  unfold found.
  rewrite (H (string_bytes "Fo") HB Hm Hne Hnil).
  rewrite (H (string_bytes "foob") HB Hm Hne Hnil).
  rewrite (H (string_bytes "Fox") HB Hm Hne Hnil).
  vm_compute. repeat split; reflexivity.
Defined.

Lemma Repos_lastComp_sorts_before_witness :
  Repos_lastComp "foo" = Returns ("fon" +:+ byte_string [255]) /\
  str_ltb ("fon" +:+ byte_string [255]) "foo" = true.
Proof.
  destruct (Repos_lastComp_sorts_before "fo" "o"%char) as (after & H1 & H2 & H3).
  - vm_compute. split; discriminate.
  - subst after. split; [exact H1|exact H3].
Defined.

Lemma unitFile_ID2_of_unitFilename_witness :
  unitFilename "GoPackage" "github.com/foo/bar"
    = "github.com/foo/bar/GoPackage.unit.json"%string /\
  unitFile_ID2 "github.com/foo/bar/GoPackage.unit.json"
    = mkID2 "GoPackage" "github.com/foo/bar".
Proof.
  assert (chars "github.com/foo/bar"
          = join_slash [chars "github.com"; chars "foo"; chars "bar"]) as Hu
    by reflexivity.
  assert (Forall plain_element [chars "github.com"; chars "foo"; chars "bar"])
    as Hall.
  { repeat (constructor; [repeat split; try discriminate;
                          repeat constructor|]). constructor. }
  assert (Forall (λ c, is_slash c = false) (chars "GoPackage")) as Ht
    by (repeat constructor).
  destruct (unitFile_ID2_of_unitFilename "GoPackage" "github.com/foo/bar"
              [chars "github.com"; chars "foo"; chars "bar"]
              Hu ltac:(discriminate) Hall ltac:(discriminate) Ht)
    as (Hfile & _ & Hid & _).
  split; [exact Hfile|].
  change (unitFile_ID2 (unitFilename "GoPackage" "github.com/foo/bar")
          = mkID2 "GoPackage" "github.com/foo/bar") in Hid.
  rewrite Hfile in Hid. exact Hid.
Defined.

Lemma Units_returns_stored_units_witness :
  let u1 := mkSourceUnit "GoPackage" "a" "" in
  let u2 := mkSourceUnit "Other" "b" "" in
  let w := World (<["a/GoPackage.unit.json" :=
                     @encode _ RefCodecFacts.codec_SourceUnit u1]>
                  (<["b/Other.unit.json" :=
                      @encode _ RefCodecFacts.codec_SourceUnit u2]> ∅))
                 [] 0 [] [] in
  let steps := [WalkEntry false "a" "a";
                WalkEntry true "GoPackage.unit.json" "a/GoPackage.unit.json";
                WalkEntry true "def.dat" "a/GoPackage/def.dat";
                WalkEntry true "Other.unit.json" "b/Other.unit.json"] in
  unitFilenames steps
    = (["a/GoPackage.unit.json"; "b/Other.unit.json"]%string, None) /\
  (@Units RefCodecFacts.codec_SourceUnit steps [] w).1 = ([u1; u2], None).
Proof.
  intros u1 u2 w steps. split; [vm_compute; reflexivity|].
  assert (Forall2 (λ filename u,
                     exists rest,
                       files w !! filename
                       = Some (@encode _ RefCodecFacts.codec_SourceUnit u
                                 ++ rest))
                  (omap unit_file_path steps) [u1; u2]) as Hall.
  { repeat constructor; exists []; vm_compute; reflexivity. }
  destruct (@Units_returns_stored_units RefCodecFacts.codec_SourceUnit
              steps [] w [u1; u2] eq_refl eq_refl Hall) as (w' & E & _).
  rewrite E. reflexivity.
Defined.

Lemma Build_independent_of_iteration_order_witness :
  let a := (sample_unit 0,
            unit_index [("foo", [0]); ("foobar", [10]); ("quux", [20])]) in
  let b := (sample_unit 1, unit_index [("foo", [5])]) in
  let x := (@Build merge_Sorter_units merge_Sorter_terms
              defQueryTreeIndex_zero [a; b] mafsa_ok).2 in
  let x' := (@Build merge_Sorter_units merge_Sorter_terms
               defQueryTreeIndex_zero [b; a] mafsa_ok).2 in
  x' <> x /\
  getByQuery ascii_ToLower x' (string_bytes "Foo")
  = getByQuery ascii_ToLower x (string_bytes "Foo").
Proof.
  intros a b x x'. split; [vm_compute; discriminate|].
  assert (NoDup [a; b].*1) as Hnd.
  { apply (bool_decide_unpack _). vm_compute. exact I. }
  assert ([b; a] ≡ₚ [a; b]) as Hp by constructor.
  destruct (@Build_independent_of_iteration_order ascii_ToLower
              merge_Sorter_units merge_Sorter_terms
              merge_Sorter_units merge_Sorter_terms
              defQueryTreeIndex_zero [a; b] [b; a] mafsa_ok Hnd Hp)
    as (_ & _ & _ & H).
  apply H. unfold maxUnits. simpl. lia.
Defined.

Lemma unitFilename_of_unitFile_ID2_witness :
  unitFile_ID2 "GoPackage.unit.json" = mkID2 "GoPackage" "." /\
  unitFilename "GoPackage" "." = "GoPackage.unit.json"%string.
Proof.
  assert (Forall (λ c, is_slash c = false) (chars "GoPackage")) as Ht
    by (repeat constructor).
  destruct (unitFilename_of_unitFile_ID2 "GoPackage.unit.json" "GoPackage" []
              eq_refl (Forall_nil _) ltac:(discriminate) Ht) as [Hid Hname].
  split; [exact Hid|]. rewrite Hid in Hname. exact Hname.
Defined.
